(** * Xor filters (xorfilter.h): a shallow embedding and its properties

    The header [include/xorfilter.h] implements xor filters over 64-bit keys
    with 8-bit ([xor8_*]) and 16-bit ([xor16_*]) fingerprint cells.

    Conventions of the embedding.
    - A [uintN_t] value is a [Z] in [[0, 2^N)]; every operation that can wrap
      has its reduction written out ([u64], [u32], [cell]).
    - An array is a [list]; an access outside the array is undefined
      behaviour in C and is a [Fault] here, tagged with the array's name.
    - [malloc] is an oracle: the caller of the embedded function says
      whether each request succeeds and what the fresh block contains.
    - The retry loop of [populate] need not terminate; it carries fuel and
      answers [Timeout] when the fuel is spent.
    - The data model is LP64 with IEEE 754 binary64 [double]: [size_t] and
      pointers are 64 bits wide, floating-point expressions are evaluated
      in binary64 with rounding to nearest, ties to even. *)

From Stdlib Require Import ZArith Lia Bool List.
From Stdlib Require Import SpecFloat.
From stdpp Require Import base tactics option list.

Local Open Scope Z_scope.

(** ** Machine integers *)

Definition u64 (x : Z) : Z := x mod 2 ^ 64.
Definition u32 (x : Z) : Z := x mod 2 ^ 32.

(** A fingerprint cell of [W] bits ([uint8_t] or [uint16_t]). *)
Definition cell (W : Z) (x : Z) : Z := x mod 2 ^ W.

(** ** Hash kernel *)

Definition xor_murmur64 (h : Z) : Z :=
  let h := Z.lxor h (Z.shiftr h 33) in
  let h := u64 (h * 0xff51afd7ed558ccd) in
  let h := Z.lxor h (Z.shiftr h 33) in
  let h := u64 (h * 0xc4ceb9fe1a85ec53) in
  let h := Z.lxor h (Z.shiftr h 33) in
  h.

Definition xor_mix_split (key seed : Z) : Z :=
  xor_murmur64 (u64 (key + seed)).

(** [c] is an [unsigned int], so [-c] wraps modulo [2^32]. *)
Definition xor_rotl64 (n c : Z) : Z :=
  Z.lor (u64 (Z.shiftl n (Z.land c 63)))
        (Z.shiftr n (Z.land (u32 (- c)) 63)).

(** Both parameters are [uint32_t]: an argument of a wider type is
    converted at the call. *)
Definition xor_reduce (hash n : Z) : Z :=
  let hash := u32 hash in
  let n := u32 n in
  u32 (Z.shiftr (u64 (hash * n)) 32).

Definition xor_fingerprint (hash : Z) : Z :=
  Z.lxor hash (Z.shiftr hash 32).

(** Returns the random number and the updated seed. *)
Definition xor_rng_splitmix64 (seed : Z) : Z * Z :=
  let seed := u64 (seed + 0x9E3779B97F4A7C15) in
  let z := seed in
  let z := u64 (Z.lxor z (Z.shiftr z 30) * 0xBF58476D1CE4E5B9) in
  let z := u64 (Z.lxor z (Z.shiftr z 27) * 0x94D049BB133111EB) in
  (Z.lxor z (Z.shiftr z 31), seed).

(** ** The derivation in the words of the specification *)




(** Block length for [n] elements: [floor((32 + 1.23 n) / 3)]. *)
Definition spec_blockLength (n : Z) : Z := (3200 + 123 * n) / 300.

(** ** Filters *)

(** [xor8_s] and [xor16_s] have the same three fields and differ in the
    cell type only.  [fingerprints] is [None] for the null pointer and
    [Some cells] for a pointer to the block holding [cells]. *)
Record xor_t : Type := Build_xor_t {
  seed : Z;
  blockLength : Z;
  fingerprints : option (list Z)
}.

Definition xor8_t := xor_t.
Definition xor16_t := xor_t.

Definition set_seed (filter : xor_t) (s : Z) : xor_t :=
  Build_xor_t s (blockLength filter) (fingerprints filter).
Definition set_blockLength (filter : xor_t) (b : Z) : xor_t :=
  Build_xor_t (seed filter) b (fingerprints filter).
Definition set_fingerprints (filter : xor_t) (p : option (list Z)) : xor_t :=
  Build_xor_t (seed filter) (blockLength filter) p.

Module xor_xorset_s.
Record t : Type := Build { xormask : Z; count : Z }.
End xor_xorset_s.
Abbreviation xor_xorset_t := xor_xorset_s.t.

Module xor_hashes_s.
Record t : Type := Build { h : Z; h0 : Z; h1 : Z; h2 : Z }.
End xor_hashes_s.
Abbreviation xor_hashes_t := xor_hashes_s.t.

Module xor_h0h1h2_s.
Record t : Type := Build { h0 : Z; h1 : Z; h2 : Z }.
End xor_h0h1h2_s.
Abbreviation xor_h0h1h2_t := xor_h0h1h2_s.t.

Module xor_keyindex_s.
Record t : Type := Build { hash : Z; index : Z }.
End xor_keyindex_s.
Abbreviation xor_keyindex_t := xor_keyindex_s.t.

Definition xor8_get_h0_h1_h2 (k : Z) (filter : xor8_t) : xor_hashes_t :=
  let hash := xor_mix_split k (seed filter) in
  let r0 := u32 hash in
  let r1 := u32 (xor_rotl64 hash 21) in
  let r2 := u32 (xor_rotl64 hash 42) in
  xor_hashes_s.Build hash
    (xor_reduce r0 (blockLength filter))
    (u32 (u64 (xor_reduce r1 (blockLength filter) + blockLength filter)))
    (u32 (u64 (xor_reduce r2 (blockLength filter)
               + u64 (2 * blockLength filter)))).

Definition xor8_get_just_h0_h1_h2 (hash : Z) (filter : xor8_t)
  : xor_h0h1h2_t :=
  let r0 := u32 hash in
  let r1 := u32 (xor_rotl64 hash 21) in
  let r2 := u32 (xor_rotl64 hash 42) in
  xor_h0h1h2_s.Build
    (xor_reduce r0 (blockLength filter))
    (u32 (u64 (xor_reduce r1 (blockLength filter) + blockLength filter)))
    (u32 (u64 (xor_reduce r2 (blockLength filter)
               + u64 (2 * blockLength filter)))).

Definition xor16_get_h0_h1_h2 (k : Z) (filter : xor16_t) : xor_hashes_t :=
  let hash := xor_mix_split k (seed filter) in
  let r0 := u32 hash in
  let r1 := u32 (xor_rotl64 hash 21) in
  let r2 := u32 (xor_rotl64 hash 42) in
  xor_hashes_s.Build hash
    (xor_reduce r0 (blockLength filter))
    (u32 (u64 (xor_reduce r1 (blockLength filter) + blockLength filter)))
    (u32 (u64 (xor_reduce r2 (blockLength filter)
               + u64 (2 * blockLength filter)))).

Definition xor16_get_just_h0_h1_h2 (hash : Z) (filter : xor16_t)
  : xor_h0h1h2_t :=
  let r0 := u32 hash in
  let r1 := u32 (xor_rotl64 hash 21) in
  let r2 := u32 (xor_rotl64 hash 42) in
  xor_h0h1h2_s.Build
    (xor_reduce r0 (blockLength filter))
    (u32 (u64 (xor_reduce r1 (blockLength filter) + blockLength filter)))
    (u32 (u64 (xor_reduce r2 (blockLength filter)
               + u64 (2 * blockLength filter)))).

(** ** Results of code that can leave defined behaviour *)

Inductive array : Type :=
  A_sets | A_Q | A_stack | A_fingerprints.

Inductive undefined : Type :=
  | Out_of_bounds (arr : array)   (* access outside the bounds of [arr] *)
  | Float_to_integer.             (* value not representable in the target *)

Inductive res (A : Type) : Type :=
  | Ok (a : A)
  | Fault (u : undefined)
  | Timeout.               (* fuel spent *)
Arguments Ok {A} a.
Arguments Fault {A} u.
Arguments Timeout {A}.

Definition res_bind {A B} (r : res A) (k : A -> res B) : res B :=
  match r with
  | Ok a => k a
  | Fault u => Fault u
  | Timeout => Timeout
  end.

Notation "'do' x <- r ; k" := (res_bind r (fun x => k))
  (at level 10, x name, r at level 100, k at level 200).
Notation "'do' ' p <- r ; k" := (res_bind r (fun x => let 'p := x in k))
  (at level 10, p pattern, r at level 100, k at level 200).

(** [a[i]] and [a[i] = v] on an array of known extent. *)
Definition read {A} (arr : array) (a : list A) (i : Z) : res A :=
  match a !! Z.to_nat i with
  | Some x => Ok x
  | None => Fault (Out_of_bounds arr)
  end.

Definition write {A} (arr : array) (a : list A) (i : Z) (v : A)
  : res (list A) :=
  match a !! Z.to_nat i with
  | Some _ => Ok (<[Z.to_nat i := v]> a)
  | None => Fault (Out_of_bounds arr)
  end.

(** Reads and writes through the [fingerprints] pointer. *)
Definition load (p : option (list Z)) (i : Z) : res Z :=
  match p with
  | Some cells => read A_fingerprints cells i
  | None => Fault (Out_of_bounds A_fingerprints)
  end.

Definition store (p : option (list Z)) (i : Z) (v : Z)
  : res (option (list Z)) :=
  match p with
  | Some cells => do cells' <- write A_fingerprints cells i v; Ok (Some cells')
  | None => Fault (Out_of_bounds A_fingerprints)
  end.

(** ** Query *)

(** The filter is passed by pointer to [const]; the second component of
    the result is the filter after the call. *)
Definition xor8_contain (key : Z) (filter : xor8_t) : res (bool * xor8_t) :=
  let hash := xor_mix_split key (seed filter) in
  let f := cell 8 (xor_fingerprint hash) in
  let r0 := u32 hash in
  let r1 := u32 (xor_rotl64 hash 21) in
  let r2 := u32 (xor_rotl64 hash 42) in
  let h0 := xor_reduce r0 (blockLength filter) in
  let h1 := u32 (u64 (xor_reduce r1 (blockLength filter)
                      + blockLength filter)) in
  let h2 := u32 (u64 (xor_reduce r2 (blockLength filter)
                      + u64 (2 * blockLength filter))) in
  do c0 <- load (fingerprints filter) h0;
  do c1 <- load (fingerprints filter) h1;
  do c2 <- load (fingerprints filter) h2;
  let f := cell 8 (Z.lxor f (Z.lxor (Z.lxor c0 c1) c2)) in
  Ok (f =? 0, filter).

Definition xor16_contain (key : Z) (filter : xor16_t)
  : res (bool * xor16_t) :=
  let hash := xor_mix_split key (seed filter) in
  let f := cell 16 (xor_fingerprint hash) in
  let r0 := u32 hash in
  let r1 := u32 (xor_rotl64 hash 21) in
  let r2 := u32 (xor_rotl64 hash 42) in
  let h0 := xor_reduce r0 (blockLength filter) in
  let h1 := u32 (u64 (xor_reduce r1 (blockLength filter)
                      + blockLength filter)) in
  let h2 := u32 (u64 (xor_reduce r2 (blockLength filter)
                      + u64 (2 * blockLength filter))) in
  do c0 <- load (fingerprints filter) h0;
  do c1 <- load (fingerprints filter) h1;
  do c2 <- load (fingerprints filter) h2;
  let f := cell 16 (Z.lxor f (Z.lxor (Z.lxor c0 c1) c2)) in
  Ok (f =? 0, filter).

(** ** Allocation *)

(** *** [double] arithmetic *)

Definition double_of_Z (n : Z) : spec_float :=
  binary_normalize 53 1024 n 0 false.
Definition double_mul : spec_float -> spec_float -> spec_float :=
  SFmul 53 1024.
Definition double_add : spec_float -> spec_float -> spec_float :=
  SFadd 53 1024.

(** The literal [1.23]: the [double] nearest to 123/100. *)
Definition double_1_23 : spec_float :=
  Eval vm_compute in SFdiv 53 1024 (double_of_Z 123) (double_of_Z 100).

(** Conversion of a [double] to [size_t] truncates toward zero; it is
    undefined when the truncated value is not a [size_t]. *)
Definition size_t_of_double (x : spec_float) : res Z :=
  match x with
  | S754_zero _ => Ok 0
  | S754_finite s m e =>
      let v := if 0 <=? e then Z.pos m * 2 ^ e else Z.pos m / 2 ^ (- e) in
      if s then (if v =? 0 then Ok 0 else Fault Float_to_integer)
      else if v <? 2 ^ 64 then Ok v else Fault Float_to_integer
  | _ => Fault Float_to_integer
  end.

(** [32 + 1.23 * size], converted to [size_t]. *)
Definition capacity_for (size : Z) : res Z :=
  size_t_of_double
    (double_add (double_of_Z 32) (double_mul double_1_23 (double_of_Z size))).

(** *** [malloc] *)

(** [malloc] answers [None] (the null pointer) or a block whose cells hold
    whatever was in memory: [garbage i] is what cell [i] happens to hold. *)
Definition malloc_oracle := option (nat -> Z).

Definition sizeof_uint8_t : Z := 1.
Definition sizeof_uint16_t : Z := 2.
(** Two [uint64_t] fields and a pointer. *)
Definition sizeof_xor8_t : Z := 24.
Definition sizeof_xor16_t : Z := 24.

(** A block of [bytes] bytes seen as an array of [W]-bit cells. *)
Definition malloc_cells (W : Z) (m : malloc_oracle) (bytes : Z)
  : option (list Z) :=
  match m with
  | Some garbage =>
      Some (map (fun i => cell W (garbage i))
                (seq 0 (Z.to_nat (bytes / (W / 8)))))
  | None => None
  end.

(** [size] is a [uint32_t]. *)
Definition xor8_allocate (m : malloc_oracle) (size : Z) (filter : xor8_t)
  : res (bool * xor8_t) :=
  do capacity <- capacity_for size;
  let capacity := u64 (capacity / 3 * 3) in
  let filter :=
    set_fingerprints filter
      (malloc_cells 8 m (u64 (capacity * sizeof_uint8_t))) in
  match fingerprints filter with
  | Some _ => Ok (true, set_blockLength filter (capacity / 3))
  | None => Ok (false, filter)
  end.

(** [size] is a [size_t]. *)
Definition xor16_allocate (m : malloc_oracle) (size : Z) (filter : xor16_t)
  : res (bool * xor16_t) :=
  do capacity <- capacity_for size;
  let filter := set_blockLength filter (capacity / 3) in
  let capacity := u64 (capacity / 3 * 3) in
  let filter :=
    set_fingerprints filter
      (malloc_cells 16 m (u64 (capacity * sizeof_uint16_t))) in
  match fingerprints filter with
  | Some _ => Ok (true, set_blockLength filter (capacity / 3))
  | None => Ok (false, filter)
  end.

Definition xor8_size_in_bytes (filter : xor8_t) : Z :=
  u64 (u64 (u64 (3 * blockLength filter) * sizeof_uint8_t) + sizeof_xor8_t).

Definition xor16_size_in_bytes (filter : xor16_t) : Z :=
  u64 (u64 (u64 (3 * blockLength filter) * sizeof_uint16_t) + sizeof_xor16_t).

Definition xor8_free (filter : xor8_t) : xor8_t :=
  set_blockLength (set_fingerprints filter None) 0.

Definition xor16_free (filter : xor16_t) : xor16_t :=
  set_blockLength (set_fingerprints filter None) 0.

(** ** Construction *)

(** *** Scratch memory *)

(** The three scratch blocks of [populate].  The heap records which of
    them are live. *)
Inductive scratch : Type := S_sets | S_Q | S_stack.

Definition scratch_eqb (a b : scratch) : bool :=
  match a, b with
  | S_sets, S_sets | S_Q, S_Q | S_stack, S_stack => true
  | _, _ => false
  end.

Definition heap := list scratch.

Definition malloc (ok : bool) (b : scratch) (live : heap)
  : option scratch * heap :=
  if ok then (Some b, b :: live) else (None, live).

(** [free(NULL)] does nothing. *)
Definition free (p : option scratch) (live : heap) : heap :=
  match p with
  | Some b => List.filter (fun x => negb (scratch_eqb b x)) live
  | None => live
  end.

Definition sizeof_xor_xorset_t : Z := 16.
Definition sizeof_size_t : Z := 8.
Definition sizeof_xor_keyindex_t : Z := 16.

(** Number of whole elements in a block obtained by
    [malloc(n * sizeof_elt)], the product being a [size_t]. *)
Definition extent (n sizeof_elt : Z) : Z := u64 (n * sizeof_elt) / sizeof_elt.

(** [Q] and [stack] are flat buffers with a size cursor that are written
    before they are read.  Each is held as the list of its entries below
    the cursor, the most recent first; [push] is [buf[cursor++] = v] and
    leaves the block when the cursor is at its extent. *)
Definition push {A} (arr : array) (capacity : Z) (buf : list A) (v : A)
  : res (list A) :=
  if Z.of_nat (length buf) <? capacity then Ok (v :: buf)
  else Fault (Out_of_bounds arr).

Section Populate.
(** Cell width and the two index derivations of the width variant. *)
Variable W : Z.
Variable get_h0_h1_h2 : Z -> xor_t -> xor_hashes_t.
Variable get_just_h0_h1_h2 : Z -> xor_t -> xor_h0h1h2_t.

(** [sets[i].xormask ^= hash; sets[i].count++;] *)
Definition xorset_add (sets : list xor_xorset_t) (i hash : Z)
  : res (list xor_xorset_t) :=
  do s <- read A_sets sets i;
  write A_sets sets i
    (xor_xorset_s.Build (Z.lxor (xor_xorset_s.xormask s) hash)
                        (u64 (xor_xorset_s.count s + 1))).

(** [sets[i].xormask ^= hash; sets[i].count--;] *)
Definition xorset_remove (sets : list xor_xorset_t) (i hash : Z)
  : res (list xor_xorset_t) :=
  do s <- read A_sets sets i;
  write A_sets sets i
    (xor_xorset_s.Build (Z.lxor (xor_xorset_s.xormask s) hash)
                        (u64 (xor_xorset_s.count s - 1))).

(** The loop over the keys. *)
Fixpoint add_keys (filter : xor_t) (keys : list Z)
    (sets : list xor_xorset_t) : res (list xor_xorset_t) :=
  match keys with
  | [] => Ok sets
  | key :: keys' =>
      let hs := get_h0_h1_h2 key filter in
      do sets <- xorset_add sets (xor_hashes_s.h0 hs) (xor_hashes_s.h hs);
      do sets <- xorset_add sets (xor_hashes_s.h1 hs) (xor_hashes_s.h hs);
      do sets <- xorset_add sets (xor_hashes_s.h2 hs) (xor_hashes_s.h hs);
      add_keys filter keys' sets
  end.

(** [if (sets[i].count == 1) Q[Qsize++] = i;] *)
Definition enqueue_if_single (Qcap : Z) (sets : list xor_xorset_t)
    (Q : list Z) (i : Z) : res (list Z) :=
  do s <- read A_sets sets i;
  if xor_xorset_s.count s =? 1 then push A_Q Qcap Q i else Ok Q.

(** The scan for counts of one: [n] iterations are left, the next one
    looks at [i]. *)
Fixpoint scan (n : nat) (i : Z) (Qcap : Z) (sets : list xor_xorset_t)
    (Q : list Z) : res (list Z) :=
  match n with
  | O => Ok Q
  | S n' =>
      do Q <- enqueue_if_single Qcap sets Q i;
      scan n' (i + 1) Qcap sets Q
  end.

(** The peeling loop [while (Qsize > 0)].  [gas] bounds the number of
    iterations; [peel_gas] below is enough for every run. *)
Fixpoint peel (gas : nat) (filter : xor_t) (Qcap stackcap : Z)
    (sets : list xor_xorset_t) (Q : list Z) (stack : list xor_keyindex_t)
  : res (list xor_xorset_t * list xor_keyindex_t) :=
  match Q with
  | [] => Ok (sets, stack)
  | index :: Q =>
      match gas with
      | O => Timeout
      | S gas' =>
          do s <- read A_sets sets index;
          if xor_xorset_s.count s =? 0
          then peel gas' filter Qcap stackcap sets Q stack
          else
            let hash := xor_xorset_s.xormask s in
            do stack <- push A_stack stackcap stack
                             (xor_keyindex_s.Build hash index);
            let hashes := get_just_h0_h1_h2 hash filter in
            do sets <- xorset_remove sets (xor_h0h1h2_s.h0 hashes) hash;
            do sets <- xorset_remove sets (xor_h0h1h2_s.h1 hashes) hash;
            do sets <- xorset_remove sets (xor_h0h1h2_s.h2 hashes) hash;
            do Q <- enqueue_if_single Qcap sets Q (xor_h0h1h2_s.h0 hashes);
            do Q <- enqueue_if_single Qcap sets Q (xor_h0h1h2_s.h1 hashes);
            do Q <- enqueue_if_single Qcap sets Q (xor_h0h1h2_s.h2 hashes);
            peel gas' filter Qcap stackcap sets Q stack
      end
  end.

(** Every iteration pops [Q]; one that records a key also takes one of
    the [stackcap] places of [stack] and pushes at most three indices. *)
Definition peel_gas (stackcap : Z) (Q : list Z) : nat :=
  (3 * Z.to_nat stackcap + length Q)%nat.

(** One attempt with the seed of [filter]: the stack it ends with. *)
Definition attempt (keys : list Z) (filter : xor_t) (arrayLength : Z)
  : res (list xor_keyindex_t) :=
  let Qcap := extent arrayLength sizeof_size_t in
  let stackcap := extent (Z.of_nat (length keys)) sizeof_xor_keyindex_t in
  let sets :=
    replicate (Z.to_nat (extent arrayLength sizeof_xor_xorset_t))
              (xor_xorset_s.Build 0 0) in
  do sets <- add_keys filter keys sets;
  do Q <- scan (Z.to_nat arrayLength) 0 Qcap sets [];
  do '(_, stack) <- peel (peel_gas stackcap Q) filter Qcap stackcap
                        sets Q [];
  Ok stack.

(** The retry loop [while (true)]: [fuel] attempts are left. *)
Fixpoint retry (fuel : nat) (keys : list Z) (arrayLength : Z)
    (rng_counter : Z) (filter : xor_t)
  : res (xor_t * list xor_keyindex_t) :=
  match fuel with
  | O => Timeout
  | S fuel' =>
      do stack <- attempt keys filter arrayLength;
      if Z.of_nat (length stack) =? Z.of_nat (length keys)
      then Ok (filter, stack)
      else
        let '(r, rng_counter) := xor_rng_splitmix64 rng_counter in
        retry fuel' keys arrayLength rng_counter (set_seed filter r)
  end.

(** The assignment loop, from the top of [stack] down. *)
Fixpoint assign (filter : xor_t) (stack : list xor_keyindex_t)
    (p : option (list Z)) : res (option (list Z)) :=
  match stack with
  | [] => Ok p
  | ki :: stack' =>
      let hashes := get_just_h0_h1_h2 (xor_keyindex_s.hash ki) filter in
      do p <- store p (xor_keyindex_s.index ki) 0;
      do c0 <- load p (xor_h0h1h2_s.h0 hashes);
      do c1 <- load p (xor_h0h1h2_s.h1 hashes);
      do c2 <- load p (xor_h0h1h2_s.h2 hashes);
      do p <- store p (xor_keyindex_s.index ki)
                (cell W (Z.lxor (Z.lxor (Z.lxor
                   (xor_fingerprint (xor_keyindex_s.hash ki)) c0) c1) c2));
      assign filter stack' p
  end.

(** [size] is the length of [keys].  [ok] tells which scratch requests
    succeed.  The result is the returned boolean, the filter after the
    call and the scratch blocks still live. *)
Definition populate (ok : scratch -> bool) (fuel : nat) (keys : list Z)
    (filter : xor_t) : res (bool * xor_t * heap) :=
  let rng_counter := 1 in
  let '(r, rng_counter) := xor_rng_splitmix64 rng_counter in
  let filter := set_seed filter r in
  let arrayLength := u64 (blockLength filter * 3) in
  let '(sets, live) := malloc (ok S_sets) S_sets [] in
  let '(Q, live) := malloc (ok S_Q) S_Q live in
  let '(stack, live) := malloc (ok S_stack) S_stack live in
  match sets, Q, stack with
  | Some _, Some _, Some _ =>
      do '(filter, entries) <- retry fuel keys arrayLength rng_counter
                                     filter;
      do p <- assign filter entries (fingerprints filter);
      let filter := set_fingerprints filter p in
      let live := free sets live in
      let live := free Q live in
      let live := free stack live in
      Ok (true, filter, live)
  | _, _, _ =>
      let live := free sets live in
      let live := free Q live in
      let live := free stack live in
      Ok (false, filter, live)
  end.
End Populate.

Definition xor8_populate :=
  populate 8 xor8_get_h0_h1_h2 xor8_get_just_h0_h1_h2.

Definition xor16_populate :=
  populate 16 xor16_get_h0_h1_h2 xor16_get_just_h0_h1_h2.

(** ** Predicates of the statements *)

(** Every cell of the array holds a [W]-bit value. *)
Definition cells_wf (W : Z) (cells : list Z) : Prop :=
  Forall (fun c => 0 <= c < 2 ^ W) cells.

(** The query at cell width [W], in terms of the index derivation;
    [xor8_contain] and [xor16_contain] are its instances at 8 and 16. *)
Definition contain (W : Z) (key : Z) (filter : xor_t) : res (bool * xor_t) :=
  let hs := xor8_get_h0_h1_h2 key filter in
  do c0 <- load (fingerprints filter) (xor_hashes_s.h0 hs);
  do c1 <- load (fingerprints filter) (xor_hashes_s.h1 hs);
  do c2 <- load (fingerprints filter) (xor_hashes_s.h2 hs);
  let f := cell W (Z.lxor (cell W (xor_fingerprint (xor_hashes_s.h hs)))
                          (Z.lxor (Z.lxor c0 c1) c2)) in
  Ok (f =? 0, filter).

(** *** Accounting of the peeling phase *)

(** The index triple of a hash, and the hash of a key, under the seed and
    the block length of [filter]. *)
Definition slots_of (get_just : Z -> xor_t -> xor_h0h1h2_t) (filter : xor_t)
  : Z -> xor_h0h1h2_t :=
  fun hash => get_just hash filter.

Definition hash_under (get : Z -> xor_t -> xor_hashes_t) (filter : xor_t)
  (k : Z) : Z :=
  xor_hashes_s.h (get k filter).

Section Accounting.
(** The index triple of a hash under the filter of the attempt. *)
Variable slots : Z -> xor_h0h1h2_t.

(** What an update at index [i] adds to the count and to the mask of
    slot [s]. *)
Definition occ1 (i : Z) (s : nat) : Z :=
  if Nat.eqb (Z.to_nat i) s then 1 else 0.
Definition msk1 (i : Z) (s : nat) (hash : Z) : Z :=
  if Nat.eqb (Z.to_nat i) s then hash else 0.

(** How often slot [s] occurs among the three indices of [hash], and
    what the three updates for [hash] XOR into its mask. *)
Definition occ (s : nat) (hash : Z) : Z :=
  occ1 (xor_h0h1h2_s.h0 (slots hash)) s
  + occ1 (xor_h0h1h2_s.h1 (slots hash)) s
  + occ1 (xor_h0h1h2_s.h2 (slots hash)) s.
Definition msk (s : nat) (hash : Z) : Z :=
  Z.lxor (Z.lxor (msk1 (xor_h0h1h2_s.h0 (slots hash)) s hash)
                 (msk1 (xor_h0h1h2_s.h1 (slots hash)) s hash))
         (msk1 (xor_h0h1h2_s.h2 (slots hash)) s hash).

(** Count and mask of slot [s] for the hashes [rem] not yet peeled. *)
Fixpoint CNT (s : nat) (rem : list Z) : Z :=
  match rem with
  | [] => 0
  | hash :: rem' => occ s hash + CNT s rem'
  end.
Fixpoint MSK (s : nat) (rem : list Z) : Z :=
  match rem with
  | [] => 0
  | hash :: rem' => Z.lxor (msk s hash) (MSK s rem')
  end.

(** [sets] holds, slot by slot, the count [c] (as a [uint64_t]) and the
    mask [m]. *)
Definition agree (c m : nat -> Z) (sets : list xor_xorset_t) : Prop :=
  forall s x, sets !! s = Some x ->
    xor_xorset_s.count x = u64 (c s) /\ xor_xorset_s.xormask x = m s.

Definition sets_inv (rem : list Z) (sets : list xor_xorset_t) : Prop :=
  agree (fun s => CNT s rem) (fun s => MSK s rem) sets.

(** A queued slot has at most one hash left. *)
Definition queue_inv (rem : list Z) (Q : list Z) : Prop :=
  forall i, In i Q -> CNT (Z.to_nat i) rem <= 1.

(** [stack], most recent entry first: each entry's slot occurs once
    among the indices of its own hash and never among those of the
    hashes peeled after it ([later] and the entries above it). *)
Fixpoint ordered (later : list Z) (stack : list xor_keyindex_t) : Prop :=
  match stack with
  | [] => True
  | ki :: stack' =>
      occ (Z.to_nat (xor_keyindex_s.index ki)) (xor_keyindex_s.hash ki) = 1
      /\ (forall hash, In hash later ->
            occ (Z.to_nat (xor_keyindex_s.index ki)) hash = 0)
      /\ ordered (xor_keyindex_s.hash ki :: later) stack'
  end.

(** The cells at the three indices of [hash] XOR to its fingerprint. *)
Definition solved (W : Z) (p : option (list Z)) (hash : Z) : Prop :=
  exists cells c0 c1 c2,
    p = Some cells /\
    cells !! Z.to_nat (xor_h0h1h2_s.h0 (slots hash)) = Some c0 /\
    cells !! Z.to_nat (xor_h0h1h2_s.h1 (slots hash)) = Some c1 /\
    cells !! Z.to_nat (xor_h0h1h2_s.h2 (slots hash)) = Some c2 /\
    cell W (xor_fingerprint hash) = cell W (Z.lxor (Z.lxor c0 c1) c2).
End Accounting.

(** A result other than an access outside the fingerprint array. *)
Definition not_fp {A} (r : res A) : Prop :=
  r <> Fault (Out_of_bounds A_fingerprints).

(** An index into an array of [B] elements; every index of a hash is one. *)
Definition below (B : Z) (i : Z) : Prop := 0 <= i < B.

Definition indices_below (B : Z) (slots : Z -> xor_h0h1h2_t) : Prop :=
  forall hash,
    below B (xor_h0h1h2_s.h0 (slots hash)) /\
    below B (xor_h0h1h2_s.h1 (slots hash)) /\
    below B (xor_h0h1h2_s.h2 (slots hash)).

(** *** [double] rounding *)

(** The mantissa [m] shifted right by [s >= 1] bits and rounded to
    nearest, ties to even. *)
Definition rne (m s : Z) : Z :=
  round_nearest_even (m / 2 ^ s)
    (loc_of_shr_record
       (Build_shr_record (m / 2 ^ s) (Z.testbit m (s - 1))
                         (negb (m mod 2 ^ (s - 1) =? 0)))).

(** The finite positive [double] obtained by rounding [m * 2^e], for a
    mantissa [m] of [53 + s] bits. *)
Definition round53 (m e s : Z) : spec_float :=
  if rne m s <? 2 ^ 53 then S754_finite false (Z.to_pos (rne m s)) (e + s)
  else S754_finite false (Z.to_pos (2 ^ 52)) (e + s + 1).

(** ** Concrete inputs *)

Definition all_ok : scratch -> bool := fun _ => true.
Definition no_stack : scratch -> bool :=
  fun b => negb (scratch_eqb b S_stack).

Definition keys_1_10 : list Z := [1; 2; 3; 4; 5; 6; 7; 8; 9; 10].

(** What [malloc] may find in memory. *)
Definition garbage_a (i : nat) : Z := Z.of_nat i * 77 + 5.
Definition garbage_b (i : nat) : Z := 1.
Definition zeroed (i : nat) : Z := 0.

Definition unallocated : xor_t := Build_xor_t 0 0 None.

(** The filter after [allocate(size)] on [unallocated], when it returns. *)
Definition allocated (r : res (bool * xor_t)) : xor_t :=
  match r with
  | Ok (_, filter) => filter
  | _ => unallocated
  end.

Definition xor8_10_a : xor8_t :=
  Eval vm_compute in allocated (xor8_allocate (Some garbage_a) 10 unallocated).
Definition xor8_10_b : xor8_t :=
  Eval vm_compute in allocated (xor8_allocate (Some garbage_b) 10 unallocated).
Definition xor8_0_b : xor8_t :=
  Eval vm_compute in allocated (xor8_allocate (Some garbage_b) 0 unallocated).
Definition xor8_0_zeroed : xor8_t :=
  Eval vm_compute in allocated (xor8_allocate (Some zeroed) 0 unallocated).

(** The filter after [populate], when it returns. *)
Definition populated (r : res (bool * xor_t * heap)) : xor_t :=
  match r with
  | Ok (_, filter, _) => filter
  | _ => unallocated
  end.

Definition xor8_10_a_populated : xor8_t :=
  Eval vm_compute in populated (xor8_populate all_ok 4 keys_1_10 xor8_10_a).
Definition xor8_10_b_populated : xor8_t :=
  Eval vm_compute in populated (xor8_populate all_ok 4 keys_1_10 xor8_10_b).


(** ** The sequence of seeds *)

(** The value returned by the [n]-th further call of
    [xor_rng_splitmix64] on a counter that holds [rng_counter]
    ([n = 0] is the next call). *)
Fixpoint nth_random (n : nat) (rng_counter : Z) : Z :=
  match n with
  | O => fst (xor_rng_splitmix64 rng_counter)
  | S n' => nth_random n' (snd (xor_rng_splitmix64 rng_counter))
  end.

(** The seed of the [i]-th attempt of a retry loop that starts with the
    seed [s0] and the counter [rng_counter]. *)
Definition tried (s0 rng_counter : Z) (i : nat) : Z :=
  match i with
  | O => s0
  | S i' => nth_random i' rng_counter
  end.

(** Whether the attempt on [keys] under the seed [s] records every key. *)
Definition peels (get : Z -> xor_t -> xor_hashes_t)
    (get_just : Z -> xor_t -> xor_h0h1h2_t)
    (keys : list Z) (filter : xor_t) (s : Z) : bool :=
  match attempt get get_just keys (set_seed filter s)
                (u64 (blockLength filter * 3)) with
  | Ok stack => Z.of_nat (length stack) =? Z.of_nat (length keys)
  | _ => false
  end.

(** ** Further concrete inputs *)

(** A 16-bit array for block length 14 and the 8-bit array of its low
    bytes. *)
Definition xor16_14_cells : list Z :=
  Eval vm_compute in map (fun i => Z.of_nat i * 1201 + 17) (seq 0 42).
Definition xor16_14 : xor16_t := Build_xor_t 0 14 (Some xor16_14_cells).
Definition xor8_14_low : xor8_t :=
  Build_xor_t 0 14 (Some (map (cell 8) xor16_14_cells)).

(** The cells of the filter allocated for ten elements, before and after
    its construction from the keys 1..10. *)
Definition cells_of (filter : xor_t) : list Z :=
  match fingerprints filter with
  | Some cells => cells
  | None => []
  end.
Definition xor8_10_a_cells : list Z :=
  Eval vm_compute in cells_of xor8_10_a.
Definition xor8_10_a_cells_populated : list Z :=
  Eval vm_compute in cells_of xor8_10_a_populated.
(** * Properties *)

(** ** Tactics *)

(** Closed comparisons of integers, by evaluation. *)
Ltac by_eval :=
  vm_compute; first [reflexivity | let Hc := fresh in intros Hc; discriminate Hc].

(** Equalities between XOR combinations, bit by bit. *)
Ltac lxor_bits :=
  apply Z.bits_inj'; intros ?n ?Hn; rewrite !Z.lxor_spec;
  repeat match goal with
         | |- context [Z.testbit ?a ?n] => destruct (Z.testbit a n) eqn:?
         end;
  reflexivity.

(** Equalities between [W]-bit truncations of XOR combinations. *)
Ltac cell_bits W :=
  unfold cell; apply Z.bits_inj'; intros ?n ?Hn;
  repeat (rewrite ?Z.testbit_mod_pow2, ?Z.lxor_spec, ?Z.bits_0 by lia);
  destruct (_ <? W);
  repeat match goal with
         | |- context [Z.testbit ?a ?n] => destruct (Z.testbit a n) eqn:?
         end;
  reflexivity.

(** Inversion of a successful [do]. *)
Ltac bind_inv H :=
  match type of H with
  | res_bind ?r _ = Ok _ =>
      let E := fresh "E" in
      destruct r eqn:E; cbn [res_bind] in H; [|discriminate H..]
  end.

(** A step that returns lets the loop go on. *)
Tactic Notation "step_returns" constr(L) "as" ident(E) :=
  match goal with
  | |- res_bind ?r _ <> Timeout =>
      destruct r eqn:E; cbn [res_bind];
      [|discriminate|exfalso; revert E; apply L]
  end.

Tactic Notation "bind_ok" hyp(H) "as" ident(E) :=
  match type of H with
  | res_bind ?r _ = Ok _ =>
      destruct r eqn:E; cbn [res_bind] in H; [|discriminate H..]
  end.


(** ** Machine integers *)

Lemma u64_range x : 0 <= u64 x < 2 ^ 64.
Proof. unfold u64. apply Z.mod_pos_bound. lia. Qed.

Lemma u32_range x : 0 <= u32 x < 2 ^ 32.
Proof. unfold u32. apply Z.mod_pos_bound. lia. Qed.

Lemma u64_small x : 0 <= x < 2 ^ 64 -> u64 x = x.
Proof. intros. unfold u64. apply Z.mod_small. lia. Qed.

Lemma u32_small x : 0 <= x < 2 ^ 32 -> u32 x = x.
Proof. intros. unfold u32. apply Z.mod_small. lia. Qed.

Lemma u32_u64 x : u32 (u64 x) = u32 x.
Proof.
  unfold u32, u64. apply Z.mod_mod_divide.
  exists (2 ^ 32). reflexivity.
Qed.

Lemma u32_le x : 0 <= x -> u32 x <= x.
Proof. intros. unfold u32. apply Z.mod_le; lia. Qed.

(** ** Hash kernel *)

Lemma xor_reduce_div r n :
  0 <= r < 2 ^ 32 -> 0 <= n < 2 ^ 32 -> xor_reduce r n = r * n / 2 ^ 32.
Proof.
  intros Hr Hn. unfold xor_reduce.
  rewrite (u32_small r), (u32_small n) by lia.
  assert (0 <= r * n < 2 ^ 64) by nia.
  rewrite u64_small by lia.
  rewrite Z.shiftr_div_pow2 by lia.
  apply u32_small. split.
  - apply Z.div_pos; lia.
  - apply Z.div_lt_upper_bound; lia.
Qed.

Lemma xor_reduce_range r n : 0 <= xor_reduce r n < 2 ^ 32.
Proof. apply u32_range. Qed.

(** Lemire's reduction maps into [[0, n)] when [n] is a positive 32-bit
    value. *)
Lemma xor_reduce_lt r n :
  0 < n < 2 ^ 32 -> 0 <= xor_reduce r n < n.
Proof.
  intros Hn.
  assert (xor_reduce r n = xor_reduce (u32 r) n) as ->.
  { unfold xor_reduce. cbv zeta.
    rewrite (u32_small (u32 r)) by apply u32_range. reflexivity. }
  pose proof (u32_range r) as Hr.
  rewrite xor_reduce_div by lia.
  split.
  - apply Z.div_pos; nia.
  - apply Z.div_lt_upper_bound; nia.
Qed.

(** Whatever the block length, a derived index is below [3 * blockLength]
    as soon as the block length is positive. *)
Lemma xor_reduce_below r n : 1 <= n -> 0 <= xor_reduce r n < n.
Proof.
  intros Hn. destruct (Z_lt_dec n (2 ^ 32)).
  - apply xor_reduce_lt. lia.
  - pose proof (xor_reduce_range r n). lia.
Qed.

Lemma index1_below r b :
  1 <= b -> 0 <= u32 (u64 (xor_reduce r b + b)) < 2 * b.
Proof.
  intros Hb. rewrite u32_u64.
  pose proof (xor_reduce_below r b Hb).
  pose proof (u32_range (xor_reduce r b + b)).
  pose proof (u32_le (xor_reduce r b + b)). lia.
Qed.

Lemma index2_below r b :
  1 <= b -> 0 <= u32 (u64 (xor_reduce r b + u64 (2 * b))) < 3 * b.
Proof.
  intros Hb. rewrite u32_u64.
  pose proof (xor_reduce_below r b Hb).
  pose proof (u32_range (xor_reduce r b + u64 (2 * b))).
  destruct (Z_lt_dec (2 * b) (2 ^ 64)).
  - rewrite u64_small in * by lia.
    pose proof (u32_le (xor_reduce r b + 2 * b)). lia.
  - lia.
Qed.

Lemma index1_exact r b :
  1 <= b -> 2 * b <= 2 ^ 32 ->
  u32 (u64 (xor_reduce r b + b)) = xor_reduce r b + b.
Proof.
  intros Hb Hs. rewrite u32_u64.
  pose proof (xor_reduce_below r b Hb). apply u32_small. lia.
Qed.

Lemma index2_exact r b :
  1 <= b -> 3 * b <= 2 ^ 32 ->
  u32 (u64 (xor_reduce r b + u64 (2 * b))) = xor_reduce r b + 2 * b.
Proof.
  intros Hb Hs. rewrite u32_u64.
  pose proof (xor_reduce_below r b Hb).
  rewrite (u64_small (2 * b)) by lia. apply u32_small. lia.
Qed.

(** The two entry points derive the same indices. *)
Lemma xor8_get_h0_h1_h2_just k filter :
  let hs := xor8_get_h0_h1_h2 k filter in
  let js := xor8_get_just_h0_h1_h2 (xor_hashes_s.h hs) filter in
  xor_hashes_s.h hs = xor_mix_split k (seed filter) /\
  xor_hashes_s.h0 hs = xor_h0h1h2_s.h0 js /\
  xor_hashes_s.h1 hs = xor_h0h1h2_s.h1 js /\
  xor_hashes_s.h2 hs = xor_h0h1h2_s.h2 js.
Proof.
  cbv [xor8_get_h0_h1_h2 xor8_get_just_h0_h1_h2
       xor16_get_h0_h1_h2 xor16_get_just_h0_h1_h2
       xor_hashes_s.h xor_hashes_s.h0 xor_hashes_s.h1 xor_hashes_s.h2
       xor_h0h1h2_s.h0 xor_h0h1h2_s.h1 xor_h0h1h2_s.h2].
  repeat apply conj; reflexivity.
Qed.

Lemma xor16_get_h0_h1_h2_just k filter :
  let hs := xor16_get_h0_h1_h2 k filter in
  let js := xor16_get_just_h0_h1_h2 (xor_hashes_s.h hs) filter in
  xor_hashes_s.h hs = xor_mix_split k (seed filter) /\
  xor_hashes_s.h0 hs = xor_h0h1h2_s.h0 js /\
  xor_hashes_s.h1 hs = xor_h0h1h2_s.h1 js /\
  xor_hashes_s.h2 hs = xor_h0h1h2_s.h2 js.
Proof.
  cbv [xor8_get_h0_h1_h2 xor8_get_just_h0_h1_h2
       xor16_get_h0_h1_h2 xor16_get_just_h0_h1_h2
       xor_hashes_s.h xor_hashes_s.h0 xor_hashes_s.h1 xor_hashes_s.h2
       xor_h0h1h2_s.h0 xor_h0h1h2_s.h1 xor_h0h1h2_s.h2].
  repeat apply conj; reflexivity.
Qed.

Lemma xor16_get_just_is_xor8 hash filter :
  xor16_get_just_h0_h1_h2 hash filter = xor8_get_just_h0_h1_h2 hash filter.
Proof. reflexivity. Qed.

Lemma xor16_get_is_xor8 k filter :
  xor16_get_h0_h1_h2 k filter = xor8_get_h0_h1_h2 k filter.
Proof. reflexivity. Qed.

(** The index triple depends on the filter through its block length only. *)
Lemma xor8_get_just_blockLength hash f g :
  blockLength f = blockLength g ->
  xor8_get_just_h0_h1_h2 hash f = xor8_get_just_h0_h1_h2 hash g.
Proof. intros E. unfold xor8_get_just_h0_h1_h2. rewrite E. reflexivity. Qed.

Lemma get_just_below hash filter :
  1 <= blockLength filter ->
  let js := xor8_get_just_h0_h1_h2 hash filter in
  0 <= xor_h0h1h2_s.h0 js < 3 * blockLength filter /\
  0 <= xor_h0h1h2_s.h1 js < 3 * blockLength filter /\
  0 <= xor_h0h1h2_s.h2 js < 3 * blockLength filter.
Proof.
  intros Hb.
  cbv [xor8_get_just_h0_h1_h2 xor_h0h1h2_s.h0 xor_h0h1h2_s.h1
       xor_h0h1h2_s.h2].
  pose proof (xor_reduce_below (u32 hash) _ Hb).
  pose proof (index1_below (u32 (xor_rotl64 hash 21)) _ Hb).
  pose proof (index2_below (u32 (xor_rotl64 hash 42)) _ Hb).
  lia.
Qed.

Lemma get_just_blocks hash filter :
  1 <= blockLength filter -> 3 * blockLength filter <= 2 ^ 32 ->
  let js := xor8_get_just_h0_h1_h2 hash filter in
  0 <= xor_h0h1h2_s.h0 js < blockLength filter /\
  blockLength filter <= xor_h0h1h2_s.h1 js < 2 * blockLength filter /\
  2 * blockLength filter <= xor_h0h1h2_s.h2 js < 3 * blockLength filter.
Proof.
  intros Hb Hs.
  cbv [xor8_get_just_h0_h1_h2 xor_h0h1h2_s.h0 xor_h0h1h2_s.h1
       xor_h0h1h2_s.h2].
  rewrite index1_exact, index2_exact by lia.
  pose proof (xor_reduce_below (u32 hash) _ Hb).
  pose proof (xor_reduce_below (u32 (xor_rotl64 hash 21)) _ Hb).
  pose proof (xor_reduce_below (u32 (xor_rotl64 hash 42)) _ Hb).
  lia.
Qed.

(** *** Bitwise facts *)

Lemma testbit_above n a i :
  0 <= n -> 0 <= a < 2 ^ n -> n <= i -> Z.testbit a i = false.
Proof.
  intros Hn Ha Hi. rewrite <- (Z.mod_small a (2 ^ n)) by lia.
  apply Z.mod_pow2_bits_high. lia.
Qed.

Lemma lxor_mod a b n :
  0 <= n -> Z.lxor a b mod 2 ^ n = Z.lxor (a mod 2 ^ n) (b mod 2 ^ n).
Proof.
  intros Hn. apply Z.bits_inj'. intros i Hi.
  rewrite Z.lxor_spec, !Z.testbit_mod_pow2, Z.lxor_spec by lia.
  destruct (i <? n); reflexivity.
Qed.

Lemma lxor_range n a b :
  0 <= n -> 0 <= a < 2 ^ n -> 0 <= b < 2 ^ n -> 0 <= Z.lxor a b < 2 ^ n.
Proof.
  intros Hn Ha Hb.
  assert (Z.lxor a b = Z.lxor a b mod 2 ^ n) as ->.
  { rewrite lxor_mod, !Z.mod_small by lia. reflexivity. }
  apply Z.mod_pos_bound. lia.
Qed.

Lemma shiftr_range n a k :
  0 <= k -> 0 <= a < 2 ^ n -> 0 <= Z.shiftr a k < 2 ^ n.
Proof.
  intros Hk Ha. rewrite Z.shiftr_div_pow2 by lia.
  assert (0 < 2 ^ k) by lia.
  split; [apply Z.div_pos; lia|].
  apply Z.le_lt_trans with a; [|lia].
  apply Z.div_le_upper_bound; nia.
Qed.










(** ** Query *)

Lemma cell_range W x : 0 <= W -> 0 <= cell W x < 2 ^ W.
Proof. intros. unfold cell. apply Z.mod_pos_bound. lia. Qed.

Lemma cell_small W x : 0 <= x < 2 ^ W -> cell W x = x.
Proof. intros. unfold cell. apply Z.mod_small. lia. Qed.

Lemma cell_lxor W a b :
  0 <= W -> cell W (Z.lxor a b) = Z.lxor (cell W a) (cell W b).
Proof. intros. unfold cell. apply lxor_mod. lia. Qed.

Lemma cell_cell W a : 0 <= W -> cell W (cell W a) = cell W a.
Proof. intros. unfold cell. apply Z.mod_mod. lia. Qed.

(** [f ^= x; return f == 0;] on [W]-bit values is the test [f == x]. *)
Lemma xor_test W f x :
  0 <= W -> 0 <= f < 2 ^ W -> 0 <= x < 2 ^ W ->
  (cell W (Z.lxor f x) =? 0) = (f =? x).
Proof.
  intros HW Hf Hx.
  rewrite cell_small by (apply lxor_range; lia).
  destruct (Z.eqb_spec f x) as [-> | Hne].
  - rewrite Z.lxor_nilpotent. reflexivity.
  - apply Z.eqb_neq. intros E. apply Hne. apply Z.lxor_eq. exact E.
Qed.

Lemma read_Some {A} arr (a : list A) i :
  0 <= i < Z.of_nat (length a) -> exists x, a !! Z.to_nat i = Some x /\ read arr a i = Ok x.
Proof.
  intros Hi. destruct (lookup_lt_is_Some_2 a (Z.to_nat i)) as [x Hx]; [lia|].
  exists x. split; [exact Hx|]. unfold read. rewrite Hx. reflexivity.
Qed.

(** The two width variants of the query are instances of [contain]. *)
Lemma xor8_contain_generic key filter :
  xor8_contain key filter = contain 8 key filter.
Proof.
  unfold xor8_contain, contain. unfold xor8_get_h0_h1_h2. cbv zeta.
  cbn [xor_hashes_s.h xor_hashes_s.h0 xor_hashes_s.h1 xor_hashes_s.h2].
  reflexivity.
Qed.

Lemma xor16_contain_generic key filter :
  xor16_contain key filter = contain 16 key filter.
Proof.
  unfold xor16_contain, contain. unfold xor8_get_h0_h1_h2. cbv zeta.
  cbn [xor_hashes_s.h xor_hashes_s.h0 xor_hashes_s.h1 xor_hashes_s.h2].
  reflexivity.
Qed.

Lemma contain_generic W key filter cells :
  0 <= W ->
  fingerprints filter = Some cells ->
  Z.of_nat (length cells) = 3 * blockLength filter ->
  1 <= blockLength filter ->
  cells_wf W cells ->
  forall c0 c1 c2,
    cells !! Z.to_nat (xor_hashes_s.h0 (xor8_get_h0_h1_h2 key filter))
      = Some c0 ->
    cells !! Z.to_nat (xor_hashes_s.h1 (xor8_get_h0_h1_h2 key filter))
      = Some c1 ->
    cells !! Z.to_nat (xor_hashes_s.h2 (xor8_get_h0_h1_h2 key filter))
      = Some c2 ->
    contain W key filter =
    Ok (cell W (xor_fingerprint (xor_mix_split key (seed filter)))
          =? Z.lxor (Z.lxor c0 c1) c2, filter).
Proof.
  intros HW Hp Hlen Hb Hwf c0 c1 c2 L0 L1 L2.
  unfold contain. cbv zeta.
  rewrite Hp. unfold load, read. rewrite L0, L1, L2. cbn [res_bind].
  pose proof (Forall_lookup_1 _ _ _ _ Hwf L0) as R0.
  pose proof (Forall_lookup_1 _ _ _ _ Hwf L1) as R1.
  pose proof (Forall_lookup_1 _ _ _ _ Hwf L2) as R2.
  destruct (xor8_get_h0_h1_h2_just key filter) as (-> & _).
  rewrite xor_test; [reflexivity|lia|apply cell_range; lia|].
  apply lxor_range; [lia| |exact R2]. apply lxor_range; [lia|exact R0|exact R1].
Qed.

(** C2: on a filter whose [fingerprints] points to [3 * blockLength]
    cells, [xor8_contain] (resp. [xor16_contain]) recomputes the hash and
    the three indices from the key and the seed, reads the three cells and
    returns exactly the comparison of the 8-bit (resp. 16-bit) fingerprint
    with their XOR; it never leaves defined behaviour and the filter after
    the call is the filter before it. *)
Theorem contain_is_xor_test key filter cells :
  fingerprints filter = Some cells ->
  Z.of_nat (length cells) = 3 * blockLength filter ->
  1 <= blockLength filter ->
  let hs := xor8_get_h0_h1_h2 key filter in
  let fp := xor_fingerprint (xor_mix_split key (seed filter)) in
  exists c0 c1 c2,
    cells !! Z.to_nat (xor_hashes_s.h0 hs) = Some c0 /\
    cells !! Z.to_nat (xor_hashes_s.h1 hs) = Some c1 /\
    cells !! Z.to_nat (xor_hashes_s.h2 hs) = Some c2 /\
    (cells_wf 8 cells ->
     xor8_contain key filter =
       Ok (cell 8 fp =? Z.lxor (Z.lxor c0 c1) c2, filter)) /\
    (cells_wf 16 cells ->
     xor16_contain key filter =
       Ok (cell 16 fp =? Z.lxor (Z.lxor c0 c1) c2, filter)).
Proof.
  intros Hp Hlen Hb hs fp.
  destruct (xor8_get_h0_h1_h2_just key filter) as (_ & E0 & E1 & E2).
  fold hs in E0, E1, E2.
  destruct (get_just_below (xor_hashes_s.h hs) filter Hb) as (B0 & B1 & B2).
  rewrite <- E0 in B0. rewrite <- E1 in B1. rewrite <- E2 in B2.
  destruct (read_Some A_fingerprints cells (xor_hashes_s.h0 hs))
    as (c0 & L0 & _); [lia|].
  destruct (read_Some A_fingerprints cells (xor_hashes_s.h1 hs))
    as (c1 & L1 & _); [lia|].
  destruct (read_Some A_fingerprints cells (xor_hashes_s.h2 hs))
    as (c2 & L2 & _); [lia|].
  exists c0, c1, c2. repeat (split; [assumption|]).
  split; intros Hwf.
  - rewrite xor8_contain_generic.
    apply (contain_generic 8 key filter cells); auto; lia.
  - rewrite xor16_contain_generic.
    apply (contain_generic 16 key filter cells); auto; lia.
Qed.

(** ** Construction: the peeling phase *)

Lemma u64_add_l a b : u64 (u64 a + b) = u64 (a + b).
Proof. unfold u64. apply Zplus_mod_idemp_l. Qed.

Lemma u64_sub_l a b : u64 (u64 a - b) = u64 (a - b).
Proof. unfold u64. apply Zminus_mod_idemp_l. Qed.

Lemma agree_ext c m c' m' sets :
  (forall s, c s = c' s) -> (forall s, m s = m' s) ->
  agree c m sets -> agree c' m' sets.
Proof.
  intros Hc Hm H s x Hx. destruct (H s x Hx) as [-> ->].
  rewrite Hc, Hm. auto.
Qed.

Lemma occ1_range i s : 0 <= occ1 i s <= 1.
Proof. unfold occ1. destruct (Nat.eqb _ _); lia. Qed.

Lemma xorset_add_agree c m sets i hash sets' :
  agree c m sets ->
  xorset_add sets i hash = Ok sets' ->
  length sets' = length sets /\
  agree (fun s => c s + occ1 i s) (fun s => Z.lxor (m s) (msk1 i s hash))
        sets'.
Proof.
  intros H. unfold xorset_add, read, write.
  destruct (sets !! Z.to_nat i) as [x0|] eqn:E0; cbn [res_bind];
    [|discriminate].
  intros [= <-]. split; [apply length_insert|].
  intros s x Hx. unfold occ1, msk1.
  destruct (Nat.eqb_spec (Z.to_nat i) s) as [<- | Hne].
  - rewrite list_lookup_insert_eq in Hx by (eapply lookup_lt_Some; eauto).
    injection Hx as <-. cbn.
    destruct (H _ _ E0) as [-> ->]. rewrite u64_add_l. auto.
  - rewrite list_lookup_insert_ne in Hx by assumption.
    destruct (H _ _ Hx) as [-> ->].
    rewrite Z.add_0_r, Z.lxor_0_r. auto.
Qed.

Lemma xorset_remove_agree c m sets i hash sets' :
  agree c m sets ->
  xorset_remove sets i hash = Ok sets' ->
  length sets' = length sets /\
  agree (fun s => c s - occ1 i s) (fun s => Z.lxor (m s) (msk1 i s hash))
        sets'.
Proof.
  intros H. unfold xorset_remove, read, write.
  destruct (sets !! Z.to_nat i) as [x0|] eqn:E0; cbn [res_bind];
    [|discriminate].
  intros [= <-]. split; [apply length_insert|].
  intros s x Hx. unfold occ1, msk1.
  destruct (Nat.eqb_spec (Z.to_nat i) s) as [<- | Hne].
  - rewrite list_lookup_insert_eq in Hx by (eapply lookup_lt_Some; eauto).
    injection Hx as <-. cbn.
    destruct (H _ _ E0) as [-> ->]. rewrite u64_sub_l. auto.
  - rewrite list_lookup_insert_ne in Hx by assumption.
    destruct (H _ _ Hx) as [-> ->].
    rewrite Z.sub_0_r, Z.lxor_0_r. auto.
Qed.

Section Peeling.
Variable slots : Z -> xor_h0h1h2_t.

Lemma occ_range s hash : 0 <= occ slots s hash <= 3.
Proof.
  unfold occ.
  pose proof (occ1_range (xor_h0h1h2_s.h0 (slots hash)) s).
  pose proof (occ1_range (xor_h0h1h2_s.h1 (slots hash)) s).
  pose proof (occ1_range (xor_h0h1h2_s.h2 (slots hash)) s).
  lia.
Qed.

Lemma CNT_range s rem :
  0 <= CNT slots s rem <= 3 * Z.of_nat (length rem).
Proof.
  induction rem as [|hash rem IH]; cbn [CNT length]; [lia|].
  pose proof (occ_range s hash). lia.
Qed.

Lemma CNT_app s l1 l2 :
  CNT slots s (l1 ++ l2) = CNT slots s l1 + CNT slots s l2.
Proof. induction l1 as [|a l1 IH]; cbn [CNT app]; lia. Qed.

Lemma MSK_app s l1 l2 :
  MSK slots s (l1 ++ l2) = Z.lxor (MSK slots s l1) (MSK slots s l2).
Proof.
  induction l1 as [|a l1 IH]; cbn [MSK app].
  - rewrite Z.lxor_0_l. reflexivity.
  - rewrite IH, Z.lxor_assoc. reflexivity.
Qed.

(** A hash that does not touch a slot leaves its mask alone; a hash
    that touches it once contributes itself. *)
Lemma msk_occ_0 s hash : occ slots s hash = 0 -> msk slots s hash = 0.
Proof.
  unfold occ, msk, occ1, msk1.
  destruct (Nat.eqb _ s), (Nat.eqb _ s), (Nat.eqb _ s);
    intros; try lia; reflexivity.
Qed.

Lemma msk_occ_1 s hash : occ slots s hash = 1 -> msk slots s hash = hash.
Proof.
  unfold occ, msk, occ1, msk1.
  destruct (Nat.eqb _ s), (Nat.eqb _ s), (Nat.eqb _ s);
    intros; try lia;
    rewrite ?Z.lxor_0_l, ?Z.lxor_0_r; reflexivity.
Qed.

Lemma CNT_0_all s rem :
  CNT slots s rem = 0 -> forall hash, In hash rem -> occ slots s hash = 0.
Proof.
  induction rem as [|a rem IH]; cbn [CNT]; intros H hash [].
  - subst. pose proof (occ_range s hash). pose proof (CNT_range s rem). lia.
  - apply IH; [|assumption].
    pose proof (occ_range s a). pose proof (CNT_range s rem). lia.
Qed.

Lemma CNT_0_MSK s rem : CNT slots s rem = 0 -> MSK slots s rem = 0.
Proof.
  induction rem as [|a rem IH]; cbn [CNT MSK]; intros H; [reflexivity|].
  pose proof (occ_range s a). pose proof (CNT_range s rem).
  rewrite msk_occ_0, IH by lia. reflexivity.
Qed.

(** The invariant that makes peeling work: a slot of count one holds
    the hash of the one key left in it. *)
Lemma CNT_1_unique s rem :
  CNT slots s rem = 1 ->
  exists rem1 hash rem2,
    rem = rem1 ++ hash :: rem2 /\
    occ slots s hash = 1 /\
    CNT slots s (rem1 ++ rem2) = 0 /\
    MSK slots s rem = hash.
Proof.
  induction rem as [|a rem IH]; cbn [CNT MSK]; intros H; [lia|].
  pose proof (occ_range s a). pose proof (CNT_range s rem).
  destruct (Z.eq_dec (occ slots s a) 1) as [E1 | N1].
  - exists [], a, rem. cbn [app].
    repeat split; [assumption|lia|].
    rewrite msk_occ_1, CNT_0_MSK by lia. apply Z.lxor_0_r.
  - destruct IH as (rem1 & hash & rem2 & -> & Ho & Hc & Hm); [lia|].
    exists (a :: rem1), hash, rem2. cbn [app CNT].
    repeat split; [assumption|lia|].
    rewrite msk_occ_0, Hm by lia. apply Z.lxor_0_l.
Qed.

Lemma CNT_remove s rem1 hash rem2 :
  CNT slots s (rem1 ++ rem2)
  = CNT slots s (rem1 ++ hash :: rem2) - occ slots s hash.
Proof. rewrite !CNT_app. cbn [CNT]. lia. Qed.

Lemma MSK_remove s rem1 hash rem2 :
  MSK slots s (rem1 ++ rem2)
  = Z.lxor (MSK slots s (rem1 ++ hash :: rem2)) (msk slots s hash).
Proof.
  rewrite !MSK_app. cbn [MSK].
  apply Z.bits_inj'. intros n Hn. rewrite !Z.lxor_spec.
  destruct (Z.testbit (MSK slots s rem1) n),
           (Z.testbit (MSK slots s rem2) n),
           (Z.testbit (msk slots s hash) n); reflexivity.
Qed.
End Peeling.

Lemma read_inv {A} arr (a : list A) i x :
  read arr a i = Ok x -> a !! Z.to_nat i = Some x.
Proof.
  unfold read. destruct (a !! Z.to_nat i); [|discriminate].
  intros [= ->]. reflexivity.
Qed.

Lemma push_inv {A} arr cap (buf : list A) v buf' :
  push arr cap buf v = Ok buf' ->
  buf' = v :: buf /\ Z.of_nat (length buf) < cap.
Proof.
  unfold push. destruct (Z.ltb_spec (Z.of_nat (length buf)) cap);
    [|discriminate].
  intros [= <-]. auto.
Qed.

Lemma load_inv p i c :
  load p i = Ok c -> exists cells, p = Some cells /\ cells !! Z.to_nat i = Some c.
Proof.
  unfold load. destruct p as [cells|]; [|discriminate].
  intros H. apply read_inv in H. eauto.
Qed.

Lemma store_inv p i v p' :
  store p i v = Ok p' ->
  exists cells,
    p = Some cells /\ (Z.to_nat i < length cells)%nat /\
    p' = Some (<[Z.to_nat i := v]> cells).
Proof.
  unfold store, write. destruct p as [cells|]; [|discriminate].
  destruct (cells !! Z.to_nat i) eqn:E; cbn [res_bind]; [|discriminate].
  intros [= <-]. exists cells. repeat split.
  eapply lookup_lt_Some; eauto.
Qed.

(** Writing [fp ^ a ^ b] (with the written cell read as 0) into one of
    three cells makes the three cells XOR to [fp]. *)
Lemma assign_cell_0 W fp a b :
  0 <= W ->
  cell W fp =
  cell W (Z.lxor (Z.lxor (cell W (Z.lxor (Z.lxor (Z.lxor fp 0) a) b)) a) b).
Proof. intros. cell_bits W. Qed.

Lemma assign_cell_1 W fp a b :
  0 <= W ->
  cell W fp =
  cell W (Z.lxor (Z.lxor a (cell W (Z.lxor (Z.lxor (Z.lxor fp a) 0) b))) b).
Proof. intros. cell_bits W. Qed.

Lemma assign_cell_2 W fp a b :
  0 <= W ->
  cell W fp =
  cell W (Z.lxor (Z.lxor a b) (cell W (Z.lxor (Z.lxor (Z.lxor fp a) b) 0))).
Proof. intros. cell_bits W. Qed.

Section PopulateCorrect.
Variable W : Z.
Variable get : Z -> xor_t -> xor_hashes_t.
Variable get_just : Z -> xor_t -> xor_h0h1h2_t.

(** The two entry points derive the same indices from a hash. *)
Hypothesis get_consistent : forall k f,
  xor_hashes_s.h0 (get k f)
    = xor_h0h1h2_s.h0 (get_just (xor_hashes_s.h (get k f)) f) /\
  xor_hashes_s.h1 (get k f)
    = xor_h0h1h2_s.h1 (get_just (xor_hashes_s.h (get k f)) f) /\
  xor_hashes_s.h2 (get k f)
    = xor_h0h1h2_s.h2 (get_just (xor_hashes_s.h (get k f)) f).

Section Attempt.
Variable filter : xor_t.
Local Abbreviation slots := (slots_of get_just filter).
Local Abbreviation hash_of := (hash_under get filter).

Lemma add_keys_inv keys : forall rem sets sets',
  sets_inv slots rem sets ->
  add_keys get filter keys sets = Ok sets' ->
  length sets' = length sets /\
  sets_inv slots (rev (map hash_of keys) ++ rem) sets'.
Proof.
  induction keys as [|k keys IH]; intros rem sets sets' Hinv H;
    cbn [add_keys] in H.
  - injection H as <-. auto.
  - destruct (get_consistent k filter) as (C0 & C1 & C2).
    rewrite C0, C1, C2 in H.
    bind_inv H. bind_inv H. bind_inv H.
    destruct (xorset_add_agree _ _ _ _ _ _ Hinv E) as [L1 A1].
    destruct (xorset_add_agree _ _ _ _ _ _ A1 E0) as [L2 A2].
    destruct (xorset_add_agree _ _ _ _ _ _ A2 E1) as [L3 A3].
    assert (sets_inv slots (hash_of k :: rem) a1) as I3.
    { intros s x Hx.
      destruct (A3 s x Hx) as [-> ->]. cbn [CNT MSK].
      unfold occ, msk, slots_of, hash_under.
      split; [f_equal; lia|lxor_bits]. }
    destruct (IH (hash_of k :: rem) _ _ I3 H) as [L4 I4].
    split; [congruence|].
    cbn [map rev]. rewrite <- app_assoc. exact I4.
Qed.

Lemma enqueue_if_single_inv Qcap rem sets Q i Q' :
  enqueue_if_single Qcap sets Q i = Ok Q' ->
  3 * Z.of_nat (length rem) < 2 ^ 64 ->
  sets_inv slots rem sets ->
  queue_inv slots rem Q ->
  queue_inv slots rem Q' /\ (length Q' <= S (length Q))%nat.
Proof.
  unfold enqueue_if_single. intros H Hb Hinv HQ.
  bind_inv H. apply read_inv in E.
  destruct (Hinv _ _ E) as [Hc _].
  destruct (Z.eqb_spec (xor_xorset_s.count a) 1) as [E1|].
  - apply push_inv in H as [-> _]. split; [|cbn; lia].
    intros j [<- | Hj]; [|auto].
    pose proof (CNT_range slots (Z.to_nat i) rem).
    rewrite Hc, u64_small in E1 by lia. lia.
  - injection H as <-. split; [assumption|lia].
Qed.

Lemma scan_inv Qcap rem sets : forall n i Q Q',
  scan n i Qcap sets Q = Ok Q' ->
  3 * Z.of_nat (length rem) < 2 ^ 64 ->
  sets_inv slots rem sets ->
  queue_inv slots rem Q ->
  queue_inv slots rem Q'.
Proof.
  induction n as [|n IH]; intros i Q Q' H Hb Hinv HQ; cbn [scan] in H.
  - injection H as <-. assumption.
  - bind_inv H.
    destruct (enqueue_if_single_inv _ _ _ _ _ _ E Hb Hinv HQ) as [HQ1 _].
    eapply IH; eauto.
Qed.

Lemma ordered_incl stack : forall l1 l2,
  (forall x, In x l2 -> In x l1) ->
  ordered slots l1 stack -> ordered slots l2 stack.
Proof.
  induction stack as [|ki stack IH]; intros l1 l2 Hincl; cbn [ordered];
    [auto|].
  intros (H1 & H2 & H3). repeat split; [assumption|auto|].
  apply (IH (xor_keyindex_s.hash ki :: l1)); [|assumption].
  intros x [<- | Hx]; [left; reflexivity|right; auto].
Qed.

Lemma queue_inv_shrink rem1 hash rem2 Q :
  queue_inv slots (rem1 ++ hash :: rem2) Q ->
  queue_inv slots (rem1 ++ rem2) Q.
Proof.
  intros H i Hi. specialize (H i Hi).
  rewrite CNT_remove with (hash := hash).
  pose proof (occ_range slots (Z.to_nat i) hash). lia.
Qed.

Lemma peel_inv Qcap stackcap :
  forall gas rem sets Q stack sets' stack',
  peel get_just gas filter Qcap stackcap sets Q stack
    = Ok (sets', stack') ->
  3 * Z.of_nat (length rem) < 2 ^ 64 ->
  sets_inv slots rem sets ->
  queue_inv slots rem Q ->
  ordered slots rem stack ->
  exists rem',
    sets_inv slots rem' sets' /\
    ordered slots rem' stack' /\
    (length rem' + length stack' = length rem + length stack)%nat /\
    (forall x, In x rem \/ In x (map xor_keyindex_s.hash stack) ->
               In x rem' \/ In x (map xor_keyindex_s.hash stack')).
Proof.
  induction gas as [|gas IH];
    intros rem sets Q stack sets' stack' H Hb Hinv HQ Hord;
    destruct Q as [|index Q]; cbn [peel] in H; try discriminate.
  - injection H as <- <-. exists rem. tauto.
  - injection H as <- <-. exists rem. tauto.
  - bind_inv H. apply read_inv in E.
    destruct (Z.eqb_spec (xor_xorset_s.count a) 0) as [Ez | Hnz].
    + eapply IH; eauto. intros i Hi. apply HQ. right. exact Hi.
    + destruct (Hinv _ _ E) as [Hc Hm].
      pose proof (CNT_range slots (Z.to_nat index) rem) as Hr.
      pose proof (HQ index (or_introl eq_refl)) as Hle.
      rewrite u64_small in Hc by lia.
      destruct (CNT_1_unique slots (Z.to_nat index) rem)
        as (rem1 & hash & rem2 & -> & Ho & Hc0 & Hmask); [lia|].
      assert (xor_xorset_s.xormask a = hash) as Ex by congruence.
      rewrite Ex in H. clear Ex Hm Hc Hle Hr Hnz.
      bind_inv H. apply push_inv in E0 as [-> _].
      bind_inv H. bind_inv H. bind_inv H.
      destruct (xorset_remove_agree _ _ _ _ _ _ Hinv E0) as [L1 A1].
      destruct (xorset_remove_agree _ _ _ _ _ _ A1 E1) as [L2 A2].
      destruct (xorset_remove_agree _ _ _ _ _ _ A2 E2) as [L3 A3].
      assert (sets_inv slots (rem1 ++ rem2) a2) as I3.
      { intros s x Hx. destruct (A3 s x Hx) as [-> ->].
        rewrite (CNT_remove slots s rem1 hash rem2).
        rewrite (MSK_remove slots s rem1 hash rem2).
        unfold occ, msk, slots_of.
        split; [f_equal; lia|lxor_bits]. }
      assert (3 * Z.of_nat (length (rem1 ++ rem2)) < 2 ^ 64) as Hb'.
      { rewrite length_app in *. cbn [length] in Hb. lia. }
      pose proof (queue_inv_shrink _ _ _ Q
                    (fun i Hi => HQ i (or_intror Hi))) as HQ0.
      bind_inv H.
      destruct (enqueue_if_single_inv _ _ _ _ _ _ E3 Hb' I3 HQ0)
        as [HQ1 _].
      bind_inv H.
      destruct (enqueue_if_single_inv _ _ _ _ _ _ E4 Hb' I3 HQ1)
        as [HQ2 _].
      bind_inv H.
      destruct (enqueue_if_single_inv _ _ _ _ _ _ E5 Hb' I3 HQ2)
        as [HQ3 _].
      destruct (IH (rem1 ++ rem2) _ _ _ _ _ H Hb' I3 HQ3)
        as (rem' & I' & O' & Hlen & Hin).
      { cbn [ordered xor_keyindex_s.index xor_keyindex_s.hash].
        split; [exact Ho|]. split.
        - apply CNT_0_all. exact Hc0.
        - apply (ordered_incl stack (rem1 ++ hash :: rem2));
            [|exact Hord].
          intros x [<- | Hx]; rewrite in_app_iff in *; cbn [In];
            tauto. }
      exists rem'. split; [exact I'|]. split; [exact O'|]. split.
      * rewrite Hlen, !length_app. cbn [length]. lia.
      * intros x Hx. apply Hin. cbn [map xor_keyindex_s.hash In].
        rewrite in_app_iff in *. cbn [In] in Hx. tauto.
Qed.

(** A complete attempt leaves a stack that holds the hash of every
    key, in an order fit for the assignment. *)
Lemma attempt_complete keys arrayLength stack :
  attempt get get_just keys filter arrayLength = Ok stack ->
  3 * Z.of_nat (length keys) < 2 ^ 64 ->
  length stack = length keys ->
  ordered slots [] stack /\
  forall k, In k keys -> In (hash_of k) (map xor_keyindex_s.hash stack).
Proof.
  unfold attempt. intros H Hb Hlen.
  bind_inv H. bind_inv H. bind_inv H. destruct a1 as [sets' stack'].
  injection H as ->.
  assert (sets_inv slots []
            (replicate
               (Z.to_nat (extent arrayLength sizeof_xor_xorset_t))
               (xor_xorset_s.Build 0 0))) as I0.
  { intros s x Hx. apply lookup_replicate in Hx as [-> _]. cbn. auto. }
  destruct (add_keys_inv keys [] _ _ I0 E) as [_ I1].
  rewrite app_nil_r in I1.
  assert (3 * Z.of_nat (length (rev (map hash_of keys))) < 2 ^ 64) as Hb'.
  { rewrite length_rev, length_map. exact Hb. }
  assert (queue_inv slots (rev (map hash_of keys)) a0) as HQ.
  { eapply scan_inv; eauto. intros i []. }
  destruct (peel_inv _ _ _ _ _ _ _ _ _ E1 Hb' I1 HQ I)
    as (rem' & _ & O' & Hl & Hin).
  rewrite length_rev, length_map in Hl. cbn [length] in Hl.
  assert (rem' = []) as -> by (destruct rem'; [reflexivity|cbn in Hl; lia]).
  split; [exact O'|].
  intros k Hk. destruct (Hin (hash_of k)) as [[] | Hs]; [|exact Hs].
  left. apply in_rev. rewrite rev_involutive. apply in_map. exact Hk.
Qed.

Lemma solved_frame p hash cells i u v :
  p = Some cells ->
  occ slots i hash = 0 ->
  solved slots W p hash ->
  solved slots W (Some (<[i := v]> (<[i := u]> cells))) hash.
Proof.
  intros -> Ho (cells' & c0 & c1 & c2 & [= <-] & L0 & L1 & L2 & Hx).
  unfold occ, occ1 in Ho.
  destruct (Nat.eqb_spec (Z.to_nat (xor_h0h1h2_s.h0 (slots hash))) i);
    destruct (Nat.eqb_spec (Z.to_nat (xor_h0h1h2_s.h1 (slots hash))) i);
    destruct (Nat.eqb_spec (Z.to_nat (xor_h0h1h2_s.h2 (slots hash))) i);
    try lia.
  exists (<[i := v]> (<[i := u]> cells)), c0, c1, c2.
  rewrite !list_lookup_insert_ne by congruence. auto.
Qed.

(** The assignment loop solves every hash of the stack and keeps the
    hashes solved before; it neither moves nor resizes the array. *)
Lemma assign_inv (HW : 0 <= W) stack : forall later p p',
  assign W get_just filter stack p = Ok p' ->
  ordered slots later stack ->
  (forall x, In x later -> solved slots W p x) ->
  (forall x, In x later \/ In x (map xor_keyindex_s.hash stack) ->
             solved slots W p' x) /\
  (forall cells, p = Some cells ->
     exists cells', p' = Some cells' /\ length cells' = length cells).
Proof.
  induction stack as [|ki stack IH]; intros later p p' H Hord Hsol;
    cbn [assign] in H.
  - injection H as <-. split.
    + intros x [Hx | []]. auto.
    + eauto.
  - destruct ki as [hash index].
    cbn [xor_keyindex_s.hash xor_keyindex_s.index] in H.
    change (get_just hash filter) with (slots hash) in H.
    destruct Hord as (Ho & Hlater & Hord).
    cbn [xor_keyindex_s.hash xor_keyindex_s.index] in Ho, Hlater, Hord.
    bind_ok H as S1. apply store_inv in S1 as (cells & -> & Hi & ->).
    bind_ok H as L0. apply load_inv in L0 as (? & [= <-] & L0).
    bind_ok H as L1. apply load_inv in L1 as (? & [= <-] & L1).
    bind_ok H as L2. apply load_inv in L2 as (? & [= <-] & L2).
    bind_ok H as S2. apply store_inv in S2 as (? & [= <-] & Hi' & ->).
    set (i := Z.to_nat index) in *.
    set (v := cell W _) in *.
    destruct (IH (hash :: later) _ _ H Hord) as [Hall Hlen].
    { intros x [<- | Hx].
      - exists (<[i := v]> (<[i := 0]> cells)).
        unfold occ, occ1 in Ho. fold i in Ho.
        destruct (Nat.eqb_spec
                    (Z.to_nat (xor_h0h1h2_s.h0 (slots hash))) i) as [e0|n0];
          destruct (Nat.eqb_spec
                    (Z.to_nat (xor_h0h1h2_s.h1 (slots hash))) i) as [e1|n1];
          destruct (Nat.eqb_spec
                    (Z.to_nat (xor_h0h1h2_s.h2 (slots hash))) i) as [e2|n2];
          try lia.
        + rewrite e0 in *.
          rewrite list_lookup_insert_eq in L0 by assumption.
          rewrite list_lookup_insert_ne in L1, L2 by congruence.
          injection L0 as <-.
          exists v, a0, a1.
          rewrite list_lookup_insert_eq by assumption.
          rewrite !list_lookup_insert_ne by congruence.
          repeat split; try assumption.
          subst v. apply assign_cell_0. exact HW.
        + rewrite e1 in *.
          rewrite list_lookup_insert_eq in L1 by assumption.
          rewrite list_lookup_insert_ne in L0, L2 by congruence.
          injection L1 as <-.
          exists a, v, a1.
          rewrite list_lookup_insert_eq by assumption.
          rewrite !list_lookup_insert_ne by congruence.
          repeat split; try assumption.
          subst v. apply assign_cell_1. exact HW.
        + rewrite e2 in *.
          rewrite list_lookup_insert_eq in L2 by assumption.
          rewrite list_lookup_insert_ne in L0, L1 by congruence.
          injection L2 as <-.
          exists a, a0, v.
          rewrite list_lookup_insert_eq by assumption.
          rewrite !list_lookup_insert_ne by congruence.
          repeat split; try assumption.
          subst v. apply assign_cell_2. exact HW.
      - apply (solved_frame (Some cells)); auto. }
    split.
    + intros x Hx. apply Hall. cbn [map xor_keyindex_s.hash In] in *.
      tauto.
    + intros ? [= <-].
      destruct (Hlen _ eq_refl) as (cells' & -> & Hl).
      exists cells'. split; [reflexivity|].
      rewrite Hl, !length_insert. reflexivity.
Qed.
End Attempt.

Lemma retry_inv keys arrayLength : forall fuel rng filter f1 stack,
  retry get get_just fuel keys arrayLength rng filter = Ok (f1, stack) ->
  attempt get get_just keys f1 arrayLength = Ok stack /\
  length stack = length keys /\
  blockLength f1 = blockLength filter /\
  fingerprints f1 = fingerprints filter.
Proof.
  induction fuel as [|fuel IH]; intros rng filter f1 stack H;
    cbn [retry] in H; [discriminate|].
  bind_ok H as A.
  destruct (Z.eqb_spec (Z.of_nat (length a)) (Z.of_nat (length keys))).
  - injection H as <- <-. repeat split; [assumption|lia].
  - destruct (xor_rng_splitmix64 rng) as [r rng'].
    apply IH in H as (H1 & H2 & H3 & H4). auto.
Qed.

(** The index derivations look at the seed and the block length only. *)
Hypothesis get_frame : forall k f p,
  get k (set_fingerprints f p) = get k f.
Hypothesis get_just_frame : forall hash f p,
  get_just hash (set_fingerprints f p) = get_just hash f.

Lemma populate_true ok fuel keys filter f' live :
  populate W get get_just ok fuel keys filter = Ok (true, f', live) ->
  exists f1 stack p,
    retry get get_just fuel keys (u64 (blockLength filter * 3))
          (snd (xor_rng_splitmix64 1))
          (set_seed filter (fst (xor_rng_splitmix64 1))) = Ok (f1, stack) /\
    assign W get_just f1 stack (fingerprints f1) = Ok p /\
    f' = set_fingerprints f1 p /\ live = [].
Proof.
  unfold populate.
  destruct (xor_rng_splitmix64 1) as [r rng]. cbn [fst snd].
  unfold malloc.
  destruct (ok S_sets), (ok S_Q), (ok S_stack); try discriminate.
  cbn [set_seed blockLength]. intros H.
  bind_ok H as R. destruct a as [f1 stack].
  bind_ok H as A. injection H as <- <-.
  exists f1, stack, a. repeat split; assumption.
Qed.

(** After a successful construction the cells at the three indices of
    every key XOR to the key's fingerprint. *)
Lemma populate_solved ok fuel keys filter f' live :
  0 <= W ->
  3 * Z.of_nat (length keys) < 2 ^ 64 ->
  populate W get get_just ok fuel keys filter = Ok (true, f', live) ->
  forall k, In k keys ->
    solved (slots_of get_just f') W (fingerprints f')
           (hash_under get f' k).
Proof.
  intros HW Hb H k Hk.
  apply populate_true in H as (f1 & stack & p & R & A & -> & _).
  apply retry_inv in R as (T & Hlen & _ & _).
  destruct (attempt_complete f1 keys _ _ T Hb Hlen) as [Hord Hin].
  destruct (assign_inv f1 HW stack [] _ _ A Hord) as [Hsol _];
    [intros x []|].
  specialize (Hsol _ (or_intror (Hin k Hk))).
  unfold solved, hash_under, slots_of in *.
  rewrite get_frame. cbn [fingerprints set_fingerprints].
  destruct Hsol as (cells & c0 & c1 & c2 & Hp & L0 & L1 & L2 & Hx).
  exists cells, c0, c1, c2. rewrite !get_just_frame. auto.
Qed.

(** *** The construction reads the block length and the cells only *)

Lemma set_seed_set_fingerprints f p r :
  set_seed (set_fingerprints f p) r = set_fingerprints (set_seed f r) p.
Proof. reflexivity. Qed.

Lemma add_keys_frame f p keys : forall sets,
  add_keys get (set_fingerprints f p) keys sets = add_keys get f keys sets.
Proof.
  induction keys as [|k keys IH]; intros sets; cbn [add_keys];
    [reflexivity|].
  rewrite get_frame.
  destruct (xorset_add sets _ _) as [s1| |]; cbn [res_bind]; try reflexivity.
  destruct (xorset_add s1 _ _) as [s2| |]; cbn [res_bind]; try reflexivity.
  destruct (xorset_add s2 _ _) as [s3| |]; cbn [res_bind]; try reflexivity.
  apply IH.
Qed.

Lemma peel_frame f p Qcap stackcap : forall gas sets Q stack,
  peel get_just gas (set_fingerprints f p) Qcap stackcap sets Q stack
  = peel get_just gas f Qcap stackcap sets Q stack.
Proof.
  induction gas as [|gas IH]; intros sets Q stack; destruct Q as [|i Q];
    cbn [peel]; try reflexivity.
  destruct (read A_sets sets i) as [s| |]; cbn [res_bind]; try reflexivity.
  destruct (xor_xorset_s.count s =? 0); [apply IH|].
  destruct (push A_stack stackcap stack _) as [st| |]; cbn [res_bind];
    try reflexivity.
  rewrite get_just_frame.
  repeat match goal with
         | |- res_bind ?r _ = res_bind ?r _ =>
             destruct r; cbn [res_bind]; try reflexivity
         end.
  apply IH.
Qed.

Lemma attempt_frame f p keys arrayLength :
  attempt get get_just keys (set_fingerprints f p) arrayLength
  = attempt get get_just keys f arrayLength.
Proof.
  unfold attempt. rewrite add_keys_frame.
  destruct (add_keys get f keys _) as [s1| |]; cbn [res_bind];
    try reflexivity.
  destruct (scan _ _ _ _ _) as [Q| |]; cbn [res_bind]; try reflexivity.
  rewrite peel_frame. reflexivity.
Qed.

Lemma retry_frame keys arrayLength p : forall fuel rng f,
  retry get get_just fuel keys arrayLength rng (set_fingerprints f p)
  = do '(f1, stack) <- retry get get_just fuel keys arrayLength rng f;
    Ok (set_fingerprints f1 p, stack).
Proof.
  induction fuel as [|fuel IH]; intros rng f; cbn [retry];
    [reflexivity|].
  rewrite attempt_frame.
  destruct (attempt get get_just keys f arrayLength) as [stack| |];
    cbn [res_bind]; try reflexivity.
  destruct (_ =? _); [reflexivity|].
  destruct (xor_rng_splitmix64 rng) as [r rng'].
  rewrite set_seed_set_fingerprints. apply IH.
Qed.

(** More fuel does not change an answer. *)
Lemma retry_fuel_mono keys arrayLength : forall fuel fuel' rng f r,
  retry get get_just fuel keys arrayLength rng f = Ok r ->
  (fuel <= fuel')%nat ->
  retry get get_just fuel' keys arrayLength rng f = Ok r.
Proof.
  induction fuel as [|fuel IH]; intros fuel' rng f r H Hle;
    cbn [retry] in H; [discriminate|].
  destruct fuel' as [|fuel']; [lia|]. cbn [retry].
  destruct (attempt get get_just keys f arrayLength) as [stack| |];
    cbn [res_bind] in *; try discriminate.
  destruct (_ =? _); [assumption|].
  destruct (xor_rng_splitmix64 rng) as [r' rng'].
  apply IH; [assumption|lia].
Qed.

(** The seed a successful construction ends with does not depend on the
    seed or on the cells the filter had, nor on the fuel. *)
Lemma populate_seed ok ok' fuel fuel' keys f g f' g' live live' :
  blockLength f = blockLength g ->
  populate W get get_just ok fuel keys f = Ok (true, f', live) ->
  populate W get get_just ok' fuel' keys g = Ok (true, g', live') ->
  seed f' = seed g' /\ blockLength f' = blockLength g'.
Proof.
  intros Hb Hf Hg.
  apply populate_true in Hf as (f1 & st1 & p1 & R1 & _ & -> & _).
  apply populate_true in Hg as (g1 & st2 & p2 & R2 & _ & -> & _).
  cbn [seed blockLength set_fingerprints].
  rewrite <- Hb in R2.
  assert (set_seed g (fst (xor_rng_splitmix64 1))
          = set_fingerprints (set_seed f (fst (xor_rng_splitmix64 1)))
                             (fingerprints g)) as Eg.
  { unfold set_seed, set_fingerprints. cbn. rewrite Hb. reflexivity. }
  rewrite Eg, retry_frame in R2.
  bind_ok R2 as R3. destruct a as [f2 st3]. injection R2 as <- <-.
  cbn [seed blockLength set_fingerprints].
  assert (Ok (f1, st1) = Ok (f2, st3)) as E.
  { destruct (Nat.le_ge_cases fuel fuel') as [Hle | Hle].
    - rewrite <- R3. symmetry. eapply retry_fuel_mono; eauto.
    - rewrite <- R1. eapply retry_fuel_mono; eauto. }
  injection E as <- <-. auto.
Qed.


Lemma populate_fuel_mono ok fuel fuel' keys f r :
  populate W get get_just ok fuel keys f = Ok r ->
  (fuel <= fuel')%nat ->
  populate W get get_just ok fuel' keys f = Ok r.
Proof.
  unfold populate. destruct (xor_rng_splitmix64 1) as [s rng].
  unfold malloc.
  destruct (ok S_sets), (ok S_Q), (ok S_stack); auto.
  intros H Hle. bind_ok H as R.
  rewrite (retry_fuel_mono _ _ _ _ _ _ _ R Hle). exact H.
Qed.

Lemma populate_ext ok fuel keys f g :
  blockLength f = blockLength g ->
  fingerprints f = fingerprints g ->
  populate W get get_just ok fuel keys f
  = populate W get get_just ok fuel keys g.
Proof.
  intros Hb Hp. unfold populate.
  destruct (xor_rng_splitmix64 1) as [s rng].
  unfold set_seed. rewrite Hb, Hp. reflexivity.
Qed.

Lemma populate_cells ok ok' fuel fuel' keys f g f' g' live live' :
  blockLength f = blockLength g ->
  fingerprints f = fingerprints g ->
  populate W get get_just ok fuel keys f = Ok (true, f', live) ->
  populate W get get_just ok' fuel' keys g = Ok (true, g', live') ->
  fingerprints f' = fingerprints g'.
Proof.
  intros Hb Hp Hf Hg.
  apply populate_true in Hf as (f1 & st1 & p1 & R1 & A1 & -> & _).
  apply populate_true in Hg as (g1 & st2 & p2 & R2 & A2 & -> & _).
  cbn [fingerprints set_fingerprints].
  assert (set_seed g (fst (xor_rng_splitmix64 1))
          = set_seed f (fst (xor_rng_splitmix64 1))) as Eg.
  { unfold set_seed. rewrite Hb, Hp. reflexivity. }
  rewrite Eg, <- Hb in R2.
  assert (Ok (f1, st1) = Ok (g1, st2)) as E.
  { destruct (Nat.le_ge_cases fuel fuel') as [Hle | Hle].
    - rewrite <- R2. symmetry. eapply retry_fuel_mono; eauto.
    - rewrite <- R1. eapply retry_fuel_mono; eauto. }
  injection E as <- <-. congruence.
Qed.


(** *** The peeling loop ends within [peel_gas] iterations *)

Lemma enqueue_if_single_length Qcap sets Q i Q' :
  enqueue_if_single Qcap sets Q i = Ok Q' ->
  (length Q' <= S (length Q))%nat.
Proof.
  unfold enqueue_if_single. intros H. bind_ok H as R.
  destruct (_ =? _).
  - apply push_inv in H as [-> _]. cbn [length]. lia.
  - injection H as <-. lia.
Qed.

Lemma read_returns {A} arr (a : list A) i : read arr a i <> Timeout.
Proof. unfold read. destruct (a !! Z.to_nat i); discriminate. Qed.

Lemma push_returns {A} arr cap (buf : list A) v :
  push arr cap buf v <> Timeout.
Proof. unfold push. destruct (_ <? _); discriminate. Qed.

Lemma xorset_remove_returns sets i hash :
  xorset_remove sets i hash <> Timeout.
Proof.
  unfold xorset_remove, read, write.
  destruct (sets !! Z.to_nat i); cbn [res_bind]; discriminate.
Qed.

Lemma enqueue_if_single_returns Qcap sets Q i :
  enqueue_if_single Qcap sets Q i <> Timeout.
Proof.
  unfold enqueue_if_single, read.
  destruct (sets !! Z.to_nat i); cbn [res_bind]; [|discriminate].
  destruct (_ =? _); [apply push_returns|discriminate].
Qed.

Lemma peel_terminates f Qcap stackcap : forall gas sets Q stack,
  (3 * (Z.to_nat stackcap - length stack) + length Q <= gas)%nat ->
  peel get_just gas f Qcap stackcap sets Q stack <> Timeout.
Proof.
  induction gas as [|gas IH]; intros sets Q stack Hgas;
    destruct Q as [|i Q]; cbn [peel]; try discriminate.
  - cbn [length] in Hgas. lia.
  - cbn [length] in Hgas.
    step_returns (@read_returns xor_xorset_t) as R.
    destruct (_ =? _); [apply IH; lia|].
    step_returns (@push_returns xor_keyindex_t) as P.
    apply push_inv in P as [-> Hcap].
    step_returns xorset_remove_returns as R1.
    step_returns xorset_remove_returns as R2.
    step_returns xorset_remove_returns as R3.
    step_returns enqueue_if_single_returns as E1.
    step_returns enqueue_if_single_returns as E2.
    step_returns enqueue_if_single_returns as E3.
    apply enqueue_if_single_length in E1, E2, E3.
    apply IH. cbn [length]. lia.
Qed.

Lemma xorset_add_returns sets i hash : xorset_add sets i hash <> Timeout.
Proof.
  unfold xorset_add, read, write.
  destruct (sets !! Z.to_nat i); cbn [res_bind]; discriminate.
Qed.

Lemma add_keys_returns f keys : forall sets,
  add_keys get f keys sets <> Timeout.
Proof.
  induction keys as [|k keys IH]; intros sets; cbn [add_keys];
    [discriminate|].
  step_returns xorset_add_returns as R1.
  step_returns xorset_add_returns as R2.
  step_returns xorset_add_returns as R3.
  apply IH.
Qed.

Lemma scan_returns Qcap sets : forall n i Q,
  scan n i Qcap sets Q <> Timeout.
Proof.
  induction n as [|n IH]; intros i Q; cbn [scan]; [discriminate|].
  step_returns enqueue_if_single_returns as E. apply IH.
Qed.

(** An attempt always ends: only the retry loop can run out of fuel. *)
Lemma attempt_returns keys f arrayLength :
  attempt get get_just keys f arrayLength <> Timeout.
Proof.
  unfold attempt.
  step_returns add_keys_returns as K.
  step_returns scan_returns as S.
  destruct (peel _ _ _ _ _ _ _ _) as [[sets' stack]| |] eqn:P;
    cbn [res_bind]; try discriminate.
  exfalso. revert P. apply peel_terminates.
  unfold peel_gas. cbn [length]. lia.
Qed.

(** *** Accesses to the fingerprint array *)

Lemma bind_not_fp {A B} (r : res A) (k : A -> res B) :
  not_fp r -> (forall a, r = Ok a -> not_fp (k a)) -> not_fp (res_bind r k).
Proof.
  unfold not_fp. destruct r; cbn [res_bind]; intros H1 H2;
    [eauto|intros [= ->]; apply H1; reflexivity|discriminate].
Qed.

Lemma read_not_fp {A} arr (a : list A) i :
  arr <> A_fingerprints -> not_fp (read arr a i).
Proof.
  unfold not_fp, read. destruct (a !! Z.to_nat i); congruence.
Qed.

Lemma write_not_fp {A} arr (a : list A) i v :
  arr <> A_fingerprints -> not_fp (write arr a i v).
Proof.
  unfold not_fp, write. destruct (a !! Z.to_nat i); congruence.
Qed.

Lemma push_not_fp {A} arr cap (buf : list A) v :
  arr <> A_fingerprints -> not_fp (push arr cap buf v).
Proof. unfold not_fp, push. destruct (_ <? _); congruence. Qed.

Lemma xorset_add_not_fp sets i hash : not_fp (xorset_add sets i hash).
Proof.
  unfold xorset_add. apply bind_not_fp; [apply read_not_fp; discriminate|].
  intros. apply write_not_fp. discriminate.
Qed.

Lemma xorset_remove_not_fp sets i hash :
  not_fp (xorset_remove sets i hash).
Proof.
  unfold xorset_remove.
  apply bind_not_fp; [apply read_not_fp; discriminate|].
  intros. apply write_not_fp. discriminate.
Qed.

Lemma enqueue_if_single_not_fp Qcap sets Q i :
  not_fp (enqueue_if_single Qcap sets Q i).
Proof.
  unfold enqueue_if_single.
  apply bind_not_fp; [apply read_not_fp; discriminate|].
  intros a _. destruct (_ =? _); [apply push_not_fp|]; discriminate.
Qed.

Lemma add_keys_not_fp f keys : forall sets,
  not_fp (add_keys get f keys sets).
Proof.
  induction keys as [|k keys IH]; intros sets; cbn [add_keys];
    [discriminate|].
  repeat (apply bind_not_fp; [apply xorset_add_not_fp|intros ? _]).
  apply IH.
Qed.

Lemma scan_not_fp Qcap sets : forall n i Q, not_fp (scan n i Qcap sets Q).
Proof.
  induction n as [|n IH]; intros i Q; cbn [scan]; [discriminate|].
  apply bind_not_fp; [apply enqueue_if_single_not_fp|intros ? _].
  apply IH.
Qed.

Lemma peel_not_fp f Qcap stackcap : forall gas sets Q stack,
  not_fp (peel get_just gas f Qcap stackcap sets Q stack).
Proof.
  induction gas as [|gas IH]; intros sets Q stack; destruct Q as [|i Q];
    cbn [peel]; try discriminate.
  apply bind_not_fp; [apply read_not_fp; discriminate|intros s _].
  destruct (_ =? _); [apply IH|].
  apply bind_not_fp; [apply push_not_fp; discriminate|intros ? _].
  repeat (apply bind_not_fp; [apply xorset_remove_not_fp|intros ? _]).
  repeat (apply bind_not_fp; [apply enqueue_if_single_not_fp|intros ? _]).
  apply IH.
Qed.

Lemma attempt_not_fp keys f arrayLength :
  not_fp (attempt get get_just keys f arrayLength).
Proof.
  unfold attempt.
  apply bind_not_fp; [apply add_keys_not_fp|intros ? _].
  apply bind_not_fp; [apply scan_not_fp|intros ? _].
  apply bind_not_fp; [apply peel_not_fp|intros [? ?] _].
  discriminate.
Qed.

Lemma retry_not_fp keys arrayLength : forall fuel rng f,
  not_fp (retry get get_just fuel keys arrayLength rng f).
Proof.
  induction fuel as [|fuel IH]; intros rng f; cbn [retry];
    [discriminate|].
  apply bind_not_fp; [apply attempt_not_fp|intros stack _].
  destruct (_ =? _); [discriminate|].
  destruct (xor_rng_splitmix64 rng). apply IH.
Qed.

Lemma enqueue_if_single_below B Qcap sets Q i Q' :
  enqueue_if_single Qcap sets Q i = Ok Q' ->
  below B i -> Forall (below B) Q -> Forall (below B) Q'.
Proof.
  unfold enqueue_if_single. intros H Hi HQ. bind_ok H as R.
  destruct (_ =? _).
  - apply push_inv in H as [-> _]. constructor; assumption.
  - injection H as <-. assumption.
Qed.

Lemma scan_below B Qcap sets : forall n i Q Q',
  scan n i Qcap sets Q = Ok Q' ->
  0 <= i -> i + Z.of_nat n <= B ->
  Forall (below B) Q -> Forall (below B) Q'.
Proof.
  induction n as [|n IH]; intros i Q Q' H Hi Hn HQ; cbn [scan] in H.
  - injection H as <-. assumption.
  - bind_ok H as R.
    apply (IH (i + 1) a Q' H); [lia|lia|].
    eapply enqueue_if_single_below; eauto. unfold below. lia.
Qed.

Local Abbreviation slots_below B f :=
  (indices_below B (slots_of get_just f)).

Lemma peel_below B f Qcap stackcap (Hf : slots_below B f) :
  forall gas sets Q stack sets' stack',
  peel get_just gas f Qcap stackcap sets Q stack = Ok (sets', stack') ->
  Forall (below B) Q ->
  Forall (fun ki => below B (xor_keyindex_s.index ki)) stack ->
  Forall (fun ki => below B (xor_keyindex_s.index ki)) stack'.
Proof.
  induction gas as [|gas IH]; intros sets Q stack sets' stack' H HQ Hst;
    destruct Q as [|i Q]; cbn [peel] in H; try discriminate.
  - injection H as <- <-. assumption.
  - injection H as <- <-. assumption.
  - apply Forall_cons in HQ as [Hi HQ].
    bind_ok H as R. destruct (_ =? _); [eapply IH; eauto|].
    bind_ok H as P. apply push_inv in P as [-> _].
    bind_ok H as R1. bind_ok H as R2. bind_ok H as R3.
    destruct (Hf (xor_xorset_s.xormask a)) as (B0 & B1 & B2).
    bind_ok H as Q1. bind_ok H as Q2. bind_ok H as Q3.
    eapply IH; [exact H| |].
    + eapply enqueue_if_single_below; [exact Q3|exact B2|].
      eapply enqueue_if_single_below; [exact Q2|exact B1|].
      eapply enqueue_if_single_below; [exact Q1|exact B0|exact HQ].
    + constructor; [exact Hi|exact Hst].
Qed.

Lemma attempt_below B f keys arrayLength stack :
  slots_below B f -> 0 <= arrayLength <= B ->
  attempt get get_just keys f arrayLength = Ok stack ->
  Forall (fun ki => below B (xor_keyindex_s.index ki)) stack.
Proof.
  intros Hf Ha H. unfold attempt in H.
  bind_ok H as K. bind_ok H as S. bind_ok H as P.
  destruct a1 as [sets' stack']. injection H as ->.
  eapply peel_below; [exact Hf|exact P| |constructor].
  eapply scan_below; [exact S|lia|lia|constructor].
Qed.

(** The assignment stays inside an array of [B] cells. *)
Lemma assign_ok B f (Hf : slots_below B f) : forall stack cells,
  Z.of_nat (length cells) = B ->
  Forall (fun ki => below B (xor_keyindex_s.index ki)) stack ->
  exists cells', assign W get_just f stack (Some cells) = Ok (Some cells').
Proof.
  induction stack as [|ki stack IH]; intros cells Hlen Hst;
    cbn [assign]; [eauto|].
  apply Forall_cons in Hst as [Hi Hst].
  destruct (Hf (xor_keyindex_s.hash ki)) as (B0 & B1 & B2).
  unfold below, slots_of in *.
  assert (forall (c : list Z) i, length c = length cells -> 0 <= i < B ->
            exists x, c !! Z.to_nat i = Some x) as Hlook.
  { intros c i Hc Hb. apply lookup_lt_is_Some_2. lia. }
  unfold store at 1. unfold write.
  destruct (Hlook cells _ eq_refl Hi) as [x ->]. cbn [res_bind].
  set (cells1 := <[_ := 0]> cells).
  assert (length cells1 = length cells) as L1 by apply length_insert.
  unfold load, read.
  destruct (Hlook cells1 _ L1 B0) as [c0 ->]. cbn [res_bind].
  destruct (Hlook cells1 _ L1 B1) as [c1 ->]. cbn [res_bind].
  destruct (Hlook cells1 _ L1 B2) as [c2 ->]. cbn [res_bind].
  unfold store, write.
  destruct (Hlook cells1 _ L1 Hi) as [y ->]. cbn [res_bind].
  apply IH; [|exact Hst].
  rewrite length_insert. lia.
Qed.

Lemma populate_not_fp B ok fuel keys filter cells :
  (forall f, blockLength f = blockLength filter -> slots_below B f) ->
  u64 (blockLength filter * 3) <= B ->
  fingerprints filter = Some cells ->
  Z.of_nat (length cells) = B ->
  not_fp (populate W get get_just ok fuel keys filter).
Proof.
  intros Hf Ha Hp Hlen. unfold populate.
  destruct (xor_rng_splitmix64 1) as [r rng]. unfold malloc.
  destruct (ok S_sets), (ok S_Q), (ok S_stack); try discriminate.
  cbn [set_seed blockLength].
  apply bind_not_fp; [apply retry_not_fp|].
  intros [f1 stack] R.
  apply retry_inv in R as (T & _ & Hbl & Hfp).
  cbn [blockLength fingerprints set_seed] in Hbl, Hfp.
  pose proof (u64_range (blockLength filter * 3)).
  apply attempt_below with (B := B) in T; [|apply Hf; exact Hbl|lia].
  cbv beta iota. rewrite Hfp, Hp.
  destruct (assign_ok B f1 (Hf _ Hbl) stack cells Hlen T) as [cells' ->].
  discriminate.
Qed.

(** *** The empty key set *)

Lemma scan_zero Qcap m : forall n i,
  0 <= i -> (Z.to_nat i + n <= m)%nat ->
  scan n i Qcap (replicate m (xor_xorset_s.Build 0 0)) [] = Ok [].
Proof.
  induction n as [|n IH]; intros i Hi Hle; cbn [scan]; [reflexivity|].
  unfold enqueue_if_single, read.
  rewrite lookup_replicate_2 by lia. cbn [res_bind xor_xorset_s.count].
  cbn [Z.eqb]. apply IH; lia.
Qed.

Lemma attempt_empty f arrayLength :
  0 <= arrayLength -> arrayLength * sizeof_xor_xorset_t < 2 ^ 64 ->
  attempt get get_just [] f arrayLength = Ok [].
Proof.
  intros H0 Hs. unfold attempt. cbn [add_keys res_bind].
  assert (extent arrayLength sizeof_xor_xorset_t = arrayLength) as ->.
  { unfold extent. rewrite u64_small by (unfold sizeof_xor_xorset_t in *; lia).
    apply Z.div_mul. discriminate. }
  rewrite scan_zero by lia. cbn [res_bind].
  unfold peel_gas. destruct (_ + _)%nat; reflexivity.
Qed.

Lemma populate_empty_generic ok fuel filter :
  ok S_sets = true -> ok S_Q = true -> ok S_stack = true ->
  0 <= blockLength filter -> 3 * blockLength filter < 2 ^ 60 ->
  populate W get get_just ok (S fuel) [] filter
  = Ok (true, set_seed filter (fst (xor_rng_splitmix64 1)), []).
Proof.
  intros O1 O2 O3 Hb0 Hb. unfold populate.
  destruct (xor_rng_splitmix64 1) as [r rng]. cbn [fst].
  unfold malloc. rewrite O1, O2, O3.
  cbn [retry set_seed blockLength].
  rewrite attempt_empty.
  - cbn [res_bind length Z.of_nat Z.eqb assign fingerprints
           set_fingerprints seed blockLength free List.filter scratch_eqb
           negb].
    reflexivity.
  - apply u64_range.
  - rewrite u64_small by lia. unfold sizeof_xor_xorset_t. lia.
Qed.

(** *** A failed scratch allocation *)

Lemma populate_no_scratch ok fuel keys filter :
  ok S_sets && ok S_Q && ok S_stack = false ->
  populate W get get_just ok fuel keys filter
  = Ok (false, set_seed filter (fst (xor_rng_splitmix64 1)), []).
Proof.
  intros Hok. unfold populate.
  destruct (xor_rng_splitmix64 1) as [r rng]. cbn [fst].
  unfold malloc.
  destruct (ok S_sets), (ok S_Q), (ok S_stack); try discriminate Hok;
    reflexivity.
Qed.
End PopulateCorrect.

(** ** No false negatives *)

Lemma xor8_get_frame k f p :
  xor8_get_h0_h1_h2 k (set_fingerprints f p) = xor8_get_h0_h1_h2 k f.
Proof.
  unfold xor8_get_h0_h1_h2. cbn [seed blockLength set_fingerprints].
  reflexivity.
Qed.

Lemma xor8_get_just_frame hash f p :
  xor8_get_just_h0_h1_h2 hash (set_fingerprints f p)
  = xor8_get_just_h0_h1_h2 hash f.
Proof.
  unfold xor8_get_just_h0_h1_h2. cbn [seed blockLength set_fingerprints].
  reflexivity.
Qed.

Lemma xor16_get_frame k f p :
  xor16_get_h0_h1_h2 k (set_fingerprints f p) = xor16_get_h0_h1_h2 k f.
Proof.
  unfold xor16_get_h0_h1_h2. cbn [seed blockLength set_fingerprints].
  reflexivity.
Qed.

Lemma xor16_get_just_frame hash f p :
  xor16_get_just_h0_h1_h2 hash (set_fingerprints f p)
  = xor16_get_just_h0_h1_h2 hash f.
Proof.
  unfold xor16_get_just_h0_h1_h2. cbn [seed blockLength set_fingerprints].
  reflexivity.
Qed.

Lemma solved_contain W k f :
  0 <= W ->
  solved (slots_of xor8_get_just_h0_h1_h2 f) W (fingerprints f)
         (hash_under xor8_get_h0_h1_h2 f k) ->
  contain W k f = Ok (true, f).
Proof.
  intros HW (cells & c0 & c1 & c2 & Hp & L0 & L1 & L2 & Hx).
  unfold slots_of, hash_under in *.
  destruct (xor8_get_h0_h1_h2_just k f) as (_ & E0 & E1 & E2).
  rewrite <- E0 in L0. rewrite <- E1 in L1. rewrite <- E2 in L2.
  unfold contain. cbv zeta. rewrite Hp. unfold load, read.
  rewrite L0, L1, L2. cbn [res_bind].
  rewrite cell_lxor, cell_cell, Hx, Z.lxor_nilpotent by exact HW.
  reflexivity.
Qed.

(** C1: when [xor8_populate] (resp. [xor16_populate]) returns true, then
    for every key of the input array the cells at its three indices XOR
    to its fingerprint in the cell width, and [xor8_contain] (resp.
    [xor16_contain]) returns true on the populated filter.  This holds
    for every filter the call returns true on, whatever its block length
    and whatever its cells held before, and it does not need the keys to
    be distinct.  The array of [size] 8-byte keys lies in a 64-bit address
    space, so [size < 2^61]. *)
Theorem no_false_negatives ok fuel keys filter f' live :
  Z.of_nat (length keys) < 2 ^ 61 ->
  (xor8_populate ok fuel keys filter = Ok (true, f', live) ->
   forall k, In k keys ->
     solved (slots_of xor8_get_just_h0_h1_h2 f') 8 (fingerprints f')
            (xor_mix_split k (seed f')) /\
     xor8_contain k f' = Ok (true, f')) /\
  (xor16_populate ok fuel keys filter = Ok (true, f', live) ->
   forall k, In k keys ->
     solved (slots_of xor16_get_just_h0_h1_h2 f') 16 (fingerprints f')
            (xor_mix_split k (seed f')) /\
     xor16_contain k f' = Ok (true, f')).
Proof.
  intros Hsize. split; intros H k Hk.
  - pose proof (populate_solved 8 xor8_get_h0_h1_h2 xor8_get_just_h0_h1_h2
                  (fun k f => proj2 (xor8_get_h0_h1_h2_just k f))
                  xor8_get_frame xor8_get_just_frame
                  ok fuel keys filter f' live ltac:(lia) ltac:(lia) H k Hk)
      as S.
    split.
    + destruct (xor8_get_h0_h1_h2_just k f') as (<- & _). exact S.
    + rewrite xor8_contain_generic. apply solved_contain; [lia|exact S].
  - pose proof (populate_solved 16 xor16_get_h0_h1_h2 xor16_get_just_h0_h1_h2
                  (fun k f => proj2 (xor16_get_h0_h1_h2_just k f))
                  xor16_get_frame xor16_get_just_frame
                  ok fuel keys filter f' live ltac:(lia) ltac:(lia) H k Hk)
      as S.
    split.
    + destruct (xor16_get_h0_h1_h2_just k f') as (<- & _). exact S.
    + rewrite xor16_contain_generic. apply solved_contain; [lia|].
      unfold solved, hash_under, slots_of in *.
      rewrite xor16_get_is_xor8 in S.
      destruct S as (cells & c0 & c1 & c2 & Hp & L0 & L1 & L2 & Hx).
      rewrite xor16_get_just_is_xor8 in L0, L1, L2.
      exists cells, c0, c1, c2. auto.
Qed.

(** The hypotheses of [no_false_negatives] hold for the keys 1..10 and
    the 8-bit filter allocated for ten elements. *)
Lemma no_false_negatives_witness :
  Z.of_nat (length keys_1_10) < 2 ^ 61 /\
  xor8_populate all_ok 4 keys_1_10 xor8_10_a
    = Ok (true, xor8_10_a_populated, []) /\
  In 7 keys_1_10 /\
  xor8_contain 7 xor8_10_a_populated = Ok (true, xor8_10_a_populated).
Proof.
  assert (Z.of_nat (length keys_1_10) < 2 ^ 61) as H1 by (vm_compute; reflexivity).
  assert (xor8_populate all_ok 4 keys_1_10 xor8_10_a
          = Ok (true, xor8_10_a_populated, [])) as H2
    by (vm_compute; reflexivity).
  assert (In 7 keys_1_10) as H3 by (cbn; tauto).
  exact (conj H1 (conj H2 (conj H3
           (proj2 (proj1 (no_false_negatives all_ok 4 keys_1_10 xor8_10_a
                            xor8_10_a_populated [] H1) H2 7 H3))))).
Defined.

(** The hypotheses of [contain_is_xor_test] hold for key 7 and the
    populated 8-bit filter. *)
Lemma contain_is_xor_test_witness :
  exists cells,
    fingerprints xor8_10_a_populated = Some cells /\
    Z.of_nat (length cells) = 3 * blockLength xor8_10_a_populated /\
    1 <= blockLength xor8_10_a_populated /\
    cells_wf 8 cells /\
    exists c0 c1 c2,
      xor8_contain 7 xor8_10_a_populated =
        Ok (cell 8 (xor_fingerprint
                      (xor_mix_split 7 (seed xor8_10_a_populated)))
              =? Z.lxor (Z.lxor c0 c1) c2, xor8_10_a_populated).
Proof.
  eexists. split; [reflexivity|].
  assert (Z.of_nat (length
            [5; 82; 159; 236; 57; 134; 211; 32; 109; 186; 7; 84; 94; 238; 59;
             136; 103; 34; 111; 188; 9; 86; 163; 240; 145; 138; 215; 71; 211;
             190; 11; 88; 165; 196; 229; 140; 217; 8; 57; 235; 13; 90])
          = 3 * blockLength xor8_10_a_populated) as H1 by reflexivity.
  assert (1 <= blockLength xor8_10_a_populated) as H2 by by_eval.
  split; [exact H1|]. split; [exact H2|].
  assert (cells_wf 8
            [5; 82; 159; 236; 57; 134; 211; 32; 109; 186; 7; 84; 94; 238; 59;
             136; 103; 34; 111; 188; 9; 86; 163; 240; 145; 138; 215; 71; 211;
             190; 11; 88; 165; 196; 229; 140; 217; 8; 57; 235; 13; 90]) as H3.
  { unfold cells_wf. repeat (apply Forall_cons; split; [lia|]).
    apply Forall_nil. exact I. }
  split; [exact H3|].
  destruct (contain_is_xor_test 7 xor8_10_a_populated _ eq_refl H1 H2)
    as (c0 & c1 & c2 & _ & _ & _ & C8 & _).
  exists c0, c1, c2. exact (C8 H3).
Defined.

(** ** Size *)

(** C8: [xor8_size_in_bytes] and [xor16_size_in_bytes] return
    [3 * blockLength * sizeof(cell) + sizeof(header)] computed in
    [size_t]; whenever that byte count is a [size_t] (as it is for a cell
    array and a header that exist in a 64-bit address space) it is the
    exact sum. *)
Theorem size_in_bytes_law filter :
  xor8_size_in_bytes filter
    = (3 * blockLength filter * sizeof_uint8_t + sizeof_xor8_t) mod 2 ^ 64 /\
  xor16_size_in_bytes filter
    = (3 * blockLength filter * sizeof_uint16_t + sizeof_xor16_t) mod 2 ^ 64 /\
  (0 <= blockLength filter ->
   3 * blockLength filter * sizeof_uint16_t + sizeof_xor16_t < 2 ^ 64 ->
   xor8_size_in_bytes filter
     = 3 * blockLength filter * sizeof_uint8_t + sizeof_xor8_t /\
   xor16_size_in_bytes filter
     = 3 * blockLength filter * sizeof_uint16_t + sizeof_xor16_t).
Proof.
  assert (forall c d, u64 (u64 (u64 (3 * blockLength filter) * c) + d)
                      = (3 * blockLength filter * c + d) mod 2 ^ 64) as E.
  { intros c d. unfold u64.
    rewrite Zmult_mod_idemp_l, Zplus_mod_idemp_l. reflexivity. }
  unfold xor8_size_in_bytes, xor16_size_in_bytes. rewrite !E.
  split; [reflexivity|]. split; [reflexivity|].
  intros Hb Hs. unfold sizeof_uint8_t, sizeof_uint16_t, sizeof_xor8_t,
    sizeof_xor16_t in *.
  rewrite !Z.mod_small by lia. auto.
Qed.

(** The hypotheses of [size_in_bytes_law] hold for the filter allocated
    for ten elements: 42 cells and a 24-byte header. *)
Lemma size_in_bytes_law_witness :
  0 <= blockLength xor8_10_a /\
  3 * blockLength xor8_10_a * sizeof_uint16_t + sizeof_xor16_t < 2 ^ 64 /\
  xor8_size_in_bytes xor8_10_a = 66 /\
  xor16_size_in_bytes xor8_10_a = 108.
Proof.
  assert (0 <= blockLength xor8_10_a) as H1 by by_eval.
  assert (3 * blockLength xor8_10_a * sizeof_uint16_t + sizeof_xor16_t
          < 2 ^ 64) as H2 by by_eval.
  exact (conj H1 (conj H2
           (proj2 (proj2 (size_in_bytes_law xor8_10_a)) H1 H2))).
Defined.

(** ** The empty key set *)

(** C5, as amended: for the empty key array, when the three scratch
    requests succeed (and their sizes are representable), [xor8_populate]
    and [xor16_populate] return true, install the first splitmix64 output
    as seed, release the scratch blocks and leave the fingerprint array
    as it was; if every slot was 0 before the call then afterwards the
    query returns true exactly for the keys whose fingerprint, in the
    cell width, is 0. *)
Theorem populate_empty_set ok fuel filter :
  ok S_sets = true -> ok S_Q = true -> ok S_stack = true ->
  0 <= blockLength filter -> 3 * blockLength filter < 2 ^ 60 ->
  let f' := set_seed filter (fst (xor_rng_splitmix64 1)) in
  xor8_populate ok (S fuel) [] filter = Ok (true, f', []) /\
  xor16_populate ok (S fuel) [] filter = Ok (true, f', []) /\
  fingerprints f' = fingerprints filter /\
  forall cells,
    fingerprints filter = Some cells ->
    Z.of_nat (length cells) = 3 * blockLength filter ->
    1 <= blockLength filter ->
    Forall (fun c => c = 0) cells ->
    forall k,
      xor8_contain k f'
        = Ok (cell 8 (xor_fingerprint (xor_mix_split k (seed f'))) =? 0, f')
      /\
      xor16_contain k f'
        = Ok (cell 16 (xor_fingerprint (xor_mix_split k (seed f'))) =? 0, f').
Proof.
  intros O1 O2 O3 Hb0 Hb f'.
  split; [apply populate_empty_generic; assumption|].
  split; [apply populate_empty_generic; assumption|].
  split; [reflexivity|].
  intros cells Hp Hlen Hb1 Hz k.
  assert (fingerprints f' = Some cells) as Hp' by exact Hp.
  assert (Z.of_nat (length cells) = 3 * blockLength f') as Hlen' by exact Hlen.
  assert (1 <= blockLength f') as Hb1' by exact Hb1.
  destruct (xor8_get_h0_h1_h2_just k f') as (_ & E0 & E1 & E2).
  destruct (get_just_below (xor_hashes_s.h (xor8_get_h0_h1_h2 k f')) f' Hb1')
    as (B0 & B1 & B2).
  rewrite <- E0 in B0. rewrite <- E1 in B1. rewrite <- E2 in B2.
  destruct (read_Some A_fingerprints cells
              (xor_hashes_s.h0 (xor8_get_h0_h1_h2 k f')))
    as (c0 & L0 & _); [lia|].
  destruct (read_Some A_fingerprints cells
              (xor_hashes_s.h1 (xor8_get_h0_h1_h2 k f')))
    as (c1 & L1 & _); [lia|].
  destruct (read_Some A_fingerprints cells
              (xor_hashes_s.h2 (xor8_get_h0_h1_h2 k f')))
    as (c2 & L2 & _); [lia|].
  assert (c0 = 0) by exact (Forall_lookup_1 _ _ _ _ Hz L0).
  assert (c1 = 0) by exact (Forall_lookup_1 _ _ _ _ Hz L1).
  assert (c2 = 0) by exact (Forall_lookup_1 _ _ _ _ Hz L2).
  subst c0 c1 c2.
  assert (forall W, 0 < W -> cells_wf W cells) as Hwf.
  { intros W HW. unfold cells_wf. eapply Forall_impl; [exact Hz|].
    intros c ->. cbv beta. split; [lia|]. apply Z.pow_pos_nonneg; lia. }
  split.
  - rewrite xor8_contain_generic.
    rewrite (contain_generic 8 k f' cells ltac:(lia) Hp' Hlen' Hb1'
               (Hwf 8 ltac:(lia)) 0 0 0 L0 L1 L2).
    reflexivity.
  - rewrite xor16_contain_generic.
    rewrite (contain_generic 16 k f' cells ltac:(lia) Hp' Hlen' Hb1'
               (Hwf 16 ltac:(lia)) 0 0 0 L0 L1 L2).
    reflexivity.
Qed.

(** The hypotheses of [populate_empty_set] hold for the filter allocated
    for no element in zeroed memory; key 406 has fingerprint 0. *)
Lemma populate_empty_set_witness :
  all_ok S_sets = true /\ all_ok S_Q = true /\ all_ok S_stack = true /\
  0 <= blockLength xor8_0_zeroed /\
  3 * blockLength xor8_0_zeroed < 2 ^ 60 /\
  xor8_populate all_ok 1 [] xor8_0_zeroed
    = Ok (true, set_seed xor8_0_zeroed (fst (xor_rng_splitmix64 1)), []).
Proof.
  assert (0 <= blockLength xor8_0_zeroed) as H1 by by_eval.
  assert (3 * blockLength xor8_0_zeroed < 2 ^ 60) as H2 by by_eval.
  exact (conj eq_refl (conj eq_refl (conj eq_refl (conj H1 (conj H2
           (proj1 (populate_empty_set all_ok 0 xor8_0_zeroed
                     eq_refl eq_refl eq_refl H1 H2))))))).
Defined.

(** C5, as stated, fails on a filter whose cells held 1 before the call:
    [populate] returns true on the empty key array and every slot still
    holds 1; key 406 has the 8-bit fingerprint 0 and is reported absent. *)
Lemma populate_empty_set_counterexample :
  xor8_populate all_ok 1 [] xor8_0_b
    = Ok (true, set_seed xor8_0_b 10451216379200822465, []) /\
  fingerprints (set_seed xor8_0_b 10451216379200822465)
    = Some (replicate 30 1) /\
  cell 8 (xor_fingerprint (xor_mix_split 406 10451216379200822465)) = 0 /\
  xor8_contain 406 (set_seed xor8_0_b 10451216379200822465)
    = Ok (false, set_seed xor8_0_b 10451216379200822465).
Proof. vm_compute. repeat split; reflexivity. Qed.

(** ** Determinism *)

(** C6, as amended: [populate] seeds its splitmix64 generator from the
    counter 1 on every call and reads from the filter only the block
    length and the cells.  Two calls on the same keys and the same block
    length that return true produce the same seed, whatever the filters
    held; they produce the same cells when the two arrays held the same
    contents before the calls, and then the calls agree altogether. *)
Theorem populate_deterministic ok ok' fuel fuel' keys f g :
  blockLength f = blockLength g ->
  (forall f' g' live live',
     xor8_populate ok fuel keys f = Ok (true, f', live) ->
     xor8_populate ok' fuel' keys g = Ok (true, g', live') ->
     seed f' = seed g' /\
     (fingerprints f = fingerprints g -> f' = g')) /\
  (forall f' g' live live',
     xor16_populate ok fuel keys f = Ok (true, f', live) ->
     xor16_populate ok' fuel' keys g = Ok (true, g', live') ->
     seed f' = seed g' /\
     (fingerprints f = fingerprints g -> f' = g')) /\
  (fingerprints f = fingerprints g ->
   xor8_populate ok fuel keys f = xor8_populate ok fuel keys g /\
   xor16_populate ok fuel keys f = xor16_populate ok fuel keys g).
Proof.
  intros Hb. split; [|split].
  - intros f' g' live live' Hf Hg.
    destruct (populate_seed 8 _ _ xor8_get_frame xor8_get_just_frame
                _ _ _ _ _ _ _ _ _ _ _ Hb Hf Hg) as [Hs Hbl].
    split; [exact Hs|]. intros Hp.
    pose proof (populate_cells 8 _ _ _ _ _ _ _ _ _ _ _ _ _ Hb Hp Hf Hg).
    destruct f', g'. cbn in *. congruence.
  - intros f' g' live live' Hf Hg.
    destruct (populate_seed 16 _ _ xor16_get_frame xor16_get_just_frame
                _ _ _ _ _ _ _ _ _ _ _ Hb Hf Hg) as [Hs Hbl].
    split; [exact Hs|]. intros Hp.
    pose proof (populate_cells 16 _ _ _ _ _ _ _ _ _ _ _ _ _ Hb Hp Hf Hg).
    destruct f', g'. cbn in *. congruence.
  - intros Hp. split; apply populate_ext; assumption.
Qed.

(** The hypotheses of [populate_deterministic] hold for the filter
    allocated for ten elements, populated twice with the keys 1..10 and
    different fuel. *)
Lemma populate_deterministic_witness :
  blockLength xor8_10_a = blockLength xor8_10_a /\
  xor8_populate all_ok 4 keys_1_10 xor8_10_a
    = Ok (true, xor8_10_a_populated, []) /\
  xor8_populate all_ok 9 keys_1_10 xor8_10_a
    = Ok (true, xor8_10_a_populated, []) /\
  seed xor8_10_a_populated = seed xor8_10_a_populated.
Proof.
  assert (xor8_populate all_ok 4 keys_1_10 xor8_10_a
          = Ok (true, xor8_10_a_populated, [])) as H1
    by (vm_compute; reflexivity).
  assert (xor8_populate all_ok 9 keys_1_10 xor8_10_a
          = Ok (true, xor8_10_a_populated, [])) as H2
    by (vm_compute; reflexivity).
  exact (conj eq_refl (conj H1 (conj H2
           (proj1 (proj1 (populate_deterministic all_ok all_ok 4 9 keys_1_10
                            xor8_10_a xor8_10_a eq_refl) _ _ _ _ H1 H2))))).
Defined.

(** C6, as stated, fails: two filters allocated for ten elements, whose
    blocks held different bytes, are populated with the same keys 1..10
    and end with the same seed but different slot contents. *)
Lemma populate_deterministic_counterexample :
  blockLength xor8_10_a = blockLength xor8_10_b /\
  xor8_populate all_ok 4 keys_1_10 xor8_10_a
    = Ok (true, xor8_10_a_populated, []) /\
  xor8_populate all_ok 4 keys_1_10 xor8_10_b
    = Ok (true, xor8_10_b_populated, []) /\
  seed xor8_10_a_populated = seed xor8_10_b_populated /\
  fingerprints xor8_10_a_populated <> fingerprints xor8_10_b_populated.
Proof.
  split; [reflexivity|].
  split; [vm_compute; reflexivity|].
  split; [vm_compute; reflexivity|].
  split; [reflexivity|].
  vm_compute. discriminate.
Qed.

(** ** A failed scratch allocation *)

(** C9: when one of the three scratch requests fails, [xor8_populate] and
    [xor16_populate] return false and no scratch block is live at the
    return; the block length and the [fingerprints] pointer (and what it
    points to) are as before, but the seed has been overwritten with the
    first splitmix64 output for the counter 1. *)
Theorem populate_scratch_failure ok fuel keys filter :
  ok S_sets && ok S_Q && ok S_stack = false ->
  let f' := Build_xor_t 0x910A2DEC89025CC1 (blockLength filter)
                        (fingerprints filter) in
  fst (xor_rng_splitmix64 1) = 0x910A2DEC89025CC1 /\
  xor8_populate ok fuel keys filter = Ok (false, f', []) /\
  xor16_populate ok fuel keys filter = Ok (false, f', []).
Proof.
  intros Hok f'.
  assert (fst (xor_rng_splitmix64 1) = 0x910A2DEC89025CC1) as Hs
    by (vm_compute; reflexivity).
  split; [exact Hs|].
  unfold xor8_populate, xor16_populate.
  rewrite !populate_no_scratch by exact Hok.
  rewrite Hs. auto.
Qed.

(** The hypothesis of [populate_scratch_failure] holds when the request
    for [stack] fails. *)
Lemma populate_scratch_failure_witness :
  no_stack S_sets && no_stack S_Q && no_stack S_stack = false /\
  xor8_populate no_stack 4 keys_1_10 xor8_10_a
    = Ok (false,
          Build_xor_t 0x910A2DEC89025CC1 (blockLength xor8_10_a)
                      (fingerprints xor8_10_a), []).
Proof.
  exact (conj eq_refl
           (proj1 (proj2 (populate_scratch_failure no_stack 4 keys_1_10
                            xor8_10_a eq_refl)))).
Defined.

(** ** Index ranges *)

Lemma contain_ok W key filter cells :
  fingerprints filter = Some cells ->
  Z.of_nat (length cells) = 3 * blockLength filter ->
  1 <= blockLength filter ->
  exists r, contain W key filter = Ok (r, filter).
Proof.
  intros Hp Hlen Hb.
  destruct (xor8_get_h0_h1_h2_just key filter) as (_ & E0 & E1 & E2).
  destruct (get_just_below (xor_hashes_s.h (xor8_get_h0_h1_h2 key filter))
              filter Hb) as (B0 & B1 & B2).
  rewrite <- E0 in B0. rewrite <- E1 in B1. rewrite <- E2 in B2.
  unfold contain. cbv zeta. rewrite Hp. unfold load.
  destruct (read_Some A_fingerprints cells
              (xor_hashes_s.h0 (xor8_get_h0_h1_h2 key filter)))
    as (c0 & _ & ->); [lia|].
  destruct (read_Some A_fingerprints cells
              (xor_hashes_s.h1 (xor8_get_h0_h1_h2 key filter)))
    as (c1 & _ & ->); [lia|].
  destruct (read_Some A_fingerprints cells
              (xor_hashes_s.h2 (xor8_get_h0_h1_h2 key filter)))
    as (c2 & _ & ->); [lia|].
  cbn [res_bind]. eauto.
Qed.

Lemma get_just_indices_below filter f :
  1 <= blockLength filter -> blockLength f = blockLength filter ->
  indices_below (3 * blockLength filter)
                (slots_of xor8_get_just_h0_h1_h2 f).
Proof.
  intros Hb Hf hash. unfold below. rewrite <- Hf in *.
  apply get_just_below. exact Hb.
Qed.

(** C7, as amended: for a filter with [1 <= blockLength], the index of
    block 0 derived from any key lies in [[0, b)], the index of block 1
    lies in [[b, 2b)] when [2 * blockLength <= 2^32], and the index of
    block 2 lies in [[2b, 3b)] when [3 * blockLength <= 2^32], so that
    the three are then pairwise distinct.  Whatever the block length
    (from 1 on), the three indices are below [3 * blockLength]: on an
    array of [3 * blockLength] cells the queries return, and no run of
    [populate] reads or writes outside the fingerprint array. *)
Theorem slot_indices_in_blocks key filter :
  1 <= blockLength filter ->
  let hs := xor8_get_h0_h1_h2 key filter in
  let b := blockLength filter in
  0 <= xor_hashes_s.h0 hs < b /\
  (2 * b <= 2 ^ 32 ->
   b <= xor_hashes_s.h1 hs < 2 * b /\
   xor_hashes_s.h0 hs <> xor_hashes_s.h1 hs) /\
  (3 * b <= 2 ^ 32 ->
   2 * b <= xor_hashes_s.h2 hs < 3 * b /\
   xor_hashes_s.h1 hs <> xor_hashes_s.h2 hs /\
   xor_hashes_s.h0 hs <> xor_hashes_s.h2 hs) /\
  (0 <= xor_hashes_s.h0 hs < 3 * b /\
   0 <= xor_hashes_s.h1 hs < 3 * b /\
   0 <= xor_hashes_s.h2 hs < 3 * b) /\
  xor16_get_h0_h1_h2 key filter = hs /\
  forall cells,
    fingerprints filter = Some cells ->
    Z.of_nat (length cells) = 3 * b ->
    (exists r, xor8_contain key filter = Ok (r, filter)) /\
    (exists r, xor16_contain key filter = Ok (r, filter)) /\
    forall ok fuel keys,
      not_fp (xor8_populate ok fuel keys filter) /\
      not_fp (xor16_populate ok fuel keys filter).
Proof.
  intros Hb hs b.
  destruct (xor8_get_h0_h1_h2_just key filter) as (_ & E0 & E1 & E2).
  fold hs in E0, E1, E2.
  destruct (get_just_below (xor_hashes_s.h hs) filter Hb)
    as (L0 & L1 & L2).
  rewrite <- E0 in L0. rewrite <- E1 in L1. rewrite <- E2 in L2.
  fold b in L0, L1, L2.
  assert (0 <= xor_hashes_s.h0 hs < b) as B0.
  { rewrite E0.
    cbv [xor8_get_just_h0_h1_h2 xor_h0h1h2_s.h0].
    apply xor_reduce_below. exact Hb. }
  assert (2 * b <= 2 ^ 32 -> b <= xor_hashes_s.h1 hs < 2 * b) as B1.
  { intros Hs. rewrite E1.
    cbv [xor8_get_just_h0_h1_h2 xor_h0h1h2_s.h1].
    rewrite index1_exact by assumption.
    pose proof (xor_reduce_below
                  (u32 (xor_rotl64 (xor_hashes_s.h hs) 21)) _ Hb).
    unfold b in *. lia. }
  split; [exact B0|].
  split; [intros Hs; specialize (B1 Hs); lia|].
  split.
  { intros Hs.
    destruct (get_just_blocks (xor_hashes_s.h hs) filter Hb Hs)
      as (_ & _ & B2).
    rewrite <- E2 in B2. fold b in B2.
    specialize (B1 ltac:(lia)). lia. }
  split; [auto|]. split; [apply xor16_get_is_xor8|].
  intros cells Hp Hlen.
  split; [rewrite xor8_contain_generic; eapply contain_ok; eauto|].
  split; [rewrite xor16_contain_generic; eapply contain_ok; eauto|].
  intros ok fuel keys.
  assert (u64 (blockLength filter * 3) <= 3 * blockLength filter) as Ha.
  { unfold u64.
    pose proof (Z.mod_le (blockLength filter * 3) (2 ^ 64)). lia. }
  split.
  - apply (populate_not_fp 8 xor8_get_h0_h1_h2 xor8_get_just_h0_h1_h2
             (3 * blockLength filter) ok fuel keys filter cells);
      try assumption.
    intros f Hf. apply get_just_indices_below; assumption.
  - apply (populate_not_fp 16 xor16_get_h0_h1_h2 xor16_get_just_h0_h1_h2
             (3 * blockLength filter) ok fuel keys filter cells);
      try assumption.
    intros f Hf hash. unfold slots_of. rewrite xor16_get_just_is_xor8.
    apply (get_just_indices_below filter f); assumption.
Qed.

(** The hypotheses of [slot_indices_in_blocks] hold for key 7 and the
    filter allocated for ten elements. *)
Lemma slot_indices_in_blocks_witness :
  1 <= blockLength xor8_10_a /\
  2 * blockLength xor8_10_a <= 2 ^ 32 /\
  3 * blockLength xor8_10_a <= 2 ^ 32 /\
  (0 <= xor_hashes_s.h0 (xor8_get_h0_h1_h2 7 xor8_10_a) < 14 /\
   14 <= xor_hashes_s.h1 (xor8_get_h0_h1_h2 7 xor8_10_a) < 2 * 14 /\
   2 * 14 <= xor_hashes_s.h2 (xor8_get_h0_h1_h2 7 xor8_10_a) < 3 * 14).
Proof.
  assert (1 <= blockLength xor8_10_a) as H1 by by_eval.
  assert (2 * blockLength xor8_10_a <= 2 ^ 32) as H2 by by_eval.
  assert (3 * blockLength xor8_10_a <= 2 ^ 32) as H3 by by_eval.
  pose (T := slot_indices_in_blocks 7 xor8_10_a H1).
  exact (conj H1 (conj H2 (conj H3
           (conj (proj1 T)
              (conj (proj1 (proj1 (proj2 T) H2))
                    (proj1 (proj1 (proj2 (proj2 T)) H3))))))).
Defined.

(** C7, as stated, fails for the block length [2^31], which is below
    [2^32]: the index of block 2 is stored in 32 bits, wraps and falls
    into block 0. *)
Lemma slot_indices_counterexample :
  1 <= 2 ^ 31 < 2 ^ 32 /\
  ~ (2 * 2 ^ 31
     <= xor_hashes_s.h2 (xor8_get_h0_h1_h2 0 (Build_xor_t 0 (2 ^ 31) None))
     < 3 * 2 ^ 31) /\
  0 <= xor_hashes_s.h2 (xor8_get_h0_h1_h2 0 (Build_xor_t 0 (2 ^ 31) None))
    < 2 ^ 31.
Proof.
  split; [lia|]. vm_compute. split.
  - intros [H _]. apply H. reflexivity.
  - split; [discriminate|reflexivity].
Qed.

(** ** Allocation: the [double] arithmetic of [32 + 1.23 * size] *)

(** *** Shifting a mantissa to the right *)

Lemma digits2_pos_size p : digits2_pos p = Pos.size p.
Proof. induction p; cbn; congruence. Qed.

Lemma Zdigits2_log2 p : Zdigits2 (Z.pos p) = Z.log2 (Z.pos p) + 1.
Proof.
  cbn [Zdigits2]. rewrite digits2_pos_size.
  destruct p; cbn [Z.log2 Pos.size]; lia.
Qed.

Lemma digits_bounds p d :
  Z.log2 (Z.pos p) + 1 = d -> 2 ^ (d - 1) <= Z.pos p < 2 ^ d.
Proof.
  intros <-. pose proof (Z.log2_spec (Z.pos p) ltac:(lia)) as H.
  replace (Z.log2 (Z.pos p) + 1 - 1) with (Z.log2 (Z.pos p)) by lia.
  replace (Z.log2 (Z.pos p) + 1) with (Z.succ (Z.log2 (Z.pos p))) by lia.
  exact H.
Qed.

Lemma digits_unique m d :
  0 < d -> 2 ^ (d - 1) <= m < 2 ^ d -> Z.log2 m + 1 = d.
Proof.
  intros Hd H. rewrite (Z.log2_unique m (d - 1)); [lia|lia|].
  replace (Z.succ (d - 1)) with d by lia. exact H.
Qed.

Lemma iter_pos_nat {A} (f : A -> A) p : forall x,
  SpecFloat.iter_pos f p x = Nat.iter (Pos.to_nat p) f x.
Proof.
  induction p as [p IH | p IH |]; intros x; cbn [SpecFloat.iter_pos].
  - rewrite !IH, Pos2Nat.inj_xI.
    change (S (2 * Pos.to_nat p)) with (S (Pos.to_nat p + (Pos.to_nat p + 0)))%nat.
    rewrite Nat.add_0_r, Nat.iter_succ_r, Nat.iter_add. reflexivity.
  - rewrite !IH, Pos2Nat.inj_xO.
    change (2 * Pos.to_nat p)%nat with (Pos.to_nat p + (Pos.to_nat p + 0))%nat.
    rewrite Nat.add_0_r, Nat.iter_add. reflexivity.
  - reflexivity.
Qed.

Lemma shr_1_nonneg m r s :
  0 <= m ->
  shr_1 (Build_shr_record m r s) = Build_shr_record (m / 2) (Z.odd m) (r || s).
Proof.
  intros Hm. rewrite <- Z.div2_div.
  destruct m as [|p|p]; [reflexivity| |lia].
  destruct p; reflexivity.
Qed.

Lemma mod_pow2_succ m k :
  0 <= k ->
  m mod 2 ^ (k + 1) = m mod 2 ^ k + 2 ^ k * Z.b2z (Z.testbit m k).
Proof.
  intros Hk. rewrite Z.pow_add_r, Z.rem_mul_r by lia.
  rewrite <- Z.testbit_spec' by lia. reflexivity.
Qed.

(** [k + 1] shifts leave the quotient by [2^(k+1)], the last bit shifted
    out and whether a lower bit was set. *)
Lemma shr_iter m k :
  0 <= m ->
  Nat.iter (S k) shr_1 (Build_shr_record m false false)
  = Build_shr_record (m / 2 ^ (Z.of_nat k + 1))
                     (Z.testbit m (Z.of_nat k))
                     (negb (m mod 2 ^ Z.of_nat k =? 0)).
Proof.
  intros Hm. induction k as [|k IH].
  - cbn [Nat.iter]. rewrite shr_1_nonneg by lia.
    cbn [Z.of_nat Z.add Z.pow Z.pow_pos Pos.iter Z.mul Pos.mul orb].
    rewrite Z.mod_1_r, Z.bit0_odd. reflexivity.
  - rewrite Nat.iter_succ, IH.
    assert (0 < 2 ^ (Z.of_nat k + 1)) by lia.
    rewrite shr_1_nonneg by (apply Z.div_pos; lia).
    rewrite Z.div_div by lia.
    replace (Z.of_nat (S k)) with (Z.of_nat k + 1) by lia.
    replace (2 ^ (Z.of_nat k + 1) * 2) with (2 ^ (Z.of_nat k + 1 + 1))
      by (rewrite (Z.pow_add_r 2 (Z.of_nat k + 1) 1); lia).
    f_equal.
    + rewrite Z.testbit_odd, Z.shiftr_div_pow2 by lia. reflexivity.
    + rewrite (mod_pow2_succ m (Z.of_nat k)) by lia.
      pose proof (Z.mod_pos_bound m (2 ^ Z.of_nat k) ltac:(lia)).
      destruct (Z.testbit m (Z.of_nat k)); cbn [Z.b2z orb].
      * symmetry. apply negb_true_iff. apply Z.eqb_neq. lia.
      * rewrite Z.mul_0_r, Z.add_0_r. reflexivity.
Qed.

Lemma shr_shift m e s :
  0 <= m -> 0 < s ->
  shr (Build_shr_record m false false) e s
  = (Build_shr_record (m / 2 ^ s) (Z.testbit m (s - 1))
                      (negb (m mod 2 ^ (s - 1) =? 0)), e + s).
Proof.
  intros Hm Hs. destruct s as [|p|p]; try lia. cbn [shr].
  rewrite iter_pos_nat.
  destruct (Pos.to_nat p) as [|k] eqn:Ek; [lia|].
  rewrite shr_iter by lia.
  replace (Z.of_nat k + 1) with (Z.pos p) by lia.
  replace (Z.of_nat k) with (Z.pos p - 1) by lia.
  reflexivity.
Qed.

(** *** Rounding to nearest, ties to even *)

Lemma rne_error m s :
  0 <= m -> 1 <= s ->
  (rne m s = m / 2 ^ s \/ rne m s = m / 2 ^ s + 1) /\
  - 2 ^ s <= 2 * (rne m s * 2 ^ s - m) <= 2 ^ s.
Proof.
  intros Hm Hs. unfold rne.
  pose proof (mod_pow2_succ m (s - 1) ltac:(lia)) as Hmod.
  replace (s - 1 + 1) with s in Hmod by lia.
  assert (2 ^ s = 2 * 2 ^ (s - 1)) as Hpow.
  { rewrite <- Z.pow_succ_r by lia. f_equal. lia. }
  pose proof (Z.mod_pos_bound m (2 ^ (s - 1)) ltac:(lia)) as Hlow.
  pose proof (Z.div_mod m (2 ^ s) ltac:(lia)) as Hdiv.
  set (q := m / 2 ^ s) in *. set (h := 2 ^ (s - 1)) in *.
  set (lo := m mod h) in *.
  rewrite Hmod in Hdiv. rewrite Hpow in *. clear Hmod.
  destruct (Z.testbit m (s - 1)); cbn [Z.b2z] in Hdiv;
    destruct (Z.eqb_spec lo 0) as [E | N];
    cbn [negb loc_of_shr_record round_nearest_even].
  - destruct (Z.even q); split; auto; lia.
  - split; [auto|lia].
  - split; [auto|lia].
  - split; [auto|lia].
Qed.

Lemma quotient_bounds m s :
  0 <= s -> 2 ^ (52 + s) <= m < 2 ^ (53 + s) ->
  2 ^ 52 <= m / 2 ^ s < 2 ^ 53.
Proof.
  intros Hs H. rewrite !Z.pow_add_r in H by lia.
  assert (0 < 2 ^ s) by lia. split.
  - apply Z.div_le_lower_bound; lia.
  - apply Z.div_lt_upper_bound; lia.
Qed.

(** Rounding a positive mantissa of [53 + s] bits in the normal range. *)
Lemma binary_round_aux_round53 pm e s :
  Z.log2 (Z.pos pm) + 1 = 53 + s -> 1 <= s ->
  -1074 <= e + s -> e + s + 1 <= 971 ->
  binary_round_aux 53 1024 false (Z.pos pm) e loc_Exact
  = round53 (Z.pos pm) e s.
Proof.
  intros Hd Hs Hlo Hhi.
  pose proof (digits_bounds pm _ Hd) as Hm.
  replace (53 + s - 1) with (52 + s) in Hm by lia.
  pose proof (quotient_bounds (Z.pos pm) s ltac:(lia) Hm) as Hq.
  destruct (rne_error (Z.pos pm) s ltac:(lia) Hs) as [Hcase _].
  unfold binary_round_aux, shr_fexp, round53.
  rewrite Zdigits2_log2, Hd. unfold fexp, emin.
  rewrite Z.max_l by lia.
  replace (53 + s + e - 53 - e) with s by lia.
  cbn [shr_record_of_loc]. rewrite shr_shift by lia.
  cbn [shr_m]. fold (rne (Z.pos pm) s).
  set (q' := rne (Z.pos pm) s) in *.
  assert (2 ^ 52 <= q' <= 2 ^ 53) as Hq' by lia.
  destruct (Z.ltb_spec q' (2 ^ 53)) as [Hlt | Hge].
  - destruct q' as [|p'|p'] eqn:Eq'; try lia.
    rewrite Zdigits2_log2.
    rewrite (digits_unique (Z.pos p') 53) by lia.
    rewrite Z.max_l by lia.
    replace (53 + (e + s) - 53 - (e + s)) with 0 by lia.
    cbn [shr shr_m shr_record_of_loc].
    destruct (Z.leb_spec (e + s) (1024 - 53)); [reflexivity|lia].
  - assert (q' = 2 ^ 53) as -> by lia.
    change (Zdigits2 (2 ^ 53)) with 54.
    rewrite Z.max_l by lia.
    replace (54 + (e + s) - 53 - (e + s)) with 1 by lia.
    cbn [shr_record_of_loc shr SpecFloat.iter_pos].
    change (shr_1 (Build_shr_record (2 ^ 53) false false))
      with (Build_shr_record (2 ^ 52) false false).
    cbn [shr_m].
    change (2 ^ 52) with (Z.pos (Z.to_pos (2 ^ 52))) at 1.
    cbv beta iota.
    destruct (Z.leb_spec (e + s + 1) (1024 - 53)); [reflexivity|lia].
Qed.

(** *** The arithmetic of the two roundings *)

Lemma small_multiple u w : 0 < u -> (u | w) -> - u < w < u -> w = 0.
Proof.
  intros Hu [c ->] Hw.
  destruct (Z_lt_le_dec c 1) as [H1 | H1].
  - destruct (Z_lt_le_dec (-1) c) as [H2 | H2].
    + replace c with 0 by lia. reflexivity.
    + pose proof (Z.mul_le_mono_nonneg_r c (-1) u ltac:(lia) H2). lia.
  - pose proof (Z.mul_le_mono_nonneg_r 1 c u ltac:(lia) H1). lia.
Qed.

Lemma pow2_divide k n : 0 <= k <= n -> (2 ^ k | 2 ^ n).
Proof.
  intros H. exists (2 ^ (n - k)). rewrite <- Z.pow_add_r by lia.
  f_equal. lia.
Qed.

(** All values are scaled by [2^105].  [X] is the exact product
    [1.23 * n] for the [double] 1.23, [A] its rounding to a multiple of
    the unit [2^k1], [T] the exact sum with 32 and [Y] its rounding to a
    multiple of the unit [2^k2]: the integer part of [Y] is
    [32 + floor(123 n / 100)]. *)
Lemma capacity_scaled n X A T Y k1 k2 :
  0 < n < 2 ^ 44 ->
  X = 5539427541665710 * n * 2 ^ 53 ->
  0 <= k1 <= 105 -> 2 ^ k1 * 2 ^ 52 <= X < 2 ^ k1 * 2 ^ 53 ->
  (2 ^ k1 | A) -> - 2 ^ k1 <= 2 * (A - X) <= 2 ^ k1 ->
  T = A + 32 * 2 ^ 105 ->
  0 <= k2 <= 105 -> 2 ^ k2 * 2 ^ 52 <= T ->
  (2 ^ k2 | Y) -> - 2 ^ k2 <= 2 * (Y - T) <= 2 ^ k2 ->
  Y / 2 ^ 105 = 32 + 123 * n / 100.
Proof.
  intros Hn HX Hk1 HU1 HA HAX HT Hk2 HU2 HY HYT.
  pose proof (pow2_divide k1 105 Hk1) as D1.
  pose proof (pow2_divide k2 105 Hk2) as D2.
  assert (0 < 2 ^ k1) as P1 by lia.
  assert (0 < 2 ^ k2) as P2 by lia.
  set (U1 := 2 ^ k1) in *. set (U2 := 2 ^ k2) in *.
  pose proof (Z.div_mod (123 * n) 100 ltac:(lia)) as Hq.
  pose proof (Z.mod_pos_bound (123 * n) 100 ltac:(lia)) as Hr.
  set (q := 123 * n / 100) in *. set (r := (123 * n) mod 100) in *.
  assert (Y / 2 ^ 105 = 32 + q); [|assumption].
  destruct (Z.eq_dec r 0) as [Hz | Hnz].
  - (* 1.23 n is an integer: both roundings are exact *)
    assert (A = q * 2 ^ 105) as EA.
    { assert (A - q * 2 ^ 105 = 0); [|lia].
      apply (small_multiple U1); [assumption| |].
      - apply Z.divide_sub_r; [assumption|].
        apply Z.divide_mul_r. assumption.
      - change (2 ^ 105) with 40564819207303340847894502572032 in *.
        change (2 ^ 53) with 9007199254740992 in *.
        change (2 ^ 52) with 4503599627370496 in *.
        change (2 ^ 44) with 17592186044416 in *.
        lia. }
    assert (Y = (32 + q) * 2 ^ 105) as EY.
    { assert (Y - T = 0); [|lia].
      apply (small_multiple U2); [assumption| |lia].
      apply Z.divide_sub_r; [assumption|].
      subst T. rewrite EA.
      replace (q * 2 ^ 105 + 32 * 2 ^ 105) with ((q + 32) * 2 ^ 105) by lia.
      apply Z.divide_mul_r. assumption. }
    rewrite EY. apply Z.div_mul. lia.
  - (* otherwise the fraction is at least 1/100 and at most 99/100 *)
    symmetry.
    apply (Z.div_unique Y (2 ^ 105) (32 + q) (Y - 2 ^ 105 * (32 + q)));
      [left|lia].
    change (2 ^ 105) with 40564819207303340847894502572032 in *.
    change (2 ^ 53) with 9007199254740992 in *.
    change (2 ^ 52) with 4503599627370496 in *.
    change (2 ^ 44) with 17592186044416 in *.
    lia.
Qed.

(** *** The operations on finite positive [double]s *)

Lemma binary_round_aux_exact pm e :
  Z.log2 (Z.pos pm) + 1 = 53 -> -1074 <= e <= 971 ->
  binary_round_aux 53 1024 false (Z.pos pm) e loc_Exact
  = S754_finite false pm e.
Proof.
  intros Hd He. unfold binary_round_aux, shr_fexp.
  rewrite Zdigits2_log2, Hd. unfold fexp, emin.
  rewrite Z.max_l by lia.
  replace (53 + e - 53 - e) with 0 by lia.
  cbn [shr_record_of_loc shr shr_m loc_of_shr_record round_nearest_even].
  rewrite Zdigits2_log2, Hd.
  rewrite Z.max_l by lia.
  replace (53 + e - 53 - e) with 0 by lia.
  cbn [shr shr_m].
  destruct (Z.leb_spec e (1024 - 53)); [reflexivity|lia].
Qed.

Lemma iter_xO p k : Z.pos (Pos.iter xO p k) = Z.pos p * 2 ^ Z.pos k.
Proof.
  change (Pos.iter xO p k) with (shift_pos k p).
  rewrite shift_pos_correct, Z.pow_pos_fold. lia.
Qed.

Lemma shl_align_value mx ex ez :
  ez <= ex -> shl_align mx ex ez = (Z.to_pos (Z.pos mx * 2 ^ (ex - ez)), ez).
Proof.
  intros H. unfold shl_align.
  destruct (ez - ex) as [|p|p] eqn:E; try lia.
  - replace ex with ez by lia. rewrite Z.sub_diag, Z.mul_1_r.
    reflexivity.
  - f_equal. apply Pos2Z.inj. rewrite iter_xO.
    replace (ex - ez) with (Z.pos p) by lia.
    rewrite Z2Pos.id by lia. reflexivity.
Qed.

(** An integer of [d <= 52] bits converts exactly. *)
Lemma double_of_Z_exact n d :
  0 < n -> Z.log2 n + 1 = d -> d <= 52 ->
  double_of_Z n = S754_finite false (Z.to_pos (n * 2 ^ (53 - d))) (d - 53).
Proof.
  intros Hn Hd Hle. destruct n as [|p|p]; try lia.
  pose proof (digits_bounds p d Hd) as Hb.
  pose proof (Z.log2_nonneg (Z.pos p)) as Hd0.
  unfold double_of_Z, binary_normalize, binary_round.
  change (Z.pos (digits2_pos p)) with (Zdigits2 (Z.pos p)).
  rewrite Zdigits2_log2, Hd. unfold fexp, emin.
  rewrite Z.max_l by lia.
  rewrite shl_align_value by lia.
  replace (0 - (d + 0 - 53)) with (53 - d) by lia.
  replace (d + 0 - 53) with (d - 53) by lia.
  assert (2 ^ 52 <= Z.pos p * 2 ^ (53 - d) < 2 ^ 53) as Hm.
  { assert (2 ^ 52 = 2 ^ (d - 1) * 2 ^ (53 - d)) as ->
      by (rewrite <- Z.pow_add_r by lia; f_equal; lia).
    assert (2 ^ 53 = 2 ^ d * 2 ^ (53 - d)) as ->
      by (rewrite <- Z.pow_add_r by lia; f_equal; lia).
    assert (0 < 2 ^ (53 - d)) by lia. nia. }
  rewrite <- (Z2Pos.id (Z.pos p * 2 ^ (53 - d))) at 1 by lia.
  apply binary_round_aux_exact; [|lia].
  rewrite Z2Pos.id by lia. apply digits_unique; [lia|exact Hm].
Qed.

Lemma double_mul_finite m1 e1 m2 e2 s :
  Z.log2 (Z.pos (m1 * m2)) + 1 = 53 + s -> 1 <= s ->
  -1074 <= e1 + e2 + s -> e1 + e2 + s + 1 <= 971 ->
  double_mul (S754_finite false m1 e1) (S754_finite false m2 e2)
  = round53 (Z.pos (m1 * m2)) (e1 + e2) s.
Proof.
  intros Hd Hs Hlo Hhi. unfold double_mul. cbn [SFmul xorb].
  apply binary_round_aux_round53; assumption.
Qed.

Lemma double_add_finite m1 e1 m2 e2 s :
  let ez := Z.min e1 e2 in
  let S := Z.pos m1 * 2 ^ (e1 - ez) + Z.pos m2 * 2 ^ (e2 - ez) in
  Z.log2 S + 1 = 53 + s -> 1 <= s ->
  -1074 <= ez + s -> ez + s + 1 <= 971 ->
  double_add (S754_finite false m1 e1) (S754_finite false m2 e2)
  = round53 S ez s.
Proof.
  intros ez S Hd Hs Hlo Hhi. unfold double_add. cbn [SFadd]. fold ez.
  rewrite !shl_align_value by (unfold ez; lia).
  cbn [fst cond_Zopp].
  assert (0 < Z.pos m1 * 2 ^ (e1 - ez)) as H1
    by (apply Z.mul_pos_pos; [lia|apply Z.pow_pos_nonneg; unfold ez; lia]).
  assert (0 < Z.pos m2 * 2 ^ (e2 - ez)) as H2
    by (apply Z.mul_pos_pos; [lia|apply Z.pow_pos_nonneg; unfold ez; lia]).
  rewrite !Z2Pos.id by assumption. fold S.
  destruct S as [|pS|pS] eqn:ES; try lia.
  unfold binary_normalize, binary_round.
  change (Z.pos (digits2_pos pS)) with (Zdigits2 (Z.pos pS)).
  rewrite Zdigits2_log2, Hd. unfold fexp, emin.
  rewrite Z.max_l by lia.
  unfold shl_align.
  destruct (53 + s + ez - 53 - ez) as [|p|p] eqn:E; try lia.
  apply binary_round_aux_round53; assumption.
Qed.

(** The rounded value, scaled by [2^K]: a multiple of the unit that is
    within half a unit of the exact value. *)
Lemma round53_scaled m e s K :
  2 ^ (52 + s) <= m < 2 ^ (53 + s) -> 1 <= s -> 0 <= e + K ->
  exists mf ef,
    round53 m e s = S754_finite false mf ef /\
    e + s <= ef <= e + s + 1 /\
    2 ^ 52 <= Z.pos mf < 2 ^ 53 /\
    let U := 2 ^ (s + e + K) in
    let V := Z.pos mf * 2 ^ (ef + K) in
    let X := m * 2 ^ (e + K) in
    (U | V) /\ - U <= 2 * (V - X) <= U /\ U * 2 ^ 52 <= X < U * 2 ^ 53.
Proof.
  intros Hm Hs HK.
  pose proof (quotient_bounds m s ltac:(lia) Hm) as Hq.
  assert (0 <= m) as Hm0 by lia.
  destruct (rne_error m s Hm0 Hs) as [Hcase Herr].
  assert (2 ^ (s + e + K) = 2 ^ s * 2 ^ (e + K)) as EU
    by (rewrite <- Z.pow_add_r by lia; f_equal; lia).
  rewrite !Z.pow_add_r in Hm by lia.
  assert (0 < 2 ^ s) as Pw by lia.
  assert (0 < 2 ^ (e + K)) as Pc by lia.
  unfold round53.
  destruct (Z.ltb_spec (rne m s) (2 ^ 53)) as [Hlt | Hge].
  - exists (Z.to_pos (rne m s)), (e + s).
    split; [reflexivity|]. split; [lia|].
    rewrite Z2Pos.id by lia. split; [lia|]. cbv zeta.
    replace (e + s + K) with (s + e + K) by lia.
    rewrite EU.
    set (q := rne m s) in *. set (w := 2 ^ s) in *.
    set (c := 2 ^ (e + K)) in *.
    split; [exists q; lia|]. split; nia.
  - assert (rne m s = 2 ^ 53) as Eq by lia.
    exists (Z.to_pos (2 ^ 52)), (e + s + 1).
    split; [reflexivity|]. split; [lia|].
    rewrite Z2Pos.id by lia. split; [lia|]. cbv zeta.
    replace (e + s + 1 + K) with (1 + (s + e + K)) by lia.
    rewrite (Z.pow_add_r 2 1) by lia. rewrite EU.
    rewrite Eq in Herr.
    set (w := 2 ^ s) in *. set (c := 2 ^ (e + K)) in *.
    change (2 ^ 1) with 2.
    split; [exists (2 ^ 53); lia|]. split; nia.
Qed.

(** *** The capacity *)

(** For every element count below [2^44] the [double] computation of
    [32 + 1.23 * size] truncates to [32 + floor(123 size / 100)]. *)
Lemma capacity_for_exact n :
  0 <= n < 2 ^ 44 -> capacity_for n = Ok (32 + 123 * n / 100).
Proof.
  intros Hn. destruct (Z.eq_dec n 0) as [-> | Hne]; [reflexivity|].
  assert (0 < n) as Hpos by lia.
  pose proof (Z.log2_nonneg n) as Hl0.
  pose proof (proj1 (Z.log2_lt_pow2 n 44 Hpos) ltac:(lia)) as Hl44.
  pose proof (Z.log2_spec n Hpos) as Hspec.
  set (d := Z.log2 n + 1) in *.
  replace (Z.succ (Z.log2 n)) with d in Hspec by lia.
  replace (Z.log2 n) with (d - 1) in Hspec by lia.
  unfold capacity_for.
  rewrite (double_of_Z_exact n d) by lia.
  change (double_of_Z 32) with (S754_finite false 4503599627370496 (-47)).
  change double_1_23 with (S754_finite false 5539427541665710 (-52)).
  (* the operand *)
  assert (2 ^ 52 = 2 ^ (d - 1) * 2 ^ (53 - d)) as E52
    by (rewrite <- Z.pow_add_r by lia; f_equal; lia).
  assert (2 ^ 53 = 2 ^ d * 2 ^ (53 - d)) as E53
    by (rewrite <- Z.pow_add_r by lia; f_equal; lia).
  assert (0 < 2 ^ (53 - d)) as Pc by lia.
  assert (2 ^ 52 <= n * 2 ^ (53 - d) < 2 ^ 53) as Bmn by nia.
  set (mn := Z.to_pos (n * 2 ^ (53 - d))).
  assert (Z.pos mn = n * 2 ^ (53 - d)) as Emn
    by (unfold mn; apply Z2Pos.id; lia).
  (* the product *)
  set (P1 := Z.pos (5539427541665710 * mn)).
  assert (P1 = 5539427541665710 * (n * 2 ^ (53 - d))) as EP1
    by (unfold P1; rewrite Pos2Z.inj_mul, Emn; reflexivity).
  assert (2 ^ 104 <= P1 < 2 ^ 106) as BP1.
  { rewrite EP1. change (2 ^ 52) with 4503599627370496 in Bmn.
    change (2 ^ 53) with 9007199254740992 in Bmn.
    change (2 ^ 104) with 20282409603651670423947251286016.
    change (2 ^ 106) with 81129638414606681695789005144064. lia. }
  pose proof (proj1 (Z.log2_le_pow2 P1 104 ltac:(lia)) (proj1 BP1)) as Hs1lo.
  pose proof (proj1 (Z.log2_lt_pow2 P1 106 ltac:(lia)) (proj2 BP1)) as Hs1hi.
  set (s1 := Z.log2 P1 + 1 - 53).
  assert (52 <= s1 <= 53) as Bs1 by (unfold s1; lia).
  assert (Z.log2 P1 + 1 = 53 + s1) as Hd1 by (unfold s1; lia).
  rewrite (double_mul_finite _ _ _ _ s1) by (fold P1; lia).
  fold P1.
  assert (2 ^ (52 + s1) <= P1 < 2 ^ (53 + s1)) as BP1s.
  { pose proof (digits_bounds (5539427541665710 * mn) _ Hd1) as Hb.
    fold P1 in Hb. replace (53 + s1 - 1) with (52 + s1) in Hb by lia.
    exact Hb. }
  destruct (round53_scaled P1 (-52 + (d - 53)) s1 105 BP1s ltac:(lia)
              ltac:(lia)) as (m1 & e1 & -> & He1 & Bm1 & HA).
  cbv zeta in HA. destruct HA as (HAdiv & HAerr & HAunit).
  replace (s1 + (-52 + (d - 53)) + 105) with (s1 + d) in * by lia.
  replace (-52 + (d - 53) + 105) with d in * by lia.
  assert (P1 * 2 ^ d = 5539427541665710 * n * 2 ^ 53) as EX.
  { rewrite EP1, E53. lia. }
  set (A := Z.pos m1 * 2 ^ (e1 + 105)) in *.
  (* the sum *)
  set (ez := Z.min (-47) e1).
  set (S := Z.pos 4503599627370496 * 2 ^ (-47 - ez)
            + Z.pos m1 * 2 ^ (e1 - ez)).
  assert (-52 <= ez <= -47) as Bez by (unfold ez; lia).
  assert (S * 2 ^ (ez + 105) = A + 32 * 2 ^ 105) as ET.
  { unfold S, A. rewrite Z.mul_add_distr_r, <- !Z.mul_assoc.
    rewrite <- !Z.pow_add_r by lia.
    replace (-47 - ez + (ez + 105)) with 58 by lia.
    replace (e1 - ez + (ez + 105)) with (e1 + 105) by lia.
    change (Z.pos 4503599627370496 * 2 ^ 58) with (32 * 2 ^ 105). lia. }
  assert (A < 2 ^ 151) as BA.
  { assert (2 ^ (s1 + d) <= 2 ^ 97) by (apply Z.pow_le_mono_r; lia).
    rewrite EX in HAerr, HAunit.
    change (2 ^ 97) with 158456325028528675187087900672 in *.
    change (2 ^ 53) with 9007199254740992 in *.
    change (2 ^ 44) with 17592186044416 in *.
    change (2 ^ 151) with 2854495385411919762116571938898990272765493248.
    lia. }
  assert (0 < 2 ^ (ez + 105)) as Pz by lia.
  assert (2 ^ 53 <= S) as BS.
  { unfold S.
    assert (1 <= 2 ^ (-47 - ez)) by (apply Z.pow_le_mono_r with (b := 0); unfold ez; lia).
    assert (1 <= 2 ^ (e1 - ez)) by (apply Z.pow_le_mono_r with (b := 0); unfold ez; lia).
    change (2 ^ 53) with 9007199254740992.
    change (2 ^ 52) with 4503599627370496 in Bm1. nia. }
  assert (0 < S) as PS by lia.
  pose proof (proj1 (Z.log2_le_pow2 S 53 PS) BS) as Hs2lo.
  set (s2 := Z.log2 S + 1 - 53).
  assert (1 <= s2) as Bs2 by (unfold s2; lia).
  assert (Z.log2 S + 1 = 53 + s2) as Hd2 by (unfold s2; lia).
  assert (2 ^ (52 + s2) <= S < 2 ^ (53 + s2)) as BSs.
  { destruct S as [|pS|pS] eqn:ES; try lia.
    pose proof (digits_bounds pS _ Hd2) as Hb.
    replace (53 + s2 - 1) with (52 + s2) in Hb by lia. exact Hb. }
  assert (s2 + ez <= -6) as Bs2hi.
  { assert (2 ^ (52 + s2 + (ez + 105)) < 2 ^ 152) as Hlt.
    { rewrite Z.pow_add_r by lia.
      apply Z.le_lt_trans with (S * 2 ^ (ez + 105)); [nia|].
      rewrite ET.
      change (2 ^ 151)
        with 2854495385411919762116571938898990272765493248 in BA.
      change (32 * 2 ^ 105) with 1298074214633706907132624082305024.
      change (2 ^ 152) with 5708990770823839524233143877797980545530986496.
      lia. }
    apply Z.pow_lt_mono_r_iff in Hlt; lia. }
  rewrite (double_add_finite 4503599627370496 (-47) m1 e1 s2)
    by (fold ez; fold S; lia).
  fold ez. fold S.
  destruct (round53_scaled S ez s2 105 BSs Bs2 ltac:(lia))
    as (m2 & e2 & -> & He2 & Bm2 & HY).
  cbv zeta in HY. destruct HY as (HYdiv & HYerr & HYunit).
  rewrite ET in HYerr, HYunit.
  (* the truncation *)
  assert (Z.pos m2 / 2 ^ (- e2) = 32 + 123 * n / 100) as Ecap.
  { rewrite <- (capacity_scaled n (P1 * 2 ^ d) A (A + 32 * 2 ^ 105)
                  (Z.pos m2 * 2 ^ (e2 + 105)) (s1 + d) (s2 + ez + 105));
      try assumption; try lia.
    assert (2 ^ 105 = 2 ^ (- e2) * 2 ^ (e2 + 105)) as ->
      by (rewrite <- Z.pow_add_r by lia; f_equal; lia).
    rewrite Z.div_mul_cancel_r by lia. reflexivity. }
  unfold size_t_of_double.
  destruct (Z.leb_spec 0 e2); [lia|].
  rewrite Ecap.
  assert (0 <= 123 * n / 100 <= 123 * n) as Bq.
  { split; [apply Z.div_pos; lia|].
    apply Z.div_le_upper_bound; lia. }
  destruct (Z.ltb_spec (32 + 123 * n / 100) (2 ^ 64)); [reflexivity|lia].
Qed.

Lemma spec_blockLength_capacity n :
  (32 + 123 * n / 100) / 3 = spec_blockLength n.
Proof.
  unfold spec_blockLength.
  replace (3200 + 123 * n) with (32 * 100 + 123 * n) by lia.
  replace 300 with (100 * 3) by lia.
  rewrite <- Z.div_div by lia.
  rewrite Z.div_add_l by lia. reflexivity.
Qed.

Lemma spec_blockLength_range n :
  0 <= n < 2 ^ 44 -> 10 <= spec_blockLength n < 2 ^ 43.
Proof.
  intros Hn. unfold spec_blockLength. split.
  - apply Z.div_le_lower_bound; lia.
  - apply Z.div_lt_upper_bound; lia.
Qed.

Lemma malloc_cells_length W garbage bytes :
  length (map (fun i : nat => cell W (garbage i))
              (seq 0 (Z.to_nat bytes))) = Z.to_nat bytes.
Proof. rewrite length_map, length_seq. reflexivity. Qed.

Lemma xor8_allocate_eq m n filter :
  0 <= n < 2 ^ 44 ->
  xor8_allocate m n filter =
  match malloc_cells 8 m (3 * spec_blockLength n) with
  | Some cells =>
      Ok (true, Build_xor_t (seed filter) (spec_blockLength n) (Some cells))
  | None =>
      Ok (false, Build_xor_t (seed filter) (blockLength filter) None)
  end.
Proof.
  intros Hn. pose proof (spec_blockLength_range n Hn) as Hb.
  unfold xor8_allocate. rewrite capacity_for_exact by exact Hn.
  cbn [res_bind]. rewrite spec_blockLength_capacity.
  unfold sizeof_uint8_t. rewrite Z.mul_1_r.
  rewrite (u64_small (spec_blockLength n * 3)) by lia.
  rewrite (u64_small (spec_blockLength n * 3)) by lia.
  rewrite Z.div_mul by lia.
  replace (spec_blockLength n * 3) with (3 * spec_blockLength n) by lia.
  unfold set_fingerprints, set_blockLength.
  cbn [seed blockLength fingerprints].
  destruct (malloc_cells 8 m (3 * spec_blockLength n)); reflexivity.
Qed.

Lemma xor16_allocate_eq m n filter :
  0 <= n < 2 ^ 44 ->
  xor16_allocate m n filter =
  match malloc_cells 16 m (3 * spec_blockLength n * 2) with
  | Some cells =>
      Ok (true, Build_xor_t (seed filter) (spec_blockLength n) (Some cells))
  | None =>
      Ok (false, Build_xor_t (seed filter) (spec_blockLength n) None)
  end.
Proof.
  intros Hn. pose proof (spec_blockLength_range n Hn) as Hb.
  unfold xor16_allocate. rewrite capacity_for_exact by exact Hn.
  cbn [res_bind]. rewrite spec_blockLength_capacity.
  unfold sizeof_uint16_t.
  rewrite (u64_small (spec_blockLength n * 3)) by lia.
  rewrite (u64_small (spec_blockLength n * 3 * 2)) by lia.
  rewrite Z.div_mul by lia.
  replace (spec_blockLength n * 3) with (3 * spec_blockLength n) by lia.
  unfold set_fingerprints, set_blockLength.
  cbn [seed blockLength fingerprints].
  destruct (malloc_cells 16 m (3 * spec_blockLength n * 2)); reflexivity.
Qed.

(** C4, as amended: a successful [xor8_allocate], for every element
    count its 32-bit parameter can hold, and a successful
    [xor16_allocate], for every element count [n < 2^44], set
    [blockLength = floor((32 + 1.23 n)/3)] and allocate exactly
    [3 * blockLength] cells; for [n = 10] the block length is 14; either
    allocator returns false only when [malloc] returns the null
    pointer. *)
Theorem allocate_sizes m n filter :
  let b := spec_blockLength n in
  (0 <= n < 2 ^ 32 ->
   forall garbage, m = Some garbage ->
     exists cells8,
       xor8_allocate m n filter
         = Ok (true, Build_xor_t (seed filter) b (Some cells8)) /\
       Z.of_nat (length cells8) = 3 * b) /\
  (0 <= n < 2 ^ 44 ->
   forall garbage, m = Some garbage ->
     exists cells16,
       xor16_allocate m n filter
         = Ok (true, Build_xor_t (seed filter) b (Some cells16)) /\
       Z.of_nat (length cells16) = 3 * b) /\
  (forall f', xor8_allocate m n filter = Ok (false, f') -> m = None) /\
  (forall f', xor16_allocate m n filter = Ok (false, f') -> m = None) /\
  spec_blockLength 10 = 14.
Proof.
  intros b. split; [|split; [|split; [|split]]].
  - intros Hn garbage ->.
    assert (0 <= n < 2 ^ 44) as Hn' by lia.
    pose proof (spec_blockLength_range n Hn') as Hb. fold b in Hb.
    rewrite xor8_allocate_eq by exact Hn'. fold b.
    unfold malloc_cells. eexists. split; [reflexivity|].
    change (8 / 8) with 1. rewrite Z.div_1_r, malloc_cells_length. lia.
  - intros Hn garbage ->.
    pose proof (spec_blockLength_range n Hn) as Hb. fold b in Hb.
    rewrite xor16_allocate_eq by exact Hn. fold b.
    unfold malloc_cells. eexists. split; [reflexivity|].
    change (16 / 8) with 2. rewrite Z.div_mul by lia.
    rewrite malloc_cells_length. lia.
  - intros f'. unfold xor8_allocate.
    destruct (capacity_for n); cbn [res_bind]; try discriminate.
    destruct m; [discriminate|reflexivity].
  - intros f'. unfold xor16_allocate.
    destruct (capacity_for n); cbn [res_bind]; try discriminate.
    destruct m; [discriminate|reflexivity].
  - reflexivity.
Qed.

(** The hypotheses of [allocate_sizes] hold for ten elements. *)
Lemma allocate_sizes_witness :
  0 <= 10 < 2 ^ 32 /\
  0 <= 10 < 2 ^ 44 /\
  (exists cells8,
     xor8_allocate (Some garbage_a) 10 unallocated
       = Ok (true, Build_xor_t 0 14 (Some cells8)) /\
     Z.of_nat (length cells8) = 3 * 14) /\
  (exists cells16,
     xor16_allocate (Some garbage_a) 10 unallocated
       = Ok (true, Build_xor_t 0 14 (Some cells16)) /\
     Z.of_nat (length cells16) = 3 * 14).
Proof.
  assert (0 <= 10 < 2 ^ 32) as H1 by lia.
  assert (0 <= 10 < 2 ^ 44) as H2 by lia.
  pose (T := allocate_sizes (Some garbage_a) 10 unallocated).
  exact (conj H1 (conj H2
           (conj (proj1 T H1 garbage_a eq_refl)
                 (proj1 (proj2 T) H2 garbage_a eq_refl)))).
Defined.

(** C4, as stated, fails for [xor16_allocate], whose element count is a
    [size_t]: for 114420722240113 elements the [double] value of
    [32 + 1.23 * size] is 140737488355371, one more than the integer
    part of the exact value, and the block length is one more than
    [floor((32 + 1.23 n)/3)]. *)
Lemma allocate_sizes_counterexample :
  (exists cells,
     xor16_allocate (Some zeroed) 114420722240113 unallocated
       = Ok (true, Build_xor_t 0 46912496118457 (Some cells))) /\
  spec_blockLength 114420722240113 = 46912496118456.
Proof.
  split; [|reflexivity].
  assert (capacity_for 114420722240113 = Ok 140737488355371) as Hc
    by (vm_compute; reflexivity).
  unfold xor16_allocate. rewrite Hc. cbn [res_bind].
  change (140737488355371 / 3) with 46912496118457.
  unfold malloc_cells, set_fingerprints, set_blockLength.
  cbn [seed blockLength fingerprints unallocated].
  eexists. reflexivity.
Qed.

(** C10, as amended: when [malloc] fails, [xor16_allocate] returns false
    with [blockLength] already overwritten by the third of the capacity
    it computed, which for [n < 2^44] is [floor((32 + 1.23 n)/3)];
    [xor8_allocate] returns false with [blockLength] unchanged.  Both
    leave the null pointer in [fingerprints] and keep the seed. *)
Theorem allocate_failure n filter :
  (forall c, capacity_for n = Ok c ->
     xor16_allocate None n filter
       = Ok (false, Build_xor_t (seed filter) (c / 3) None) /\
     xor8_allocate None n filter
       = Ok (false, Build_xor_t (seed filter) (blockLength filter) None)) /\
  (0 <= n < 2 ^ 44 ->
     xor16_allocate None n filter
       = Ok (false, Build_xor_t (seed filter) (spec_blockLength n) None) /\
     xor8_allocate None n filter
       = Ok (false, Build_xor_t (seed filter) (blockLength filter) None)).
Proof.
  split.
  - intros c Hc. unfold xor16_allocate, xor8_allocate. rewrite Hc.
    cbn [res_bind malloc_cells]. split; reflexivity.
  - intros Hn. rewrite xor8_allocate_eq, xor16_allocate_eq by exact Hn.
    cbn [malloc_cells]. split; reflexivity.
Qed.

(** The hypotheses of [allocate_failure] hold for ten elements and a
    filter whose block length was 7. *)
Lemma allocate_failure_witness :
  capacity_for 10 = Ok 44 /\
  0 <= 10 < 2 ^ 44 /\
  xor16_allocate None 10 (Build_xor_t 1 7 None)
    = Ok (false, Build_xor_t 1 14 None) /\
  xor8_allocate None 10 (Build_xor_t 1 7 None)
    = Ok (false, Build_xor_t 1 7 None).
Proof.
  assert (capacity_for 10 = Ok 44) as H1 by (vm_compute; reflexivity).
  assert (0 <= 10 < 2 ^ 44) as H2 by lia.
  pose (T := allocate_failure 10 (Build_xor_t 1 7 None)).
  exact (conj H1 (conj H2 (conj (proj1 (proj1 T 44 H1)) (proj2 (proj2 T H2))))).
Defined.

(** C10, as stated, fails for 114420722240113 elements: the failed
    [xor16_allocate] leaves the block length 46912496118457, while
    [floor((32 + 1.23 n)/3)] is 46912496118456. *)
Lemma allocate_failure_counterexample :
  xor16_allocate None 114420722240113 unallocated
    = Ok (false, Build_xor_t 0 46912496118457 None) /\
  spec_blockLength 114420722240113 = 46912496118456.
Proof. split; vm_compute; reflexivity. Qed.

(** * Further properties of the hash kernel *)

(** ** The mixing steps are one-to-one *)

(** [x ^ (x >> s)] determines [x]: the top [s] bits are copied, and each
    lower bit is recovered from the one [s] places above it. *)
Lemma xorshift_inj s x y :
  0 < s -> 0 <= x < 2 ^ 64 -> 0 <= y < 2 ^ 64 ->
  Z.lxor x (Z.shiftr x s) = Z.lxor y (Z.shiftr y s) -> x = y.
Proof.
  intros Hs Hx Hy H.
  assert (forall k n, 64 - Z.of_nat k <= n -> 0 <= n ->
            Z.testbit x n = Z.testbit y n) as Hbits.
  { induction k as [|k IH]; intros n Hn Hn0.
    - rewrite (testbit_above 64 x n), (testbit_above 64 y n) by lia.
      reflexivity.
    - pose proof (f_equal (fun z => Z.testbit z n) H) as Hb.
      cbv beta in Hb.
      rewrite !Z.lxor_spec, !Z.shiftr_spec in Hb by lia.
      rewrite (IH (n + s)) in Hb by lia.
      destruct (Z.testbit x n), (Z.testbit y n), (Z.testbit y (n + s));
        (reflexivity || discriminate Hb). }
  apply Z.bits_inj'. intros n Hn. apply (Hbits 64%nat); lia.
Qed.

(** Multiplication by a constant that has an inverse modulo [2^64]. *)
Lemma mul_inj c c' x y :
  u64 (c * c') = 1 -> 0 <= x < 2 ^ 64 -> 0 <= y < 2 ^ 64 ->
  u64 (x * c) = u64 (y * c) -> x = y.
Proof.
  intros Hc Hx Hy H.
  assert (forall z, 0 <= z < 2 ^ 64 -> z = u64 (u64 (z * c) * c')) as Hinv.
  { intros z Hz. unfold u64 in *.
    rewrite Z.mul_mod_idemp_l by lia.
    rewrite <- Z.mul_assoc, <- Z.mul_mod_idemp_r, Hc by lia.
    rewrite Z.mul_1_r, Z.mod_small by lia. reflexivity. }
  rewrite (Hinv x Hx), (Hinv y Hy), H. reflexivity.
Qed.

Lemma xorshift_range s x :
  0 <= s -> 0 <= x < 2 ^ 64 -> 0 <= Z.lxor x (Z.shiftr x s) < 2 ^ 64.
Proof.
  intros Hs Hx. apply (lxor_range 64); [lia|exact Hx|].
  apply shiftr_range; assumption.
Qed.

(** X1: [xor_murmur64] is one-to-one on 64-bit values, so under one seed
    two keys have the same hash only when they are the same 64-bit
    value: [xor_mix_split] never makes two different keys collide. *)
Theorem xor_mix_split_injective :
  (forall x y, 0 <= x < 2 ^ 64 -> 0 <= y < 2 ^ 64 ->
     xor_murmur64 x = xor_murmur64 y -> x = y) /\
  (forall k1 k2 seed, 0 <= k1 < 2 ^ 64 -> 0 <= k2 < 2 ^ 64 ->
     xor_mix_split k1 seed = xor_mix_split k2 seed -> k1 = k2).
Proof.
  assert (forall x y, 0 <= x < 2 ^ 64 -> 0 <= y < 2 ^ 64 ->
            xor_murmur64 x = xor_murmur64 y -> x = y) as Hm.
  { intros x y Hx Hy. unfold xor_murmur64. cbv zeta. intros H.
    apply xorshift_inj in H; [|lia|apply u64_range..].
    apply (mul_inj _ 0x9cb4b2f8129337db) in H;
      [|by_eval|apply xorshift_range; [lia|apply u64_range]..].
    apply xorshift_inj in H; [|lia|apply u64_range..].
    apply (mul_inj _ 0x4f74430c22a54005) in H;
      [|by_eval|apply xorshift_range; [lia|assumption]..].
    apply xorshift_inj in H; [exact H|lia|assumption..]. }
  split; [exact Hm|].
  intros k1 k2 seed H1 H2 H. unfold xor_mix_split in H.
  apply Hm in H; [|apply u64_range..].
  unfold u64 in H.
  assert ((k1 + seed - seed) mod 2 ^ 64 = (k2 + seed - seed) mod 2 ^ 64)
    as E.
  { rewrite <- (Zminus_mod_idemp_l (k1 + seed)), H, Zminus_mod_idemp_l.
    reflexivity. }
  rewrite !Z.add_simpl_r, !Z.mod_small in E by lia. exact E.
Qed.

(** The hypotheses of [xor_mix_split_injective] hold for a key compared
    with itself. *)
Lemma xor_mix_split_injective_witness :
  0 <= 7 < 2 ^ 64 /\ (7 : Z) = 7.
Proof.
  assert (0 <= 7 < 2 ^ 64) as H by lia.
  exact (conj H (proj2 xor_mix_split_injective 7 7 1 H H eq_refl)).
Defined.

(** ** The generator of seeds *)

Lemma xor_rng_splitmix64_counter c :
  snd (xor_rng_splitmix64 c) = u64 (c + 0x9E3779B97F4A7C15).
Proof. reflexivity. Qed.

(** The value returned depends on the counter modulo [2^64] only. *)
Lemma xor_rng_splitmix64_u64 c :
  xor_rng_splitmix64 (u64 c) = xor_rng_splitmix64 c.
Proof. unfold xor_rng_splitmix64. rewrite u64_add_l. reflexivity. Qed.

Lemma nth_random_counter n : forall c,
  nth_random n c
  = fst (xor_rng_splitmix64 (u64 (c + Z.of_nat n * 0x9E3779B97F4A7C15))).
Proof.
  induction n as [|n IH]; intros c; cbn [nth_random].
  - rewrite Z.mul_0_l, Z.add_0_r, xor_rng_splitmix64_u64. reflexivity.
  - rewrite IH, xor_rng_splitmix64_counter, u64_add_l.
    do 3 f_equal. lia.
Qed.

(** The output function of splitmix64 is one-to-one in the counter. *)
Lemma xor_rng_splitmix64_inj a b :
  fst (xor_rng_splitmix64 a) = fst (xor_rng_splitmix64 b) ->
  u64 (a + 0x9E3779B97F4A7C15) = u64 (b + 0x9E3779B97F4A7C15).
Proof.
  unfold xor_rng_splitmix64. cbv zeta. cbn [fst]. intros H.
  apply xorshift_inj in H; [|lia|apply u64_range..].
  apply (mul_inj _ 0x319642b2d24d8ec3) in H;
    [|by_eval|apply xorshift_range; [lia|apply u64_range]..].
  apply xorshift_inj in H; [|lia|apply u64_range..].
  apply (mul_inj _ 0x96de1b173f119089) in H;
    [|by_eval|apply xorshift_range; [lia|apply u64_range]..].
  apply xorshift_inj in H; [exact H|lia|apply u64_range..].
Qed.

(** X2: the seeds drawn from one counter do not repeat: the [i]-th and
    the [j]-th value returned by [xor_rng_splitmix64] differ whenever
    [i < j < i + 2^64], so a retry of the construction always tries a
    seed it has not tried before. *)
Theorem seeds_never_repeat (i j : nat) (rng_counter : Z) :
  (i < j)%nat -> Z.of_nat j - Z.of_nat i < 2 ^ 64 ->
  nth_random i rng_counter <> nth_random j rng_counter.
Proof.
  intros Hij Hj H. rewrite !nth_random_counter in H.
  apply xor_rng_splitmix64_inj in H.
  rewrite !u64_add_l in H.
  set (g := 0x9E3779B97F4A7C15) in *.
  set (d := Z.of_nat j - Z.of_nat i) in *.
  assert (u64 (d * g) = u64 (0 * g)) as E.
  { unfold u64 in *.
    replace (d * g)
      with (rng_counter + Z.of_nat j * g + g
            - (rng_counter + Z.of_nat i * g + g)) by (unfold d; lia).
    rewrite <- Zminus_mod_idemp_l, <- H, Zminus_mod_idemp_l.
    rewrite Z.sub_diag. reflexivity. }
  apply (mul_inj g 0xf1de83e19937733d) in E; [|by_eval|lia..].
  lia.
Qed.

(** The hypotheses of [seeds_never_repeat] hold for the first two seeds
    of a construction. *)
Lemma seeds_never_repeat_witness :
  (0 < 1)%nat /\ Z.of_nat 1 - Z.of_nat 0 < 2 ^ 64 /\
  nth_random 0 1 <> nth_random 1 1.
Proof.
  assert (0 < 1)%nat as H1 by lia.
  assert (Z.of_nat 1 - Z.of_nat 0 < 2 ^ 64) as H2 by (vm_compute; reflexivity).
  exact (conj H1 (conj H2 (seeds_never_repeat 0 1 1 H1 H2))).
Defined.

(** ** Rotation *)

Lemma land_63 c : Z.land c 63 = c mod 64.
Proof. change 63 with (Z.ones 6). rewrite Z.land_ones by lia. reflexivity. Qed.

Lemma u32_mod_64 c : u32 c mod 64 = c mod 64.
Proof.
  unfold u32. apply Z.mod_mod_divide. exists (2 ^ 26). reflexivity.
Qed.

Lemma lor_range n a b :
  0 <= n -> 0 <= a < 2 ^ n -> 0 <= b < 2 ^ n -> 0 <= Z.lor a b < 2 ^ n.
Proof.
  intros Hn Ha Hb.
  assert (Z.lor a b = Z.lor a b mod 2 ^ n) as ->.
  { apply Z.bits_inj'. intros i Hi.
    rewrite Z.testbit_mod_pow2, Z.lor_spec by lia.
    destruct (Z.ltb_spec i n); [reflexivity|].
    rewrite (testbit_above n a i), (testbit_above n b i) by lia.
    reflexivity. }
  apply Z.mod_pos_bound. lia.
Qed.

Lemma xor_rotl64_range n c : 0 <= n < 2 ^ 64 -> 0 <= xor_rotl64 n c < 2 ^ 64.
Proof.
  intros Hn. unfold xor_rotl64.
  apply (lor_range 64); [lia|apply u64_range|].
  apply shiftr_range; [|exact Hn]. rewrite land_63.
  apply Z.mod_pos_bound. lia.
Qed.

Lemma xor_rotl64_testbit n c i :
  0 <= n < 2 ^ 64 -> 0 <= i < 64 ->
  Z.testbit (xor_rotl64 n c) i = Z.testbit n ((i - c) mod 64).
Proof.
  intros Hn Hi. unfold xor_rotl64.
  rewrite !land_63, u32_mod_64.
  pose proof (Z.mod_pos_bound c 64 ltac:(lia)) as Ha.
  rewrite Z.lor_spec. unfold u64.
  rewrite Z.mod_pow2_bits_low by lia.
  rewrite Z.shiftl_spec, Z.shiftr_spec by lia.
  destruct (Z.eq_dec (c mod 64) 0) as [E0 | Hne].
  - assert ((- c) mod 64 = 0) as -> by (apply Z.mod_opp_l_z; lia).
    assert ((i - c) mod 64 = i) as ->.
    { rewrite Zminus_mod, E0, Z.sub_0_r, Z.mod_mod, Z.mod_small by lia.
      reflexivity. }
    rewrite E0, Z.sub_0_r, Z.add_0_r. apply orb_diag.
  - assert ((- c) mod 64 = 64 - c mod 64) as -> by (apply Z.mod_opp_l_nz; lia).
    destruct (Z_lt_dec i (c mod 64)) as [Hlt | Hge].
    + rewrite (Z.testbit_neg_r n (i - c mod 64)) by lia.
      cbn [orb]. f_equal.
      rewrite Zminus_mod, (Z.mod_small i 64) by lia.
      apply (Z.mod_unique_pos _ _ (-1)); lia.
    + rewrite (testbit_above 64 n (i + (64 - c mod 64))) by lia.
      rewrite orb_false_r. f_equal.
      rewrite Zminus_mod, (Z.mod_small i 64) by lia.
      symmetry. apply Z.mod_small. lia.
Qed.

(** X3: [xor_rotl64] rotates the 64 bits of its argument for every count
    [c] (no shift by 64 or more is ever executed): bit [i] of the result
    is bit [(i - c) mod 64] of the argument; a count that is a multiple
    of 64 gives the argument back, and rotating by [-c] undoes rotating
    by [c]. *)
Theorem xor_rotl64_rotates n c :
  0 <= n < 2 ^ 64 ->
  0 <= xor_rotl64 n c < 2 ^ 64 /\
  (forall i, 0 <= i < 64 ->
     Z.testbit (xor_rotl64 n c) i = Z.testbit n ((i - c) mod 64)) /\
  (c mod 64 = 0 -> xor_rotl64 n c = n) /\
  xor_rotl64 (xor_rotl64 n c) (u32 (- c)) = n.
Proof.
  intros Hn. pose proof (xor_rotl64_range n c Hn) as Hr.
  pose proof (xor_rotl64_range _ (u32 (- c)) Hr) as Hrr.
  assert (forall a b, 0 <= a < 2 ^ 64 -> 0 <= b < 2 ^ 64 ->
            (forall i, 0 <= i < 64 -> Z.testbit a i = Z.testbit b i) ->
            a = b) as Hext.
  { intros a b Ha Hb H. apply Z.bits_inj'. intros i Hi.
    destruct (Z_lt_dec i 64); [apply H; lia|].
    rewrite (testbit_above 64 a i), (testbit_above 64 b i) by lia.
    reflexivity. }
  split; [exact Hr|]. split; [|split].
  - intros i Hi. apply xor_rotl64_testbit; assumption.
  - intros Hc. apply Hext; [assumption..|]. intros i Hi.
    rewrite xor_rotl64_testbit by assumption. f_equal.
    rewrite Zminus_mod, Hc, Z.sub_0_r, Z.mod_mod, Z.mod_small by lia.
    reflexivity.
  - apply Hext; [assumption..|]. intros i Hi.
    rewrite xor_rotl64_testbit by assumption.
    rewrite xor_rotl64_testbit
      by (assumption || (apply Z.mod_pos_bound; lia)).
    f_equal.
    rewrite Zminus_mod_idemp_l. unfold u32.
    rewrite (Z.mod_eq (- c) (2 ^ 32)) by lia.
    symmetry. apply (Z.mod_unique_pos _ _ (2 ^ 26 * (- c / 2 ^ 32))); lia.
Qed.

(** The hypotheses of [xor_rotl64_rotates] hold for a rotation by 21. *)
Lemma xor_rotl64_rotates_witness :
  0 <= 0x0123456789ABCDEF < 2 ^ 64 /\
  xor_rotl64 (xor_rotl64 0x0123456789ABCDEF 21) (u32 (- 21))
    = 0x0123456789ABCDEF.
Proof.
  assert (0 <= 0x0123456789ABCDEF < 2 ^ 64) as H by lia.
  exact (conj H (proj2 (proj2 (proj2
           (xor_rotl64_rotates 0x0123456789ABCDEF 21 H))))).
Defined.

(** ** Range reduction *)

(** X4: for a 32-bit block length [n >= 1], [xor_reduce] maps the 32-bit
    hashes onto [[0, n)]: it does not decrease when the hash grows, it
    sends 0 to 0 and [2^32 - 1] to [n - 1], and every index below [n] is
    the image of some hash, so every cell of a block can be selected. *)
Theorem xor_reduce_onto n :
  1 <= n < 2 ^ 32 ->
  (forall r r', 0 <= r <= r' -> r' < 2 ^ 32 ->
     xor_reduce r n <= xor_reduce r' n) /\
  xor_reduce 0 n = 0 /\
  xor_reduce (2 ^ 32 - 1) n = n - 1 /\
  (forall j, 0 <= j < n ->
     exists r, 0 <= r < 2 ^ 32 /\ xor_reduce r n = j).
Proof.
  intros Hn. split; [|split; [|split]].
  - intros r r' Hr Hr'. rewrite !xor_reduce_div by lia.
    apply Z.div_le_mono; [lia|nia].
  - rewrite xor_reduce_div by lia. reflexivity.
  - rewrite xor_reduce_div by lia.
    symmetry. apply (Z.div_unique_pos _ _ _ (2 ^ 32 - n)); lia.
  - intros j Hj.
    set (r := (j * 2 ^ 32 + n - 1) / n).
    assert (0 <= r < 2 ^ 32) as Hr.
    { unfold r. split; [apply Z.div_pos; nia|].
      apply Z.div_lt_upper_bound; nia. }
    exists r. split; [exact Hr|].
    rewrite xor_reduce_div by lia.
    pose proof (Z.mul_div_le (j * 2 ^ 32 + n - 1) n ltac:(lia)) as Hlo.
    pose proof (Z.mul_succ_div_gt (j * 2 ^ 32 + n - 1) n ltac:(lia)) as Hhi.
    fold r in Hlo, Hhi.
    symmetry. apply (Z.div_unique_pos _ _ _ (r * n - j * 2 ^ 32)); lia.
Qed.

(** The hypothesis of [xor_reduce_onto] holds for the block length 14:
    some hash selects cell 13. *)
Lemma xor_reduce_onto_witness :
  1 <= 14 < 2 ^ 32 /\
  exists r, 0 <= r < 2 ^ 32 /\ xor_reduce r 14 = 13.
Proof.
  assert (1 <= 14 < 2 ^ 32) as H by lia.
  assert (0 <= 13 < 14) as H' by lia.
  exact (conj H (proj2 (proj2 (proj2 (xor_reduce_onto 14 H))) 13 H')).
Defined.

(** * Further properties of the construction *)

(** ** Distinct indices below a bound *)

Lemma NoDup_below_length (B : Z) (l : list Z) :
  List.NoDup l -> Forall (below B) l -> (length l <= Z.to_nat B)%nat.
Proof.
  intros Hnd Hb.
  assert (List.NoDup (map Z.to_nat l)) as Hnd'.
  { induction l as [|a l IH]; cbn [map]; [constructor|].
    apply List.NoDup_cons_iff in Hnd as [Ha Hnd].
    apply Forall_cons in Hb as [Hab Hb].
    constructor; [|apply IH; assumption].
    intros Hin. apply in_map_iff in Hin as (y & Hy & Hin).
    apply Ha. replace a with y; [exact Hin|].
    rewrite List.Forall_forall in Hb. specialize (Hb y Hin).
    unfold below in *. lia. }
  assert (incl (map Z.to_nat l) (seq 0 (Z.to_nat B))) as Hincl.
  { intros x Hx. apply in_map_iff in Hx as (y & <- & Hy).
    rewrite List.Forall_forall in Hb.
    specialize (Hb y Hy). unfold below in Hb.
    apply in_seq. lia. }
  pose proof (List.NoDup_incl_length Hnd' Hincl) as H.
  rewrite length_map, length_seq in H. exact H.
Qed.

Lemma NoDup_nat_below_length (B : nat) (l : list nat) :
  List.NoDup l -> (forall x, In x l -> (x < B)%nat) -> (length l <= B)%nat.
Proof.
  intros Hnd Hb.
  assert (incl l (seq 0 B)) as Hincl.
  { intros x Hx. apply in_seq. specialize (Hb x Hx). lia. }
  pose proof (List.NoDup_incl_length Hnd Hincl) as H.
  rewrite length_seq in H. exact H.
Qed.

(** ** The scratch arrays are never overrun *)

Lemma xorset_add_ok B sets i hash :
  below B i -> Z.of_nat (length sets) = B ->
  exists sets', xorset_add sets i hash = Ok sets' /\
                length sets' = length sets.
Proof.
  intros Hi Hlen. unfold xorset_add, read, write.
  destruct (lookup_lt_is_Some_2 sets (Z.to_nat i)) as [x Hx];
    [unfold below in Hi; lia|].
  rewrite Hx. cbn [res_bind]. eexists. split; [reflexivity|].
  apply length_insert.
Qed.

Lemma xorset_remove_ok B sets i hash :
  below B i -> Z.of_nat (length sets) = B ->
  exists sets', xorset_remove sets i hash = Ok sets' /\
                length sets' = length sets.
Proof.
  intros Hi Hlen. unfold xorset_remove, read, write.
  destruct (lookup_lt_is_Some_2 sets (Z.to_nat i)) as [x Hx];
    [unfold below in Hi; lia|].
  rewrite Hx. cbn [res_bind]. eexists. split; [reflexivity|].
  apply length_insert.
Qed.

(** The seeds of the retry loop. *)
Lemma set_seed_seed f : set_seed f (seed f) = f.
Proof. destruct f. reflexivity. Qed.

Lemma tried_next rng i :
  tried (fst (xor_rng_splitmix64 rng)) (snd (xor_rng_splitmix64 rng)) i
  = nth_random i rng.
Proof. destruct i; reflexivity. Qed.

Lemma set_seed_set_seed f s s' : set_seed (set_seed f s) s' = set_seed f s'.
Proof. reflexivity. Qed.

Section PopulateSafe.
Variable W : Z.
Variable get : Z -> xor_t -> xor_hashes_t.
Variable get_just : Z -> xor_t -> xor_h0h1h2_t.

Hypothesis get_consistent : forall k f,
  xor_hashes_s.h0 (get k f)
    = xor_h0h1h2_s.h0 (get_just (xor_hashes_s.h (get k f)) f) /\
  xor_hashes_s.h1 (get k f)
    = xor_h0h1h2_s.h1 (get_just (xor_hashes_s.h (get k f)) f) /\
  xor_hashes_s.h2 (get k f)
    = xor_h0h1h2_s.h2 (get_just (xor_hashes_s.h (get k f)) f).

Section AttemptSafe.
Variable filter : xor_t.
Variable B : Z.
Local Abbreviation slots := (slots_of get_just filter).

(** The three indices of a hash are inside the array and pairwise
    different. *)
Hypothesis slots_below : indices_below B slots.
Hypothesis slots_distinct : forall s hash, occ slots s hash <= 1.

Lemma occ_h0 hash :
  1 <= occ slots (Z.to_nat (xor_h0h1h2_s.h0 (slots hash))) hash.
Proof.
  unfold occ, occ1 at 1. rewrite Nat.eqb_refl.
  pose proof (occ1_range (xor_h0h1h2_s.h1 (slots hash))
                (Z.to_nat (xor_h0h1h2_s.h0 (slots hash)))).
  pose proof (occ1_range (xor_h0h1h2_s.h2 (slots hash))
                (Z.to_nat (xor_h0h1h2_s.h0 (slots hash)))).
  lia.
Qed.

Lemma occ_h1 hash :
  1 <= occ slots (Z.to_nat (xor_h0h1h2_s.h1 (slots hash))) hash.
Proof.
  unfold occ, occ1 at 2. rewrite Nat.eqb_refl.
  pose proof (occ1_range (xor_h0h1h2_s.h0 (slots hash))
                (Z.to_nat (xor_h0h1h2_s.h1 (slots hash)))).
  pose proof (occ1_range (xor_h0h1h2_s.h2 (slots hash))
                (Z.to_nat (xor_h0h1h2_s.h1 (slots hash)))).
  lia.
Qed.

Lemma occ_h2 hash :
  1 <= occ slots (Z.to_nat (xor_h0h1h2_s.h2 (slots hash))) hash.
Proof.
  unfold occ, occ1 at 3. rewrite Nat.eqb_refl.
  pose proof (occ1_range (xor_h0h1h2_s.h0 (slots hash))
                (Z.to_nat (xor_h0h1h2_s.h2 (slots hash)))).
  pose proof (occ1_range (xor_h0h1h2_s.h1 (slots hash))
                (Z.to_nat (xor_h0h1h2_s.h2 (slots hash)))).
  lia.
Qed.

Lemma slots_differ hash :
  xor_h0h1h2_s.h0 (slots hash) <> xor_h0h1h2_s.h1 (slots hash) /\
  xor_h0h1h2_s.h0 (slots hash) <> xor_h0h1h2_s.h2 (slots hash) /\
  xor_h0h1h2_s.h1 (slots hash) <> xor_h0h1h2_s.h2 (slots hash).
Proof.
  pose proof (slots_distinct (Z.to_nat (xor_h0h1h2_s.h0 (slots hash))) hash)
    as H0.
  pose proof (slots_distinct (Z.to_nat (xor_h0h1h2_s.h1 (slots hash))) hash)
    as H1.
  unfold occ, occ1 in H0, H1.
  rewrite Nat.eqb_refl in H0, H1.
  repeat split; intros E; rewrite <- ?E, ?E, ?Nat.eqb_refl in *;
    repeat match goal with
           | H : context [Nat.eqb ?a ?b] |- _ => destruct (Nat.eqb a b)
           end; lia.
Qed.

Lemma add_keys_safe keys : forall sets,
  Z.of_nat (length sets) = B ->
  exists sets', add_keys get filter keys sets = Ok sets' /\
                length sets' = length sets.
Proof.
  induction keys as [|k keys IH]; intros sets Hlen; cbn [add_keys];
    [eauto|].
  destruct (get_consistent k filter) as (C0 & C1 & C2).
  rewrite C0, C1, C2.
  destruct (slots_below (xor_hashes_s.h (get k filter))) as (B0 & B1 & B2).
  unfold slots_of in B0, B1, B2.
  destruct (xorset_add_ok B sets _ (xor_hashes_s.h (get k filter)) B0 Hlen)
    as (s1 & -> & L1).
  cbn [res_bind].
  destruct (xorset_add_ok B s1 _ (xor_hashes_s.h (get k filter)) B1
              ltac:(lia)) as (s2 & -> & L2).
  cbn [res_bind].
  destruct (xorset_add_ok B s2 _ (xor_hashes_s.h (get k filter)) B2
              ltac:(lia)) as (s3 & -> & L3).
  cbn [res_bind].
  destruct (IH s3 ltac:(lia)) as (s4 & -> & L4).
  eexists. split; [reflexivity|lia].
Qed.

(** The scan enqueues each index at most once. *)
Lemma scan_safe sets : forall n i Q,
  Z.of_nat (length sets) = B ->
  0 <= i -> i + Z.of_nat n <= B ->
  List.NoDup Q -> Forall (below i) Q ->
  exists Q', scan n i B sets Q = Ok Q' /\
             List.NoDup Q' /\ Forall (below (i + Z.of_nat n)) Q'.
Proof.
  induction n as [|n IH]; intros i Q Hlen Hi Hn Hnd Hb; cbn [scan].
  - exists Q. rewrite Z.add_0_r. auto.
  - unfold enqueue_if_single.
    destruct (read_Some A_sets sets i) as (a & _ & ->); [lia|].
    cbn [res_bind].
    assert (Forall (below (i + 1)) Q) as Hb'.
    { eapply Forall_impl; [exact Hb|]. unfold below. intros; lia. }
    assert (exists Q1, (if xor_xorset_s.count a =? 1
                        then push A_Q B Q i else Ok Q) = Ok Q1 /\
                       List.NoDup Q1 /\ Forall (below (i + 1)) Q1)
      as (Q1 & -> & Hnd1 & Hb1).
    { destruct (_ =? _); [|eauto].
      pose proof (NoDup_below_length i Q Hnd Hb) as HlenQ.
      unfold push.
      destruct (Z.ltb_spec (Z.of_nat (length Q)) B); [|lia].
      eexists. split; [reflexivity|]. split.
      - constructor; [|exact Hnd]. intros Hin.
        rewrite List.Forall_forall in Hb.
        specialize (Hb i Hin). unfold below in Hb. lia.
      - constructor; [unfold below; lia|exact Hb']. }
    cbn [res_bind].
    destruct (IH (i + 1) Q1 Hlen ltac:(lia) ltac:(lia) Hnd1 Hb1)
      as (Q' & -> & Hnd' & Hb'').
    exists Q'. split; [reflexivity|]. split; [exact Hnd'|].
    replace (i + Z.of_nat (S n)) with (i + 1 + Z.of_nat n) by lia.
    exact Hb''.
Qed.

(** An index whose count has just become one is not in the queue. *)
Lemma enqueue_if_single_safe rem sets Q j :
  Z.of_nat (length sets) = B -> below B j ->
  3 * Z.of_nat (length rem) < 2 ^ 64 ->
  sets_inv slots rem sets ->
  queue_inv slots rem Q ->
  List.NoDup Q -> Forall (below B) Q ->
  (CNT slots (Z.to_nat j) rem = 1 -> ~ In j Q) ->
  exists Q', enqueue_if_single B sets Q j = Ok Q' /\
             queue_inv slots rem Q' /\
             List.NoDup Q' /\ Forall (below B) Q' /\
             forall i, In i Q' -> In i Q \/ i = j.
Proof.
  intros Hlen Hj Hb Hinv HQ Hnd Hbel Hfresh.
  assert (exists Q', enqueue_if_single B sets Q j = Ok Q' /\
            List.NoDup Q' /\ Forall (below B) Q' /\
            forall i, In i Q' -> In i Q \/ i = j) as (Q' & E & H1 & H2 & H3).
  { unfold enqueue_if_single.
    destruct (read_Some A_sets sets j) as (a & La & ->);
      [unfold below in Hj; lia|].
    cbn [res_bind].
    destruct (Z.eqb_spec (xor_xorset_s.count a) 1) as [E1|]; [|eauto 6].
    destruct (Hinv _ _ La) as [Hc _].
    pose proof (CNT_range slots (Z.to_nat j) rem).
    rewrite Hc, u64_small in E1 by lia.
    specialize (Hfresh E1).
    assert (List.NoDup (j :: Q)) as Hnd' by (constructor; assumption).
    assert (Forall (below B) (j :: Q)) as Hbel'
      by (constructor; assumption).
    pose proof (NoDup_below_length B _ Hnd' Hbel') as HlenQ.
    cbn [length] in HlenQ. unfold below in Hj.
    unfold push.
    destruct (Z.ltb_spec (Z.of_nat (length Q)) B); [|lia].
    eexists. split; [reflexivity|]. split; [exact Hnd'|].
    split; [exact Hbel'|].
    intros i [<- | Hi]; auto. }
  exists Q'. split; [exact E|].
  split; [|auto].
  eapply enqueue_if_single_inv; eauto.
Qed.

(** The peeling loop stays inside [sets], [Q] and [stack]: [Q] never
    holds an index twice, and [stack] grows by one entry per key. *)
Lemma peel_safe N : forall gas rem sets Q stack,
  Z.of_nat (length sets) = B ->
  3 * Z.of_nat (length rem) < 2 ^ 64 ->
  (length rem + length stack = N)%nat ->
  sets_inv slots rem sets ->
  queue_inv slots rem Q ->
  List.NoDup Q -> Forall (below B) Q ->
  forall u,
    peel get_just gas filter B (Z.of_nat N) sets Q stack <> Fault u.
Proof.
  induction gas as [|gas IH];
    intros rem sets Q stack Hlen Hb HN Hinv HQ Hnd Hbel u;
    destruct Q as [|index Q]; cbn [peel]; try discriminate.
  apply List.NoDup_cons_iff in Hnd as [Hnotin Hnd].
  apply Forall_cons in Hbel as [Hidx Hbel].
  destruct (read_Some A_sets sets index) as (a & La & ->);
    [unfold below in Hidx; lia|].
  cbn [res_bind].
  destruct (Hinv _ _ La) as [Hc Hm].
  pose proof (CNT_range slots (Z.to_nat index) rem) as Hr.
  pose proof (HQ index (or_introl eq_refl)) as Hle.
  rewrite u64_small in Hc by lia.
  destruct (Z.eqb_spec (xor_xorset_s.count a) 0) as [Ez | Hnz].
  { apply IH with (rem := rem); auto.
    intros i Hi. apply HQ. right. exact Hi. }
  destruct (CNT_1_unique slots (Z.to_nat index) rem)
    as (rem1 & hash & rem2 & -> & Ho & Hc0 & Hmask); [lia|].
  assert (xor_xorset_s.xormask a = hash) as -> by congruence.
  clear Hm Hc Hle Hr Hnz.
  rewrite length_app in HN. cbn [length] in HN.
  unfold push at 1.
  destruct (Z.ltb_spec (Z.of_nat (length stack)) (Z.of_nat N)); [|lia].
  cbn [res_bind].
  destruct (slots_below hash) as (B0 & B1 & B2).
  pose proof (occ_h0 hash) as O0.
  pose proof (occ_h1 hash) as O1.
  pose proof (occ_h2 hash) as O2.
  destruct (slots_differ hash) as (D01 & D02 & D12).
  unfold slots_of in B0, B1, B2, O0, O1, O2, D01, D02, D12.
  set (hs := get_just hash filter) in *.
  destruct (xorset_remove_ok B sets _ hash B0 Hlen) as (s1 & E1 & L1).
  rewrite E1. cbn [res_bind].
  destruct (xorset_remove_ok B s1 _ hash B1 ltac:(lia)) as (s2 & E2 & L2).
  rewrite E2. cbn [res_bind].
  destruct (xorset_remove_ok B s2 _ hash B2 ltac:(lia)) as (s3 & E3 & L3).
  rewrite E3. cbn [res_bind].
  destruct (xorset_remove_agree _ _ _ _ _ _ Hinv E1) as [_ A1].
  destruct (xorset_remove_agree _ _ _ _ _ _ A1 E2) as [_ A2].
  destruct (xorset_remove_agree _ _ _ _ _ _ A2 E3) as [_ A3].
  assert (sets_inv slots (rem1 ++ rem2) s3) as I3.
  { intros s x Hx. destruct (A3 s x Hx) as [-> ->].
    rewrite (CNT_remove slots s rem1 hash rem2).
    rewrite (MSK_remove slots s rem1 hash rem2).
    unfold occ, msk, slots_of. fold hs.
    split; [f_equal; lia|lxor_bits]. }
  assert (3 * Z.of_nat (length (rem1 ++ rem2)) < 2 ^ 64) as Hb'.
  { rewrite length_app in *. cbn [length] in Hb. lia. }
  pose proof (queue_inv_shrink _ _ _ _ _ Q
                (fun i Hi => HQ i (or_intror Hi))) as HQ0.
  assert (forall j, 1 <= occ slots (Z.to_nat j) hash ->
            CNT slots (Z.to_nat j) (rem1 ++ rem2) = 1 -> ~ In j Q)
    as Hfresh.
  { intros j Hj Hcj Hin. pose proof (HQ j (or_intror Hin)) as Hq.
    rewrite (CNT_remove slots _ rem1 hash rem2) in Hcj. lia. }
  assert (Z.of_nat (length s3) = B) as Hlen3 by lia.
  destruct (enqueue_if_single_safe (rem1 ++ rem2) s3 Q
              (xor_h0h1h2_s.h0 hs) Hlen3 B0 Hb' I3 HQ0 Hnd Hbel)
    as (Q1 & -> & HQ1 & Hnd1 & Hbel1 & Hin1).
  { apply Hfresh. exact O0. }
  cbn [res_bind].
  destruct (enqueue_if_single_safe (rem1 ++ rem2) s3 Q1
              (xor_h0h1h2_s.h1 hs) Hlen3 B1 Hb' I3 HQ1 Hnd1 Hbel1)
    as (Q2 & -> & HQ2 & Hnd2 & Hbel2 & Hin2).
  { intros Hc Hin. destruct (Hin1 _ Hin) as [Hin' | Heq].
    - exact (Hfresh _ O1 Hc Hin').
    - apply D01. symmetry. exact Heq. }
  cbn [res_bind].
  destruct (enqueue_if_single_safe (rem1 ++ rem2) s3 Q2
              (xor_h0h1h2_s.h2 hs) Hlen3 B2 Hb' I3 HQ2 Hnd2 Hbel2)
    as (Q3 & -> & HQ3 & Hnd3 & Hbel3 & Hin3).
  { intros Hc Hin. destruct (Hin2 _ Hin) as [Hin' | Heq].
    - destruct (Hin1 _ Hin') as [Hin'' | Heq].
      + exact (Hfresh _ O2 Hc Hin'').
      + apply D02. symmetry. exact Heq.
    - apply D12. symmetry. exact Heq. }
  cbn [res_bind].
  apply IH with (rem := rem1 ++ rem2); auto.
  rewrite length_app. cbn [length]. lia.
Qed.

(** With room for every index and for every key, an attempt returns. *)
Lemma attempt_safe keys :
  0 <= B -> B * 16 < 2 ^ 64 ->
  Z.of_nat (length keys) * 16 < 2 ^ 64 ->
  exists stack, attempt get get_just keys filter B = Ok stack.
Proof.
  intros HB0 HB16 HN. unfold attempt.
  assert (extent B sizeof_size_t = B) as ->.
  { unfold extent, sizeof_size_t. rewrite u64_small by lia.
    apply Z.div_mul. discriminate. }
  assert (extent B sizeof_xor_xorset_t = B) as ->.
  { unfold extent, sizeof_xor_xorset_t. rewrite u64_small by lia.
    apply Z.div_mul. discriminate. }
  assert (extent (Z.of_nat (length keys)) sizeof_xor_keyindex_t
          = Z.of_nat (length keys)) as ->.
  { unfold extent, sizeof_xor_keyindex_t. rewrite u64_small by lia.
    apply Z.div_mul. discriminate. }
  set (sets0 := replicate (Z.to_nat B) (xor_xorset_s.Build 0 0)).
  assert (Z.of_nat (length sets0) = B) as Hlen0.
  { unfold sets0. rewrite length_replicate. lia. }
  assert (sets_inv slots [] sets0) as I0.
  { intros s x Hx. apply lookup_replicate in Hx as [-> _]. cbn. auto. }
  destruct (add_keys_safe keys sets0 Hlen0) as (sets1 & K & L1).
  rewrite K. cbn [res_bind].
  destruct (add_keys_inv get get_just get_consistent filter keys [] _ _ I0 K)
    as [_ I1].
  rewrite app_nil_r in I1.
  set (rem := rev (map (hash_under get filter) keys)) in *.
  assert (length rem = length keys) as Hrem.
  { unfold rem. rewrite length_rev, length_map. reflexivity. }
  destruct (scan_safe sets1 (Z.to_nat B) 0 [] ltac:(lia) ltac:(lia)
              ltac:(lia) (List.NoDup_nil Z) (List.Forall_nil _))
    as (Q & S & Hnd & Hbel).
  rewrite S. cbn [res_bind].
  replace (0 + Z.of_nat (Z.to_nat B)) with B in Hbel by lia.
  assert (queue_inv slots rem Q) as HQ.
  { eapply scan_inv; [exact S|lia|exact I1|]. intros i []. }
  destruct (peel get_just _ filter B _ sets1 Q []) as [[sets' stack]|u|]
    eqn:P; cbn [res_bind].
  - eauto.
  - exfalso. revert P.
    apply (peel_safe (length keys)) with (rem := rem); auto; try lia.
    cbn [length]. lia.
  - exfalso. revert P. apply peel_terminates.
    unfold peel_gas. cbn [length]. lia.
Qed.
End AttemptSafe.

(** The bounds hold for every seed the retry loop can install. *)
Variable bl B : Z.
Hypothesis slots_ok : forall f, blockLength f = bl ->
  indices_below B (slots_of get_just f) /\
  forall s hash, occ (slots_of get_just f) s hash <= 1.

Lemma retry_safe keys :
  0 <= B -> B * 16 < 2 ^ 64 ->
  Z.of_nat (length keys) * 16 < 2 ^ 64 ->
  forall fuel rng f, blockLength f = bl ->
  forall u, retry get get_just fuel keys B rng f <> Fault u.
Proof.
  intros HB0 HB16 HN.
  induction fuel as [|fuel IH]; intros rng f Hf u; cbn [retry];
    [discriminate|].
  destruct (slots_ok f Hf) as [Hbel Hdist].
  destruct (attempt_safe f B Hbel Hdist keys HB0 HB16 HN) as (stack & ->).
  cbn [res_bind].
  destruct (_ =? _); [discriminate|].
  destruct (xor_rng_splitmix64 rng) as [r rng'].
  apply IH. exact Hf.
Qed.

(** The retry loop returns once its fuel covers a seed whose attempt is
    complete. *)
Lemma retry_returns keys :
  0 <= B -> B * 16 < 2 ^ 64 ->
  Z.of_nat (length keys) * 16 < 2 ^ 64 ->
  forall i fuel rng f st, blockLength f = bl -> (i < fuel)%nat ->
  attempt get get_just keys (set_seed f (tried (seed f) rng i)) B = Ok st ->
  length st = length keys ->
  exists f1 stack, retry get get_just fuel keys B rng f = Ok (f1, stack).
Proof.
  intros HB0 HB16 HN.
  induction i as [|i IH]; intros fuel rng f st Hf Hi T Hlen;
    (destruct fuel as [|fuel]; [lia|]); cbn [retry].
  - cbn [tried] in T. rewrite set_seed_seed in T. rewrite T.
    cbn [res_bind]. rewrite Hlen, Z.eqb_refl. eauto.
  - destruct (slots_ok f Hf) as [Hbel Hdist].
    destruct (attempt_safe f B Hbel Hdist keys HB0 HB16 HN) as (a & ->).
    cbn [res_bind].
    destruct (_ =? _); [eauto|].
    pose proof (tried_next rng i) as Hnext.
    destruct (xor_rng_splitmix64 rng) as [r rng']. cbn [fst snd] in Hnext.
    apply (IH fuel rng' (set_seed f r) st); [exact Hf|lia| |exact Hlen].
    rewrite set_seed_set_seed. cbn [seed set_seed].
    rewrite Hnext. exact T.
Qed.

Lemma populate_returns ok fuel keys filter cells i :
  ok S_sets = true -> ok S_Q = true -> ok S_stack = true ->
  blockLength filter = bl -> u64 (bl * 3) = B -> B * 16 < 2 ^ 64 ->
  Z.of_nat (length keys) * 16 < 2 ^ 64 ->
  fingerprints filter = Some cells ->
  Z.of_nat (length cells) = B ->
  (i < fuel)%nat ->
  peels get get_just keys filter (nth_random i 1) = true ->
  exists f', populate W get get_just ok fuel keys filter = Ok (true, f', []).
Proof.
  intros O1 O2 O3 Hbl HB HB16 HN Hp Hlen Hi Hpeel. unfold populate.
  pose proof (tried_next 1 i) as Hnext.
  destruct (xor_rng_splitmix64 1) as [r rng]. cbn [fst snd] in Hnext.
  unfold malloc. rewrite O1, O2, O3.
  cbn [set_seed blockLength]. rewrite Hbl, HB.
  assert (0 <= B) as HB0 by (rewrite <- HB; apply u64_range).
  unfold peels in Hpeel. rewrite Hbl, HB in Hpeel.
  destruct (attempt get get_just keys (set_seed filter (nth_random i 1)) B)
    as [st| |] eqn:T; try discriminate Hpeel.
  apply Z.eqb_eq in Hpeel.
  destruct (retry_returns keys HB0 HB16 HN i fuel rng (set_seed filter r) st)
    as (f1 & stack & R); [exact Hbl|exact Hi| |lia|].
  { rewrite set_seed_set_seed. cbn [seed set_seed]. rewrite Hnext.
    exact T. }
  rewrite R. cbn [res_bind].
  apply retry_inv in R as (T1 & _ & Hbl1 & Hfp).
  cbn [blockLength fingerprints set_seed] in Hbl1, Hfp.
  destruct (slots_ok f1 ltac:(congruence)) as [Hbel _].
  apply attempt_below with (B := B) in T1; [|exact Hbel|lia].
  rewrite Hfp, Hp.
  destruct (assign_ok W get_just B f1 Hbel stack cells Hlen T1)
    as [cells' ->].
  cbn [res_bind free List.filter scratch_eqb negb]. eauto.
Qed.

Lemma populate_safe ok fuel keys filter cells :
  blockLength filter = bl -> u64 (bl * 3) = B -> B * 16 < 2 ^ 64 ->
  Z.of_nat (length keys) * 16 < 2 ^ 64 ->
  fingerprints filter = Some cells ->
  Z.of_nat (length cells) = B ->
  forall u, populate W get get_just ok fuel keys filter <> Fault u.
Proof.
  intros Hbl HB HB16 HN Hp Hlen u. unfold populate.
  destruct (xor_rng_splitmix64 1) as [r rng]. unfold malloc.
  destruct (ok S_sets), (ok S_Q), (ok S_stack); try discriminate.
  cbn [set_seed blockLength]. rewrite Hbl, HB.
  assert (0 <= B) as HB0 by (rewrite <- HB; apply u64_range).
  destruct (retry get get_just fuel keys B rng _) as [[f1 stack]|u'|] eqn:R;
    cbn [res_bind]; [| |discriminate].
  - apply retry_inv in R as (T & _ & Hbl1 & Hfp).
    cbn [blockLength fingerprints set_seed] in Hbl1, Hfp.
    destruct (slots_ok f1 ltac:(congruence)) as [Hbel _].
    apply attempt_below with (B := B) in T; [|exact Hbel|lia].
    rewrite Hfp, Hp.
    destruct (assign_ok W get_just B f1 Hbel stack cells Hlen T)
      as [cells' ->].
    discriminate.
  - exfalso. revert R. apply retry_safe; auto.
Qed.
End PopulateSafe.

Lemma xor8_slots_ok bl f :
  1 <= bl -> 3 * bl <= 2 ^ 32 -> blockLength f = bl ->
  indices_below (3 * bl) (slots_of xor8_get_just_h0_h1_h2 f) /\
  forall s hash, occ (slots_of xor8_get_just_h0_h1_h2 f) s hash <= 1.
Proof.
  intros Hb Hs Hf. split.
  - intros hash. unfold below, slots_of. rewrite <- Hf in *.
    apply get_just_below. exact Hb.
  - intros s hash. unfold occ, occ1, slots_of.
    pose proof (get_just_blocks hash f ltac:(lia) ltac:(lia)) as H.
    cbv zeta in H. destruct H as (H0 & H1 & H2).
    repeat match goal with
           | |- context [Nat.eqb ?a ?b] => destruct (Nat.eqb_spec a b)
           end; lia.
Qed.

(** X5: on a filter with [1 <= blockLength], [3 * blockLength <= 2^32]
    and an array of [3 * blockLength] cells, and for fewer than [2^60]
    keys, no run of [xor8_populate] or [xor16_populate] reads or writes
    outside [sets], [Q], [stack] or the fingerprint array, whatever the
    keys, the cells and the outcome of the scratch requests: [Q]
    receives each index at most once and [stack] one entry per key. *)
Theorem populate_memory_safe ok fuel keys filter cells :
  1 <= blockLength filter -> 3 * blockLength filter <= 2 ^ 32 ->
  fingerprints filter = Some cells ->
  Z.of_nat (length cells) = 3 * blockLength filter ->
  Z.of_nat (length keys) < 2 ^ 60 ->
  (forall u, xor8_populate ok fuel keys filter <> Fault u) /\
  (forall u, xor16_populate ok fuel keys filter <> Fault u).
Proof.
  intros Hb Hs Hp Hlen HN.
  assert (u64 (blockLength filter * 3) = 3 * blockLength filter) as HB
    by (rewrite u64_small by lia; lia).
  split; intros u.
  - apply (populate_safe 8 xor8_get_h0_h1_h2 xor8_get_just_h0_h1_h2
             (fun k f => proj2 (xor8_get_h0_h1_h2_just k f))
             (blockLength filter) (3 * blockLength filter)
             (fun f => xor8_slots_ok _ f Hb Hs))
      with (cells := cells); auto; lia.
  - apply (populate_safe 16 xor16_get_h0_h1_h2 xor16_get_just_h0_h1_h2
             (fun k f => proj2 (xor16_get_h0_h1_h2_just k f))
             (blockLength filter) (3 * blockLength filter)
             (fun f => xor8_slots_ok _ f Hb Hs))
      with (cells := cells); auto; lia.
Qed.

(** The hypotheses of [populate_memory_safe] hold for the filter
    allocated for ten elements and the keys 1..10. *)
Lemma populate_memory_safe_witness :
  1 <= blockLength xor8_10_a /\
  3 * blockLength xor8_10_a <= 2 ^ 32 /\
  Z.of_nat (length keys_1_10) < 2 ^ 60 /\
  xor8_populate all_ok 1 keys_1_10 xor8_10_a
    <> Fault (Out_of_bounds A_Q).
Proof.
  assert (1 <= blockLength xor8_10_a) as H1 by (vm_compute; discriminate).
  assert (3 * blockLength xor8_10_a <= 2 ^ 32) as H2
    by (vm_compute; discriminate).
  assert (Z.of_nat (length keys_1_10) < 2 ^ 60) as H3
    by (vm_compute; reflexivity).
  refine (conj H1 (conj H2 (conj H3 _))).
  destruct (fingerprints xor8_10_a) as [cells|] eqn:E; [|discriminate E].
  assert (Z.of_nat (length cells) = 3 * blockLength xor8_10_a) as H4.
  { injection E as <-. vm_compute. reflexivity. }
  exact (proj1 (populate_memory_safe all_ok 1 keys_1_10 xor8_10_a cells
                  H1 H2 E H4 H3) (Out_of_bounds A_Q)).
Defined.

(** ** What a successful construction needs *)

Section PopulateNeeds.
Variable W : Z.
Variable get : Z -> xor_t -> xor_hashes_t.
Variable get_just : Z -> xor_t -> xor_h0h1h2_t.

Hypothesis get_consistent : forall k f,
  xor_hashes_s.h0 (get k f)
    = xor_h0h1h2_s.h0 (get_just (xor_hashes_s.h (get k f)) f) /\
  xor_hashes_s.h1 (get k f)
    = xor_h0h1h2_s.h1 (get_just (xor_hashes_s.h (get k f)) f) /\
  xor_hashes_s.h2 (get k f)
    = xor_h0h1h2_s.h2 (get_just (xor_hashes_s.h (get k f)) f).

Section AttemptNeeds.
Variable filter : xor_t.
Local Abbreviation slots := (slots_of get_just filter).
Local Abbreviation hash_of := (hash_under get filter).

(** Peeling moves hashes from the keys left to the stack, one by one. *)
Lemma peel_perm Qcap stackcap :
  forall gas rem sets Q stack sets' stack',
  peel get_just gas filter Qcap stackcap sets Q stack
    = Ok (sets', stack') ->
  3 * Z.of_nat (length rem) < 2 ^ 64 ->
  sets_inv slots rem sets ->
  queue_inv slots rem Q ->
  exists rem',
    Permutation (rem' ++ map xor_keyindex_s.hash stack')
                (rem ++ map xor_keyindex_s.hash stack).
Proof.
  induction gas as [|gas IH];
    intros rem sets Q stack sets' stack' H Hb Hinv HQ;
    destruct Q as [|index Q]; cbn [peel] in H; try discriminate.
  - injection H as <- <-. exists rem. reflexivity.
  - injection H as <- <-. exists rem. reflexivity.
  - bind_inv H. apply read_inv in E.
    destruct (Z.eqb_spec (xor_xorset_s.count a) 0) as [Ez | Hnz].
    + eapply IH; eauto. intros i Hi. apply HQ. right. exact Hi.
    + destruct (Hinv _ _ E) as [Hc Hm].
      pose proof (CNT_range slots (Z.to_nat index) rem) as Hr.
      pose proof (HQ index (or_introl eq_refl)) as Hle.
      rewrite u64_small in Hc by lia.
      destruct (CNT_1_unique slots (Z.to_nat index) rem)
        as (rem1 & hash & rem2 & -> & Ho & Hc0 & Hmask); [lia|].
      assert (xor_xorset_s.xormask a = hash) as Ex by congruence.
      rewrite Ex in H. clear Ex Hm Hc Hle Hr Hnz.
      bind_inv H. apply push_inv in E0 as [-> _].
      bind_inv H. bind_inv H. bind_inv H.
      destruct (xorset_remove_agree _ _ _ _ _ _ Hinv E0) as [L1 A1].
      destruct (xorset_remove_agree _ _ _ _ _ _ A1 E1) as [L2 A2].
      destruct (xorset_remove_agree _ _ _ _ _ _ A2 E2) as [L3 A3].
      assert (sets_inv slots (rem1 ++ rem2) a2) as I3.
      { intros s x Hx. destruct (A3 s x Hx) as [-> ->].
        rewrite (CNT_remove slots s rem1 hash rem2).
        rewrite (MSK_remove slots s rem1 hash rem2).
        unfold occ, msk, slots_of.
        split; [f_equal; lia|lxor_bits]. }
      assert (3 * Z.of_nat (length (rem1 ++ rem2)) < 2 ^ 64) as Hb'.
      { rewrite length_app in *. cbn [length] in Hb. lia. }
      pose proof (queue_inv_shrink _ _ _ _ _ Q
                    (fun i Hi => HQ i (or_intror Hi))) as HQ0.
      bind_inv H.
      destruct (enqueue_if_single_inv _ _ _ _ _ _ _ _ E3 Hb' I3 HQ0)
        as [HQ1 _].
      bind_inv H.
      destruct (enqueue_if_single_inv _ _ _ _ _ _ _ _ E4 Hb' I3 HQ1)
        as [HQ2 _].
      bind_inv H.
      destruct (enqueue_if_single_inv _ _ _ _ _ _ _ _ E5 Hb' I3 HQ2)
        as [HQ3 _].
      destruct (IH (rem1 ++ rem2) _ _ _ _ _ H Hb' I3 HQ3) as (rem' & HP).
      exists rem'. rewrite HP.
      cbn [map xor_keyindex_s.hash].
      rewrite <- !app_assoc. apply Permutation_app_head.
      cbn [app]. symmetry. apply Permutation_middle.
Qed.

(** The entries of a stack fit for the assignment hold pairwise
    different hashes at pairwise different indices. *)
Lemma ordered_NoDup stack : forall later,
  ordered slots later stack ->
  (List.NoDup (map xor_keyindex_s.hash stack) /\
   forall x, In x later -> ~ In x (map xor_keyindex_s.hash stack)) /\
  (List.NoDup (map (fun ki => Z.to_nat (xor_keyindex_s.index ki)) stack) /\
   forall x ki, In x later -> In ki stack ->
     occ slots (Z.to_nat (xor_keyindex_s.index ki)) x = 0).
Proof.
  induction stack as [|ki stack IH]; intros later; cbn [ordered map].
  - intros _.
    split; split;
      [apply List.NoDup_nil|intros x _ []|apply List.NoDup_nil
      |intros x ki _ []].
  - intros (H1 & H2 & H3).
    destruct (IH _ H3) as [[N1 F1] [N2 F2]].
    split; split.
    + constructor; [|exact N1]. apply F1. left. reflexivity.
    + intros x Hx [E | Hin].
      * specialize (H2 x Hx). rewrite <- E in H2. lia.
      * apply (F1 x); [right; exact Hx|exact Hin].
    + constructor; [|exact N2]. intros Hin.
      apply in_map_iff in Hin as (kj & Ej & Hj).
      pose proof (F2 (xor_keyindex_s.hash ki) kj (or_introl eq_refl) Hj)
        as Hz.
      rewrite Ej in Hz. lia.
    + intros x kj Hx [<- | Hj].
      * apply H2. exact Hx.
      * apply (F2 x kj); [right; exact Hx|exact Hj].
Qed.

(** A complete attempt has peeled exactly the hashes of the keys. *)
Lemma attempt_perm keys arrayLength stack :
  attempt get get_just keys filter arrayLength = Ok stack ->
  3 * Z.of_nat (length keys) < 2 ^ 64 ->
  length stack = length keys ->
  Permutation (map xor_keyindex_s.hash stack) (map hash_of keys).
Proof.
  unfold attempt. intros H Hb Hlen.
  bind_inv H. bind_inv H. bind_inv H. destruct a1 as [sets' stack'].
  injection H as ->.
  assert (sets_inv slots []
            (replicate
               (Z.to_nat (extent arrayLength sizeof_xor_xorset_t))
               (xor_xorset_s.Build 0 0))) as I0.
  { intros s x Hx. apply lookup_replicate in Hx as [-> _]. cbn. auto. }
  destruct (add_keys_inv get get_just get_consistent filter keys [] _ _
              I0 E) as [_ I1].
  rewrite app_nil_r in I1.
  assert (3 * Z.of_nat (length (rev (map hash_of keys))) < 2 ^ 64) as Hb'.
  { rewrite length_rev, length_map. exact Hb. }
  assert (queue_inv slots (rev (map hash_of keys)) a0) as HQ.
  { eapply scan_inv; eauto. intros i []. }
  destruct (peel_perm _ _ _ _ _ _ _ _ _ E1 Hb' I1 HQ) as (rem' & HP).
  cbn [map] in HP. rewrite app_nil_r in HP.
  pose proof (Permutation_length HP) as HL.
  rewrite length_app, length_rev, !length_map in HL.
  assert (rem' = []) as -> by (destruct rem'; [reflexivity|cbn in HL; lia]).
  cbn [app] in HP. rewrite HP. symmetry. apply Permutation_rev.
Qed.

Lemma attempt_needs keys arrayLength stack :
  attempt get get_just keys filter arrayLength = Ok stack ->
  3 * Z.of_nat (length keys) < 2 ^ 64 ->
  length stack = length keys ->
  List.NoDup keys /\
  forall B, indices_below B slots -> 0 <= arrayLength <= B ->
            Z.of_nat (length keys) <= B.
Proof.
  intros H Hb Hlen.
  destruct (attempt_complete get get_just get_consistent filter keys _ _
              H Hb Hlen) as [Hord _].
  destruct (ordered_NoDup stack [] Hord) as [[N1 _] [N2 _]].
  split.
  - apply (List.NoDup_map_inv hash_of).
    eapply Permutation_NoDup; [|exact N1].
    apply attempt_perm with (arrayLength := arrayLength); assumption.
  - intros B HB Ha.
    pose proof (attempt_below get get_just B filter keys arrayLength stack
                  HB Ha H) as Hbel.
    assert (length (map (fun ki => Z.to_nat (xor_keyindex_s.index ki)) stack)
            <= Z.to_nat B)%nat as HL.
    { apply NoDup_nat_below_length; [exact N2|].
      intros x Hx. apply in_map_iff in Hx as (ki & <- & Hki).
      rewrite List.Forall_forall in Hbel. specialize (Hbel ki Hki).
      unfold below in Hbel. lia. }
    rewrite length_map in HL. lia.
Qed.
End AttemptNeeds.

Lemma populate_needs ok fuel keys filter f' live :
  3 * Z.of_nat (length keys) < 2 ^ 64 ->
  populate W get get_just ok fuel keys filter = Ok (true, f', live) ->
  List.NoDup keys /\
  forall B,
    (forall f, blockLength f = blockLength filter ->
               indices_below B (slots_of get_just f)) ->
    u64 (blockLength filter * 3) <= B ->
    Z.of_nat (length keys) <= B.
Proof.
  intros Hb H.
  apply populate_true in H as (f1 & stack & p & R & _ & _ & _).
  apply retry_inv in R as (T & Hlen & Hbl & _).
  cbn [blockLength set_seed] in Hbl.
  destruct (attempt_needs f1 keys _ _ T Hb Hlen) as [Hnd Hcap].
  split; [exact Hnd|].
  intros B HB Ha. apply Hcap; [apply HB; exact Hbl|].
  pose proof (u64_range (blockLength filter * 3)). lia.
Qed.
End PopulateNeeds.

(** X6: [xor8_populate] and [xor16_populate] return true only when the
    keys are pairwise different, and (for a positive block length) only
    when there are at most [3 * blockLength] of them: each key is
    recorded on [stack] with a cell of its own. *)
Theorem populate_success_needs ok fuel keys filter f' live :
  Z.of_nat (length keys) < 2 ^ 61 ->
  xor8_populate ok fuel keys filter = Ok (true, f', live) \/
  xor16_populate ok fuel keys filter = Ok (true, f', live) ->
  List.NoDup keys /\
  (1 <= blockLength filter ->
   Z.of_nat (length keys) <= 3 * blockLength filter).
Proof.
  intros Hsize H.
  assert (List.NoDup keys /\
          forall B,
            (forall f, blockLength f = blockLength filter ->
               indices_below B (slots_of xor8_get_just_h0_h1_h2 f)) ->
            u64 (blockLength filter * 3) <= B ->
            Z.of_nat (length keys) <= B) as [Hnd Hcap].
  { destruct H as [H | H].
    - apply (populate_needs 8 xor8_get_h0_h1_h2 xor8_get_just_h0_h1_h2
               (fun k f => proj2 (xor8_get_h0_h1_h2_just k f))
               ok fuel keys filter f' live); [lia|exact H].
    - apply (populate_needs 16 xor16_get_h0_h1_h2 xor16_get_just_h0_h1_h2
               (fun k f => proj2 (xor16_get_h0_h1_h2_just k f))
               ok fuel keys filter f' live); [lia|exact H]. }
  split; [exact Hnd|].
  intros Hb. apply Hcap.
  - intros f Hf. apply get_just_indices_below; assumption.
  - unfold u64. pose proof (Z.mod_le (blockLength filter * 3) (2 ^ 64)).
    lia.
Qed.

(** The hypotheses of [populate_success_needs] hold for the keys 1..10
    and the 8-bit filter allocated for ten elements. *)
Lemma populate_success_needs_witness :
  Z.of_nat (length keys_1_10) < 2 ^ 61 /\
  xor8_populate all_ok 4 keys_1_10 xor8_10_a
    = Ok (true, xor8_10_a_populated, []) /\
  List.NoDup keys_1_10.
Proof.
  assert (Z.of_nat (length keys_1_10) < 2 ^ 61) as H1
    by (vm_compute; reflexivity).
  assert (xor8_populate all_ok 4 keys_1_10 xor8_10_a
          = Ok (true, xor8_10_a_populated, [])) as H2
    by (vm_compute; reflexivity).
  exact (conj H1 (conj H2
           (proj1 (populate_success_needs all_ok 4 keys_1_10 xor8_10_a
                     xor8_10_a_populated [] H1 (or_introl H2))))).
Defined.

(** When the three scratch requests succeed, the only boolean the
    construction returns is true. *)
Lemma populate_all_ok W get get_just ok fuel keys filter b f' live :
  ok S_sets = true -> ok S_Q = true -> ok S_stack = true ->
  populate W get get_just ok fuel keys filter = Ok (b, f', live) ->
  b = true.
Proof.
  intros O1 O2 O3. unfold populate.
  destruct (xor_rng_splitmix64 1) as [r rng]. unfold malloc.
  rewrite O1, O2, O3. intros H.
  bind_ok H as R. destruct a as [f1 stack].
  bind_ok H as A. injection H as <- _ _. reflexivity.
Qed.

(** X7: on a well-formed filter ([1 <= blockLength],
    [3 * blockLength <= 2^32], an array of [3 * blockLength] cells) and
    with its scratch requests granted, [xor8_populate] and
    [xor16_populate] never return when a key occurs twice in the input
    or when there are more keys than cells: every attempt fails and the
    retry loop runs for ever, whatever fuel it is given. *)
Theorem populate_never_returns ok keys filter cells :
  ok S_sets = true -> ok S_Q = true -> ok S_stack = true ->
  1 <= blockLength filter -> 3 * blockLength filter <= 2 ^ 32 ->
  fingerprints filter = Some cells ->
  Z.of_nat (length cells) = 3 * blockLength filter ->
  Z.of_nat (length keys) < 2 ^ 60 ->
  ~ List.NoDup keys \/ 3 * blockLength filter < Z.of_nat (length keys) ->
  forall fuel,
    xor8_populate ok fuel keys filter = Timeout /\
    xor16_populate ok fuel keys filter = Timeout.
Proof.
  intros O1 O2 O3 Hb Hs Hp Hlen HN Hbad fuel.
  assert (u64 (blockLength filter * 3) = 3 * blockLength filter) as HB
    by (rewrite u64_small by lia; lia).
  assert (forall W get get_just,
            (forall k f,
               xor_hashes_s.h0 (get k f)
                 = xor_h0h1h2_s.h0 (get_just (xor_hashes_s.h (get k f)) f) /\
               xor_hashes_s.h1 (get k f)
                 = xor_h0h1h2_s.h1 (get_just (xor_hashes_s.h (get k f)) f) /\
               xor_hashes_s.h2 (get k f)
                 = xor_h0h1h2_s.h2 (get_just (xor_hashes_s.h (get k f)) f)) ->
            (forall f, blockLength f = blockLength filter ->
               indices_below (3 * blockLength filter)
                             (slots_of get_just f) /\
               forall s hash, occ (slots_of get_just f) s hash <= 1) ->
            populate W get get_just ok fuel keys filter = Timeout) as Hgen.
  { intros W get get_just Hcons Hslots.
    destruct (populate W get get_just ok fuel keys filter)
      as [[[b f'] live]|u|] eqn:P; [| |reflexivity]; exfalso.
    - pose proof (populate_all_ok _ _ _ _ _ _ _ _ _ _ O1 O2 O3 P) as ->.
      destruct (populate_needs W get get_just Hcons ok fuel keys filter
                  f' live ltac:(lia) P) as [Hnd Hcap].
      destruct Hbad as [Hdup | Hmany]; [exact (Hdup Hnd)|].
      specialize (Hcap (3 * blockLength filter)
                       (fun f Hf => proj1 (Hslots f Hf))).
      lia.
    - revert P.
      apply (populate_safe W get get_just Hcons (blockLength filter)
               (3 * blockLength filter) Hslots)
        with (cells := cells); auto; lia. }
  split.
  - apply Hgen.
    + intros k f. exact (proj2 (xor8_get_h0_h1_h2_just k f)).
    + intros f. apply xor8_slots_ok; assumption.
  - apply Hgen.
    + intros k f. exact (proj2 (xor16_get_h0_h1_h2_just k f)).
    + intros f. apply xor8_slots_ok; assumption.
Qed.

(** The hypotheses of [populate_never_returns] hold for the filter
    allocated for ten elements and an input that holds the key 5
    twice. *)
Lemma populate_never_returns_witness :
  ~ List.NoDup [5; 5] /\
  xor8_populate all_ok 3 [5; 5] xor8_10_a = Timeout.
Proof.
  assert (~ List.NoDup [5; 5]) as Hdup.
  { intros H. apply List.NoDup_cons_iff in H as [H _].
    apply H. left. reflexivity. }
  split; [exact Hdup|].
  destruct (fingerprints xor8_10_a) as [cells|] eqn:E; [|discriminate E].
  assert (Z.of_nat (length cells) = 3 * blockLength xor8_10_a) as H4.
  { injection E as <-. vm_compute. reflexivity. }
  refine (proj1 (populate_never_returns all_ok [5; 5] xor8_10_a cells
                   eq_refl eq_refl eq_refl _ _ E H4 _ (or_introl Hdup) 3)).
  - vm_compute. discriminate.
  - vm_compute. discriminate.
  - vm_compute. reflexivity.
Defined.

(** ** What the construction leaves behind *)

Lemma assign_footprint W get_just f (HW : 0 <= W) :
  forall stack cells p',
  assign W get_just f stack (Some cells) = Ok p' ->
  let written :=
    map (fun ki => Z.to_nat (xor_keyindex_s.index ki)) stack in
  exists cells',
    p' = Some cells' /\ length cells' = length cells /\
    (forall i, ~ In i written -> cells' !! i = cells !! i) /\
    (forall i c, In i written -> cells' !! i = Some c -> 0 <= c < 2 ^ W).
Proof.
  induction stack as [|ki stack IH]; intros cells p' H; cbn [assign] in H.
  - injection H as <-. exists cells. cbn [map].
    repeat split; intros; contradiction.
  - bind_ok H as S1. apply store_inv in S1 as (c1 & [= <-] & Hlt & ->).
    bind_ok H as L0. bind_ok H as L1. bind_ok H as L2.
    bind_ok H as S2. apply store_inv in S2 as (c2 & [= <-] & Hlt2 & ->).
    set (idx := Z.to_nat (xor_keyindex_s.index ki)) in *.
    set (v := cell W _) in *.
    apply IH in H as (cells' & -> & Hlen & Hout & Hin).
    rewrite !length_insert in Hlen.
    exists cells'. split; [reflexivity|]. split; [exact Hlen|].
    cbn [map]. fold idx. split.
    + intros i Hi. rewrite Hout by (intros Hi'; apply Hi; right; exact Hi').
      rewrite !list_lookup_insert_ne
        by (intros ->; apply Hi; left; reflexivity).
      reflexivity.
    + intros i c Hi Hc.
      destruct (in_dec Nat.eq_dec i
                  (map (fun ki => Z.to_nat (xor_keyindex_s.index ki)) stack))
        as [Hs | Hs]; [exact (Hin i c Hs Hc)|].
      destruct Hi as [<- | Hi]; [|contradiction].
      rewrite Hout in Hc by exact Hs.
      rewrite list_lookup_insert_eq in Hc
        by (rewrite length_insert; exact Hlt).
      injection Hc as <-. unfold v, cell. apply Z.mod_pos_bound. lia.
Qed.

Lemma populate_footprint W get get_just ok fuel keys filter f' live cells :
  0 <= W ->
  populate W get get_just ok fuel keys filter = Ok (true, f', live) ->
  fingerprints filter = Some cells ->
  live = [] /\ blockLength f' = blockLength filter /\
  exists cells' written,
    fingerprints f' = Some cells' /\ length cells' = length cells /\
    length written = length keys /\
    (forall i, ~ In i written -> cells' !! i = cells !! i) /\
    (forall i c, In i written -> cells' !! i = Some c -> 0 <= c < 2 ^ W).
Proof.
  intros HW H Hp.
  apply populate_true in H as (f1 & stack & p & R & A & -> & ->).
  apply retry_inv in R as (_ & Hlen & Hbl & Hfp).
  cbn [blockLength fingerprints set_seed set_fingerprints] in *.
  rewrite Hfp, Hp in A.
  apply assign_footprint in A as (cells' & -> & L & Hout & Hin); [|exact HW].
  split; [reflexivity|]. split; [exact Hbl|].
  exists cells', (map (fun ki => Z.to_nat (xor_keyindex_s.index ki)) stack).
  rewrite length_map. auto.
Qed.

(** ** Which seed the construction installs *)

(** The retry loop stops at the first seed whose attempt is complete. *)
Lemma retry_first get get_just keys arrayLength :
  forall fuel rng f f1 stack,
  retry get get_just fuel keys arrayLength rng f = Ok (f1, stack) ->
  exists i,
    (i < fuel)%nat /\
    f1 = set_seed f (tried (seed f) rng i) /\
    attempt get get_just keys f1 arrayLength = Ok stack /\
    length stack = length keys /\
    forall j, (j < i)%nat ->
      exists st,
        attempt get get_just keys (set_seed f (tried (seed f) rng j))
                arrayLength = Ok st /\
        length st <> length keys.
Proof.
  induction fuel as [|fuel IH]; intros rng f f1 stack H; cbn [retry] in H;
    [discriminate|].
  bind_ok H as A.
  destruct (Z.eqb_spec (Z.of_nat (length a)) (Z.of_nat (length keys)))
    as [E | N].
  - injection H as <- <-. exists 0%nat. cbn [tried].
    rewrite set_seed_seed.
    split; [lia|]. split; [reflexivity|]. split; [exact A|].
    split; [lia|]. intros j Hj. lia.
  - pose proof (tried_next rng) as Hnext.
    destruct (xor_rng_splitmix64 rng) as [r rng']. cbn [fst snd] in Hnext.
    apply IH in H as (i & Hi & -> & T & Hlen & Hbefore).
    cbn [seed set_seed] in *.
    exists (S i). split; [lia|]. split.
    { cbn [tried]. rewrite <- Hnext. reflexivity. }
    split; [exact T|]. split; [exact Hlen|].
    intros [|j] Hj.
    + exists a. cbn [tried]. rewrite set_seed_seed.
      split; [exact A|lia].
    + destruct (Hbefore j ltac:(lia)) as (st & Hst & Hne).
      exists st. cbn [tried]. rewrite <- Hnext. split; [exact Hst|exact Hne].
Qed.

Lemma populate_first_seed W get get_just ok fuel keys filter f' live :
  populate W get get_just ok fuel keys filter = Ok (true, f', live) ->
  exists i,
    (i < fuel)%nat /\ seed f' = nth_random i 1 /\
    peels get get_just keys filter (nth_random i 1) = true /\
    forall j, (j < i)%nat ->
      peels get get_just keys filter (nth_random j 1) = false.
Proof.
  intros H.
  apply populate_true in H as (f1 & stack & p & R & _ & -> & _).
  apply retry_first in R as (i & Hi & -> & T & Hlen & Hbefore).
  rewrite set_seed_set_seed in T.
  assert (forall n, tried (seed (set_seed filter (fst (xor_rng_splitmix64 1))))
                          (snd (xor_rng_splitmix64 1)) n
                    = nth_random n 1) as Ht.
  { intros n. apply tried_next. }
  rewrite Ht in T.
  exists i. split; [exact Hi|]. split.
  { rewrite Ht. reflexivity. }
  split.
  - unfold peels. rewrite T, Hlen. apply Z.eqb_refl.
  - intros j Hj. destruct (Hbefore j Hj) as (st & Hst & Hne).
    rewrite set_seed_set_seed, Ht in Hst.
    unfold peels. rewrite Hst. apply Z.eqb_neq. lia.
Qed.

(** X9: the seed that a successful [xor8_populate] or [xor16_populate]
    installs is the first one, in the sequence splitmix64 produces from
    the counter 1, under which the attempt records every key; the
    attempts under the seeds before it came to an end with fewer
    entries on the stack. *)
Theorem populate_installs_first_seed ok fuel keys filter f' live :
  xor8_populate ok fuel keys filter = Ok (true, f', live) \/
  xor16_populate ok fuel keys filter = Ok (true, f', live) ->
  exists i,
    (i < fuel)%nat /\ seed f' = nth_random i 1 /\
    peels xor8_get_h0_h1_h2 xor8_get_just_h0_h1_h2 keys filter
          (nth_random i 1) = true /\
    forall j, (j < i)%nat ->
      peels xor8_get_h0_h1_h2 xor8_get_just_h0_h1_h2 keys filter
            (nth_random j 1) = false.
Proof.
  intros [H | H].
  - exact (populate_first_seed 8 xor8_get_h0_h1_h2 xor8_get_just_h0_h1_h2
             ok fuel keys filter f' live H).
  - exact (populate_first_seed 16 xor16_get_h0_h1_h2
             xor16_get_just_h0_h1_h2 ok fuel keys filter f' live H).
Qed.

(** The hypothesis of [populate_installs_first_seed] holds for the keys
    1..10 and the 8-bit filter allocated for ten elements. *)
Lemma populate_installs_first_seed_witness :
  xor8_populate all_ok 4 keys_1_10 xor8_10_a
    = Ok (true, xor8_10_a_populated, []) /\
  exists i, (i < 4)%nat /\ seed xor8_10_a_populated = nth_random i 1.
Proof.
  assert (xor8_populate all_ok 4 keys_1_10 xor8_10_a
          = Ok (true, xor8_10_a_populated, [])) as H
    by (vm_compute; reflexivity).
  split; [exact H|].
  destruct (populate_installs_first_seed all_ok 4 keys_1_10 xor8_10_a
              xor8_10_a_populated [] (or_introl H)) as (i & Hi & Hs & _).
  exists i. split; [exact Hi|exact Hs].
Defined.

(** X10: on a well-formed filter ([1 <= blockLength],
    [3 * blockLength <= 2^32], an array of [3 * blockLength] cells) and
    with its scratch requests granted, [xor8_populate] and
    [xor16_populate] return true, with no scratch block left, as soon
    as the retry loop is given the time to reach a seed of the
    splitmix64 sequence from the counter 1 under which the attempt
    records every key. *)
Theorem populate_returns_true ok fuel keys filter cells i :
  ok S_sets = true -> ok S_Q = true -> ok S_stack = true ->
  1 <= blockLength filter -> 3 * blockLength filter <= 2 ^ 32 ->
  fingerprints filter = Some cells ->
  Z.of_nat (length cells) = 3 * blockLength filter ->
  Z.of_nat (length keys) < 2 ^ 60 ->
  (i < fuel)%nat ->
  peels xor8_get_h0_h1_h2 xor8_get_just_h0_h1_h2 keys filter
        (nth_random i 1) = true ->
  (exists f', xor8_populate ok fuel keys filter = Ok (true, f', [])) /\
  (exists f', xor16_populate ok fuel keys filter = Ok (true, f', [])).
Proof.
  intros O1 O2 O3 Hb Hs Hp Hlen HN Hi Hpeel.
  assert (u64 (blockLength filter * 3) = 3 * blockLength filter) as HB
    by (rewrite u64_small by lia; lia).
  split.
  - apply (populate_returns 8 xor8_get_h0_h1_h2 xor8_get_just_h0_h1_h2
             (fun k f => proj2 (xor8_get_h0_h1_h2_just k f))
             (blockLength filter) (3 * blockLength filter)
             (fun f => xor8_slots_ok _ f Hb Hs))
      with (cells := cells) (i := i); auto; lia.
  - apply (populate_returns 16 xor16_get_h0_h1_h2 xor16_get_just_h0_h1_h2
             (fun k f => proj2 (xor16_get_h0_h1_h2_just k f))
             (blockLength filter) (3 * blockLength filter)
             (fun f => xor8_slots_ok _ f Hb Hs))
      with (cells := cells) (i := i); auto; lia.
Qed.

(** The hypotheses of [populate_returns_true] hold for the keys 1..10
    and the 8-bit filter allocated for ten elements, whose first attempt
    records every key. *)
Lemma populate_returns_true_witness :
  peels xor8_get_h0_h1_h2 xor8_get_just_h0_h1_h2 keys_1_10 xor8_10_a
        (nth_random 0 1) = true /\
  exists f', xor8_populate all_ok 1 keys_1_10 xor8_10_a = Ok (true, f', []).
Proof.
  assert (peels xor8_get_h0_h1_h2 xor8_get_just_h0_h1_h2 keys_1_10
                xor8_10_a (nth_random 0 1) = true) as Hpeel
    by (vm_compute; reflexivity).
  split; [exact Hpeel|].
  destruct (fingerprints xor8_10_a) as [cells|] eqn:E; [|discriminate E].
  assert (Z.of_nat (length cells) = 3 * blockLength xor8_10_a) as H4.
  { injection E as <-. vm_compute. reflexivity. }
  refine (proj1 (populate_returns_true all_ok 1 keys_1_10 xor8_10_a cells
                   0%nat eq_refl eq_refl eq_refl _ _ E H4 _ _ Hpeel)).
  - vm_compute. discriminate.
  - vm_compute. discriminate.
  - vm_compute. reflexivity.
  - lia.
Defined.

(** ** The two cell widths *)

Lemma cell_8_16 x : cell 8 (cell 16 x) = cell 8 x.
Proof.
  unfold cell. apply Z.mod_mod_divide. exists (2 ^ 8). reflexivity.
Qed.

Lemma lookup_map_cell (l : list Z) i c :
  l !! i = Some c -> map (cell 8) l !! i = Some (cell 8 c).
Proof.
  revert i. induction l as [|a l IH]; intros [|i] H; try discriminate.
  - injection H as <-. reflexivity.
  - apply IH in H. exact H.
Qed.

Lemma insert_map_cell (l : list Z) i v :
  <[i := cell 8 v]> (map (cell 8) l) = map (cell 8) (<[i := v]> l).
Proof.
  revert i. induction l as [|a l IH]; intros [|i]; cbn; try reflexivity.
  f_equal. apply IH.
Qed.

(** The 8-bit assignment on the low bytes of a 16-bit array computes the
    low bytes of the 16-bit assignment. *)
Lemma assign_low_byte get_just f g :
  (forall hash, get_just hash g = get_just hash f) ->
  forall stack cells p,
  assign 16 get_just f stack (Some cells) = Ok p ->
  exists cells',
    p = Some cells' /\
    assign 8 get_just g stack (Some (map (cell 8) cells))
    = Ok (Some (map (cell 8) cells')).
Proof.
  intros Hfg.
  induction stack as [|ki stack IH]; intros cells p H; cbn [assign] in *.
  - injection H as <-. eauto.
  - rewrite Hfg.
    bind_ok H as S1. apply store_inv in S1 as (c1 & [= <-] & Hlt & ->).
    bind_ok H as L0. apply load_inv in L0 as (c & [= <-] & L0).
    bind_ok H as L1. apply load_inv in L1 as (c & [= <-] & L1).
    bind_ok H as L2. apply load_inv in L2 as (c & [= <-] & L2).
    bind_ok H as S2. apply store_inv in S2 as (c & [= <-] & Hlt2 & ->).
    set (idx := Z.to_nat (xor_keyindex_s.index ki)) in *.
    apply IH in H as (cells' & -> & H).
    exists cells'. split; [reflexivity|].
    assert (forall (l : list Z) v,
              (idx < length l)%nat ->
              store (Some (map (cell 8) l)) (xor_keyindex_s.index ki)
                    (cell 8 v)
              = Ok (Some (map (cell 8) (<[idx := v]> l)))) as Hstore.
    { intros l v Hl. unfold store, write. fold idx.
      destruct (lookup_lt_is_Some_2 (map (cell 8) l) idx) as [x ->];
        [rewrite length_map; exact Hl|].
      cbn [res_bind]. rewrite insert_map_cell. reflexivity. }
    change 0 with (cell 8 0) at 1.
    rewrite Hstore by exact Hlt. cbn [res_bind].
    unfold load, read.
    rewrite (lookup_map_cell _ _ _ L0). cbn [res_bind].
    rewrite (lookup_map_cell _ _ _ L1). cbn [res_bind].
    rewrite (lookup_map_cell _ _ _ L2). cbn [res_bind].
    match goal with
    | |- context [store _ _ (cell 8 ?x)] =>
        replace (cell 8 x)
          with (cell 8 (cell 16 (Z.lxor (Z.lxor (Z.lxor
                  (xor_fingerprint (xor_keyindex_s.hash ki)) a) a0) a1)))
    end.
    + rewrite Hstore by exact Hlt2. cbn [res_bind]. exact H.
    + rewrite cell_8_16, !(cell_lxor 8), !(cell_cell 8) by lia.
      reflexivity.
Qed.

Lemma contain_low_byte k f16 f8 cells :
  seed f8 = seed f16 -> blockLength f8 = blockLength f16 ->
  fingerprints f16 = Some cells ->
  fingerprints f8 = Some (map (cell 8) cells) ->
  contain 16 k f16 = Ok (true, f16) ->
  contain 8 k f8 = Ok (true, f8).
Proof.
  intros Hs Hb Hp16 Hp8.
  assert (xor8_get_h0_h1_h2 k f8 = xor8_get_h0_h1_h2 k f16) as Hhs.
  { unfold xor8_get_h0_h1_h2. rewrite Hs, Hb. reflexivity. }
  unfold contain. cbv zeta. rewrite Hhs, Hp16, Hp8.
  set (hs := xor8_get_h0_h1_h2 k f16).
  intros H.
  bind_ok H as L0. apply load_inv in L0 as (c & [= <-] & L0).
  bind_ok H as L1. apply load_inv in L1 as (c & [= <-] & L1).
  bind_ok H as L2. apply load_inv in L2 as (c & [= <-] & L2).
  injection H as H.
  unfold load, read.
  rewrite (lookup_map_cell _ _ _ L0). cbn [res_bind].
  rewrite (lookup_map_cell _ _ _ L1). cbn [res_bind].
  rewrite (lookup_map_cell _ _ _ L2). cbn [res_bind].
  apply Z.eqb_eq in H.
  match goal with
  | |- Ok (?x =? 0, _) = _ => assert (x = 0) as ->; [|reflexivity]
  end.
  apply (f_equal (cell 8)) in H. rewrite cell_8_16 in H.
  rewrite !(cell_lxor 8), !(cell_cell 8), ?cell_8_16 in * by lia.
  exact H.
Qed.

(** X11: the 8-bit filter is the low-byte image of the 16-bit filter.
    When [xor8_populate] and [xor16_populate] both return true for the
    same keys and the same block length, they have installed the same
    seed, whatever the two arrays held; if moreover the 8-bit array held
    the low bytes of the 16-bit array before the calls, it holds them
    after the calls too, and then every key the 16-bit filter reports
    as contained is reported as contained by the 8-bit filter. *)
Theorem xor8_is_low_byte_of_xor16
    ok ok' fuel fuel' keys f8 f16 f8' f16' live live' :
  blockLength f8 = blockLength f16 ->
  xor8_populate ok fuel keys f8 = Ok (true, f8', live) ->
  xor16_populate ok' fuel' keys f16 = Ok (true, f16', live') ->
  seed f8' = seed f16' /\
  blockLength f8' = blockLength f16' /\
  forall cells16,
    fingerprints f16 = Some cells16 ->
    fingerprints f8 = Some (map (cell 8) cells16) ->
    (exists cells16',
       fingerprints f16' = Some cells16' /\
       fingerprints f8' = Some (map (cell 8) cells16')) /\
    forall k, xor16_contain k f16' = Ok (true, f16') ->
              xor8_contain k f8' = Ok (true, f8').
Proof.
  intros Hb H8 H16.
  unfold xor8_populate in H8.
  change xor16_populate
    with (populate 16 xor8_get_h0_h1_h2 xor8_get_just_h0_h1_h2) in H16.
  apply populate_true in H8 as (f1 & st1 & p1 & R1 & A1 & -> & _).
  apply populate_true in H16 as (g1 & st2 & p2 & R2 & A2 & -> & _).
  rewrite <- Hb in R2.
  assert (set_seed f16 (fst (xor_rng_splitmix64 1))
          = set_fingerprints (set_seed f8 (fst (xor_rng_splitmix64 1)))
                             (fingerprints f16)) as Eg.
  { unfold set_seed, set_fingerprints. cbn. rewrite Hb. reflexivity. }
  rewrite Eg in R2.
  rewrite (retry_frame _ _ xor8_get_frame xor8_get_just_frame) in R2.
  bind_ok R2 as R3. destruct a as [f2 st3]. injection R2 as <- <-.
  assert (Ok (f1, st1) = Ok (f2, st3)) as E.
  { destruct (Nat.le_ge_cases fuel fuel') as [Hle | Hle].
    - rewrite <- R3. symmetry. eapply retry_fuel_mono; eauto.
    - rewrite <- R1. eapply retry_fuel_mono; eauto. }
  injection E as <- <-.
  apply retry_inv in R1 as (_ & _ & Hbl & Hfp).
  cbn [blockLength fingerprints set_seed set_fingerprints seed] in *.
  split; [reflexivity|]. split; [reflexivity|].
  intros cells16 Hp16 Hp8.
  rewrite Hp16 in A2. rewrite Hfp, Hp8 in A1.
  destruct (assign_low_byte xor8_get_just_h0_h1_h2
              (set_fingerprints f1 (Some cells16)) f1
              (fun hash => eq_sym (xor8_get_just_frame hash f1 _))
              st1 cells16 p2 A2) as (cells16' & -> & A8).
  rewrite A8 in A1. injection A1 as <-.
  split; [eauto|].
  intros k Hk.
  rewrite xor16_contain_generic in Hk. rewrite xor8_contain_generic.
  revert Hk. apply contain_low_byte with (cells := cells16'); reflexivity.
Qed.

(** The hypotheses of [xor8_is_low_byte_of_xor16] hold for an 8-bit and
    a 16-bit filter of block length 14 and the keys 1..10: the 8-bit
    array holds the low bytes of the 16-bit array before and after. *)
Lemma xor8_is_low_byte_of_xor16_witness :
  xor8_populate all_ok 4 keys_1_10 xor8_14_low
    = Ok (true, populated (xor8_populate all_ok 4 keys_1_10 xor8_14_low),
          []) /\
  xor16_populate all_ok 4 keys_1_10 xor16_14
    = Ok (true, populated (xor16_populate all_ok 4 keys_1_10 xor16_14),
          []) /\
  cells_wf 16 xor16_14_cells /\
  seed (populated (xor8_populate all_ok 4 keys_1_10 xor8_14_low))
  = seed (populated (xor16_populate all_ok 4 keys_1_10 xor16_14)) /\
  exists cells16',
    fingerprints (populated (xor16_populate all_ok 4 keys_1_10 xor16_14))
      = Some cells16' /\
    fingerprints (populated (xor8_populate all_ok 4 keys_1_10 xor8_14_low))
      = Some (map (cell 8) cells16').
Proof.
  assert (xor8_populate all_ok 4 keys_1_10 xor8_14_low
          = Ok (true,
                populated (xor8_populate all_ok 4 keys_1_10 xor8_14_low),
                [])) as H8 by (vm_compute; reflexivity).
  assert (xor16_populate all_ok 4 keys_1_10 xor16_14
          = Ok (true,
                populated (xor16_populate all_ok 4 keys_1_10 xor16_14),
                [])) as H16 by (vm_compute; reflexivity).
  assert (cells_wf 16 xor16_14_cells) as Hwf.
  { unfold cells_wf. apply List.Forall_forall. intros c Hc.
    vm_compute in Hc.
    repeat (destruct Hc as [<- | Hc]; [vm_compute; split; congruence|]).
    destruct Hc. }
  pose (T := xor8_is_low_byte_of_xor16 all_ok all_ok 4 4 keys_1_10
               xor8_14_low xor16_14 _ _ [] [] eq_refl H8 H16).
  refine (conj H8 (conj H16 (conj Hwf (conj (proj1 T) _)))).
  exact (proj1 (proj2 (proj2 T) xor16_14_cells eq_refl eq_refl)).
Defined.

(** ** The order of the keys *)

Lemma CNT_Permutation slots s l l' :
  Permutation l l' -> CNT slots s l = CNT slots s l'.
Proof. induction 1; cbn [CNT]; lia. Qed.

Lemma MSK_Permutation slots s l l' :
  Permutation l l' -> MSK slots s l = MSK slots s l'.
Proof.
  induction 1; cbn [MSK]; try congruence.
  lxor_bits.
Qed.

(** The counts and the masks determine [sets]. *)
Lemma agree_unique c m (s1 s2 : list xor_xorset_t) :
  length s1 = length s2 -> agree c m s1 -> agree c m s2 -> s1 = s2.
Proof.
  intros Hlen H1 H2. apply list_eq. intros i.
  destruct (s1 !! i) as [x|] eqn:E1, (s2 !! i) as [y|] eqn:E2.
  - destruct (H1 _ _ E1) as [C1 M1], (H2 _ _ E2) as [C2 M2].
    destruct x, y. cbn in *. congruence.
  - apply lookup_lt_Some in E1. apply lookup_ge_None in E2. lia.
  - apply lookup_ge_None in E1. apply lookup_lt_Some in E2. lia.
  - reflexivity.
Qed.

Lemma xorset_add_cases sets i hash :
  ((Z.to_nat i < length sets)%nat /\
   exists sets', xorset_add sets i hash = Ok sets' /\
                 length sets' = length sets) \/
  ((length sets <= Z.to_nat i)%nat /\
   xorset_add sets i hash = Fault (Out_of_bounds A_sets)).
Proof.
  unfold xorset_add, read, write.
  destruct (sets !! Z.to_nat i) as [x|] eqn:E; cbn [res_bind].
  - left. split; [eapply lookup_lt_Some; exact E|].
    eexists. split; [reflexivity|apply length_insert].
  - right. split; [apply lookup_ge_None; exact E|reflexivity].
Qed.

Section PopulateOrder.
Variable W : Z.
Variable get : Z -> xor_t -> xor_hashes_t.
Variable get_just : Z -> xor_t -> xor_h0h1h2_t.

Hypothesis get_consistent : forall k f,
  xor_hashes_s.h0 (get k f)
    = xor_h0h1h2_s.h0 (get_just (xor_hashes_s.h (get k f)) f) /\
  xor_hashes_s.h1 (get k f)
    = xor_h0h1h2_s.h1 (get_just (xor_hashes_s.h (get k f)) f) /\
  xor_hashes_s.h2 (get k f)
    = xor_h0h1h2_s.h2 (get_just (xor_hashes_s.h (get k f)) f).

(** The three indices of a key are inside an array of [n] elements. *)
Local Abbreviation inside filter n :=
  (fun k =>
     (Z.to_nat (xor_hashes_s.h0 (get k filter)) < n)%nat /\
     (Z.to_nat (xor_hashes_s.h1 (get k filter)) < n)%nat /\
     (Z.to_nat (xor_hashes_s.h2 (get k filter)) < n)%nat).

Lemma add_keys_cases filter keys : forall sets,
  (Forall (inside filter (length sets)) keys /\
   exists sets', add_keys get filter keys sets = Ok sets') \/
  (~ Forall (inside filter (length sets)) keys /\
   add_keys get filter keys sets = Fault (Out_of_bounds A_sets)).
Proof.
  induction keys as [|k keys IH]; intros sets; cbn [add_keys].
  - left. split; [constructor|eauto].
  - destruct (xorset_add_cases sets (xor_hashes_s.h0 (get k filter))
                (xor_hashes_s.h (get k filter)))
      as [(I0 & s1 & -> & L1) | (I0 & ->)]; cbn [res_bind];
      [|right; split; [|reflexivity];
        intros HF; apply Forall_cons in HF as [(? & ? & ?) _]; lia].
    destruct (xorset_add_cases s1 (xor_hashes_s.h1 (get k filter))
                (xor_hashes_s.h (get k filter)))
      as [(I1 & s2 & -> & L2) | (I1 & ->)]; cbn [res_bind];
      [|right; split; [|reflexivity];
        intros HF; apply Forall_cons in HF as [(? & ? & ?) _]; lia].
    destruct (xorset_add_cases s2 (xor_hashes_s.h2 (get k filter))
                (xor_hashes_s.h (get k filter)))
      as [(I2 & s3 & -> & L3) | (I2 & ->)]; cbn [res_bind];
      [|right; split; [|reflexivity];
        intros HF; apply Forall_cons in HF as [(? & ? & ?) _]; lia].
    assert (length s3 = length sets) as L by lia.
    destruct (IH s3) as [[HF E] | [HF E]]; rewrite L in HF.
    + left. split; [|exact E].
      constructor; [|exact HF]. repeat split; lia.
    + right. split; [|exact E].
      intros HF'. apply Forall_cons in HF' as [_ HF']. exact (HF HF').
Qed.

Lemma add_keys_Permutation filter keys keys' n :
  Permutation keys keys' ->
  add_keys get filter keys (replicate n (xor_xorset_s.Build 0 0))
  = add_keys get filter keys' (replicate n (xor_xorset_s.Build 0 0)).
Proof.
  intros HP. set (sets0 := replicate n (xor_xorset_s.Build 0 0)).
  assert (sets_inv (slots_of get_just filter) [] sets0) as I0.
  { intros s x Hx. apply lookup_replicate in Hx as [-> _]. cbn. auto. }
  destruct (add_keys_cases filter keys sets0) as [[HF (s1 & E1)] | [HF E1]];
    destruct (add_keys_cases filter keys' sets0)
      as [[HF' (s2 & E2)] | [HF' E2]].
  - rewrite E1, E2. f_equal.
    destruct (add_keys_inv get get_just get_consistent filter keys [] _ _
                I0 E1) as [L1 I1].
    destruct (add_keys_inv get get_just get_consistent filter keys' [] _ _
                I0 E2) as [L2 I2].
    apply (agree_unique _ _ s1 s2 ltac:(congruence) I1).
    assert (Permutation
              (rev (map (hash_under get filter) keys') ++ [])
              (rev (map (hash_under get filter) keys) ++ [])) as HP'.
    { rewrite !app_nil_r, <- !Permutation_rev.
      apply Permutation_map. symmetry. exact HP. }
    eapply agree_ext; [| |exact I2].
    + intros s. apply CNT_Permutation. exact HP'.
    + intros s. apply MSK_Permutation. exact HP'.
  - exfalso. apply HF'. rewrite <- HP. exact HF.
  - exfalso. apply HF. rewrite HP. exact HF'.
  - rewrite E1, E2. reflexivity.
Qed.

Lemma attempt_Permutation filter keys keys' arrayLength :
  Permutation keys keys' ->
  attempt get get_just keys filter arrayLength
  = attempt get get_just keys' filter arrayLength.
Proof.
  intros HP. unfold attempt.
  rewrite (add_keys_Permutation filter keys keys' _ HP).
  rewrite (Permutation_length HP). reflexivity.
Qed.

Lemma retry_Permutation keys keys' arrayLength :
  Permutation keys keys' ->
  forall fuel rng filter,
  retry get get_just fuel keys arrayLength rng filter
  = retry get get_just fuel keys' arrayLength rng filter.
Proof.
  intros HP. induction fuel as [|fuel IH]; intros rng filter; cbn [retry];
    [reflexivity|].
  rewrite (attempt_Permutation filter keys keys' _ HP).
  rewrite (Permutation_length HP).
  destruct (attempt get get_just keys' filter arrayLength) as [stack| |];
    cbn [res_bind]; try reflexivity.
  destruct (_ =? _); [reflexivity|].
  destruct (xor_rng_splitmix64 rng) as [r rng']. apply IH.
Qed.

Lemma populate_Permutation ok fuel keys keys' filter :
  Permutation keys keys' ->
  populate W get get_just ok fuel keys filter
  = populate W get get_just ok fuel keys' filter.
Proof.
  intros HP. unfold populate.
  destruct (xor_rng_splitmix64 1) as [r rng].
  rewrite (retry_Permutation keys keys' _ HP). reflexivity.
Qed.
End PopulateOrder.

(** X16: the outcome of [xor8_populate] and of [xor16_populate] does
    not depend on the order of the keys in the input array: two arrays
    that hold the same keys in different orders give the same result,
    the same seed and the same cells. *)
Theorem populate_order_irrelevant ok fuel keys keys' filter :
  Permutation keys keys' ->
  xor8_populate ok fuel keys filter = xor8_populate ok fuel keys' filter /\
  xor16_populate ok fuel keys filter = xor16_populate ok fuel keys' filter.
Proof.
  intros HP. split.
  - apply (populate_Permutation 8 xor8_get_h0_h1_h2 xor8_get_just_h0_h1_h2
             (fun k f => proj2 (xor8_get_h0_h1_h2_just k f))).
    exact HP.
  - apply (populate_Permutation 16 xor16_get_h0_h1_h2
             xor16_get_just_h0_h1_h2
             (fun k f => proj2 (xor16_get_h0_h1_h2_just k f))).
    exact HP.
Qed.

(** The hypothesis of [populate_order_irrelevant] holds for the keys
    1..10 and the same keys in reverse order. *)
Lemma populate_order_irrelevant_witness :
  Permutation keys_1_10 (rev keys_1_10) /\
  xor8_populate all_ok 4 (rev keys_1_10) xor8_10_a
    = Ok (true, xor8_10_a_populated, []).
Proof.
  assert (Permutation keys_1_10 (rev keys_1_10)) as HP
    by apply Permutation_rev.
  split; [exact HP|].
  rewrite <- (proj1 (populate_order_irrelevant all_ok 4 keys_1_10
                       (rev keys_1_10) xor8_10_a HP)).
  vm_compute. reflexivity.
Defined.

(** ** Constructing twice *)

Lemma refill_cell W fp a b c :
  0 <= W -> 0 <= c < 2 ^ W ->
  cell W fp = cell W (Z.lxor (Z.lxor c a) b) ->
  cell W (Z.lxor (Z.lxor (Z.lxor fp 0) a) b) = c.
Proof.
  intros HW Hc H. rewrite <- (cell_small W c Hc).
  rewrite !(cell_lxor W) in * by exact HW. rewrite H.
  change (cell W 0) with 0. rewrite Z.lxor_0_r.
  generalize (cell W c) (cell W a) (cell W b). intros x y z. lxor_bits.
Qed.

Section PopulateTwice.
Variable W : Z.
Variable get : Z -> xor_t -> xor_hashes_t.
Variable get_just : Z -> xor_t -> xor_h0h1h2_t.
Hypothesis HW : 0 <= W.

Hypothesis get_consistent : forall k f,
  xor_hashes_s.h0 (get k f)
    = xor_h0h1h2_s.h0 (get_just (xor_hashes_s.h (get k f)) f) /\
  xor_hashes_s.h1 (get k f)
    = xor_h0h1h2_s.h1 (get_just (xor_hashes_s.h (get k f)) f) /\
  xor_hashes_s.h2 (get k f)
    = xor_h0h1h2_s.h2 (get_just (xor_hashes_s.h (get k f)) f).
Hypothesis get_frame : forall k f p,
  get k (set_fingerprints f p) = get k f.
Hypothesis get_just_frame : forall hash f p,
  get_just hash (set_fingerprints f p) = get_just hash f.

Lemma assign_frame f q stack : forall p,
  assign W get_just (set_fingerprints f q) stack p
  = assign W get_just f stack p.
Proof.
  induction stack as [|ki stack IH]; intros p; cbn [assign];
    [reflexivity|].
  rewrite get_just_frame.
  repeat match goal with
         | |- res_bind ?r _ = res_bind ?r _ =>
             destruct r; cbn [res_bind]; try reflexivity
         end.
  apply IH.
Qed.

(** On cells that already solve the equation of every entry, the
    assignment rewrites each cell with the value it holds. *)
Lemma assign_fixed f stack : forall later cells,
  ordered (slots_of get_just f) later stack ->
  (forall ki, In ki stack ->
     solved (slots_of get_just f) W (Some cells) (xor_keyindex_s.hash ki)) ->
  (forall ki, In ki stack ->
     exists c, cells !! Z.to_nat (xor_keyindex_s.index ki) = Some c /\
               0 <= c < 2 ^ W) ->
  assign W get_just f stack (Some cells) = Ok (Some cells).
Proof.
  induction stack as [|ki stack IH]; intros later cells Hord Hsol Hran;
    cbn [assign]; [reflexivity|].
  cbn [ordered] in Hord. destruct Hord as (Ho & _ & Hord).
  destruct (Hsol ki (or_introl eq_refl))
    as (cells0 & c0 & c1 & c2 & [= <-] & L0 & L1 & L2 & Hx).
  destruct (Hran ki (or_introl eq_refl)) as (c & Lc & Hc).
  unfold slots_of in Ho, L0, L1, L2. unfold occ, occ1 in Ho.
  set (hs := get_just (xor_keyindex_s.hash ki) f) in *.
  set (idx := Z.to_nat (xor_keyindex_s.index ki)) in *.
  assert (idx < length cells)%nat as Hlt
    by (eapply lookup_lt_Some; exact Lc).
  unfold store at 1. unfold write. fold idx. rewrite Lc. cbn [res_bind].
  assert (forall h x, cells !! Z.to_nat h = Some x ->
            load (Some (<[idx := 0]> cells)) h
            = Ok (if Nat.eqb (Z.to_nat h) idx then 0 else x)) as Hload.
  { intros h x Hh. unfold load, read.
    destruct (Nat.eqb_spec (Z.to_nat h) idx) as [-> | Hne].
    - rewrite list_lookup_insert_eq by exact Hlt. reflexivity.
    - rewrite list_lookup_insert_ne by (intros E; apply Hne; symmetry;
                                        exact E).
      rewrite Hh. reflexivity. }
  rewrite (Hload _ _ L0). cbn [res_bind].
  rewrite (Hload _ _ L1). cbn [res_bind].
  rewrite (Hload _ _ L2). cbn [res_bind].
  unfold store, write. fold idx.
  rewrite list_lookup_insert_eq by exact Hlt. cbn [res_bind].
  rewrite list_insert_insert_eq.
  match goal with
  | |- context [<[idx := ?v]> cells] => assert (v = c) as ->
  end.
  { destruct (Nat.eqb_spec (Z.to_nat (xor_h0h1h2_s.h0 hs)) idx) as [E0|N0],
             (Nat.eqb_spec (Z.to_nat (xor_h0h1h2_s.h1 hs)) idx) as [E1|N1],
             (Nat.eqb_spec (Z.to_nat (xor_h0h1h2_s.h2 hs)) idx) as [E2|N2];
      try lia.
    - rewrite E0, Lc in L0. injection L0 as <-.
      apply refill_cell; assumption.
    - rewrite E1, Lc in L1. injection L1 as <-.
      replace (Z.lxor (Z.lxor (Z.lxor (xor_fingerprint
                 (xor_keyindex_s.hash ki)) c0) 0) c2)
        with (Z.lxor (Z.lxor (Z.lxor (xor_fingerprint
                (xor_keyindex_s.hash ki)) 0) c0) c2) by lxor_bits.
      apply refill_cell; [assumption..|].
      rewrite Hx. f_equal. lxor_bits.
    - rewrite E2, Lc in L2. injection L2 as <-.
      replace (Z.lxor (Z.lxor (Z.lxor (xor_fingerprint
                 (xor_keyindex_s.hash ki)) c0) c1) 0)
        with (Z.lxor (Z.lxor (Z.lxor (xor_fingerprint
                (xor_keyindex_s.hash ki)) 0) c0) c1) by lxor_bits.
      apply refill_cell; [assumption..|].
      rewrite Hx. f_equal. lxor_bits. }
  rewrite list_insert_id by exact Lc.
  apply (IH (xor_keyindex_s.hash ki :: later)); [exact Hord| |].
  - intros kj Hj. apply Hsol. right. exact Hj.
  - intros kj Hj. apply Hran. right. exact Hj.
Qed.

Lemma populate_twice ok fuel keys filter f' live :
  3 * Z.of_nat (length keys) < 2 ^ 64 ->
  populate W get get_just ok fuel keys filter = Ok (true, f', live) ->
  populate W get get_just ok fuel keys f' = Ok (true, f', live).
Proof.
  intros Hb H.
  assert (ok S_sets = true /\ ok S_Q = true /\ ok S_stack = true)
    as (O1 & O2 & O3).
  { revert H. unfold populate.
    destruct (xor_rng_splitmix64 1) as [r rng]. unfold malloc.
    destruct (ok S_sets), (ok S_Q), (ok S_stack); try discriminate; auto. }
  apply populate_true in H as (f1 & stack & p & R & A & -> & ->).
  pose proof R as R'.
  apply retry_inv in R' as (T & Hlen & Hbl & Hfp).
  cbn [blockLength fingerprints set_seed] in Hbl, Hfp.
  destruct (attempt_complete get get_just get_consistent f1 keys _ _
              T Hb Hlen) as [Hord Hin].
  destruct (assign_inv W get_just f1 HW stack [] _ _ A Hord) as [Hsol _];
    [intros x []|].
  assert (assign W get_just f1 stack p = Ok p) as Afix.
  { destruct stack as [|ki stack]; [reflexivity|].
    destruct (fingerprints f1) as [cells0|] eqn:Hp1;
      [|cbn [assign] in A; discriminate A].
    destruct (assign_footprint W get_just f1 HW _ _ _ A)
      as (cells' & -> & L & _ & Hran).
    apply (assign_fixed f1 _ []); [exact Hord| |].
    - intros kj Hj. apply Hsol. right. apply in_map. exact Hj.
    - intros kj Hj.
      destruct (lookup_lt_is_Some_2 cells'
                  (Z.to_nat (xor_keyindex_s.index kj))) as [c Hc].
      { rewrite L. revert A Hj. clear. revert cells0.
        generalize (ki :: stack). intros st.
        induction st as [|k st IH]; intros cells0 A Hj; [destruct Hj|].
        destruct Hj as [<- | Hj]; cbn [assign] in A.
        - bind_ok A as S1. apply store_inv in S1 as (c1 & [= <-] & Hlt & _).
          exact Hlt.
        - bind_ok A as S1. apply store_inv in S1 as (c1 & [= <-] & Hlt & ->).
          bind_ok A as L0. bind_ok A as L1. bind_ok A as L2.
          bind_ok A as S2.
          apply store_inv in S2 as (c2 & [= <-] & Hlt2 & ->).
          specialize (IH _ A Hj). rewrite !length_insert in IH. exact IH. }
      exists c. split; [exact Hc|].
      apply (Hran (Z.to_nat (xor_keyindex_s.index kj)) c); [|exact Hc].
      apply (in_map (fun ki => Z.to_nat (xor_keyindex_s.index ki))).
      exact Hj. }
  unfold populate.
  destruct (xor_rng_splitmix64 1) as [r rng] eqn:Hrng.
  cbn [fst snd] in R.
  unfold malloc. rewrite O1, O2, O3.
  cbn [blockLength set_fingerprints set_seed].
  assert (set_seed (set_fingerprints f1 p) r
          = set_fingerprints (set_seed filter r) p) as ->.
  { unfold set_seed, set_fingerprints. cbn. rewrite Hbl. reflexivity. }
  rewrite Hbl, (retry_frame get get_just get_frame get_just_frame), R.
  cbn [res_bind fingerprints set_fingerprints].
  rewrite assign_frame, Afix. cbn [res_bind].
  cbn [free List.filter scratch_eqb negb]. reflexivity.
Qed.
End PopulateTwice.

(** X17: constructing again changes nothing.  When [xor8_populate]
    (resp. [xor16_populate]) has returned true, the same call on the
    populated filter returns true again and leaves the filter as it is:
    the same seed is chosen and every cell is rewritten with the value
    it holds. *)
Theorem populate_idempotent ok fuel keys filter f' live :
  Z.of_nat (length keys) < 2 ^ 61 ->
  (xor8_populate ok fuel keys filter = Ok (true, f', live) ->
   xor8_populate ok fuel keys f' = Ok (true, f', live)) /\
  (xor16_populate ok fuel keys filter = Ok (true, f', live) ->
   xor16_populate ok fuel keys f' = Ok (true, f', live)).
Proof.
  intros HN. split.
  - apply (populate_twice 8 xor8_get_h0_h1_h2 xor8_get_just_h0_h1_h2
             ltac:(lia) (fun k f => proj2 (xor8_get_h0_h1_h2_just k f))
             xor8_get_frame xor8_get_just_frame). lia.
  - apply (populate_twice 16 xor16_get_h0_h1_h2 xor16_get_just_h0_h1_h2
             ltac:(lia) (fun k f => proj2 (xor16_get_h0_h1_h2_just k f))
             xor16_get_frame xor16_get_just_frame). lia.
Qed.

(** The hypotheses of [populate_idempotent] hold for the keys 1..10 and
    the 8-bit filter allocated for ten elements. *)
Lemma populate_idempotent_witness :
  Z.of_nat (length keys_1_10) < 2 ^ 61 /\
  xor8_populate all_ok 4 keys_1_10 xor8_10_a
    = Ok (true, xor8_10_a_populated, []) /\
  xor8_populate all_ok 4 keys_1_10 xor8_10_a_populated
    = Ok (true, xor8_10_a_populated, []).
Proof.
  assert (Z.of_nat (length keys_1_10) < 2 ^ 61) as H1
    by (vm_compute; reflexivity).
  assert (xor8_populate all_ok 4 keys_1_10 xor8_10_a
          = Ok (true, xor8_10_a_populated, [])) as H2
    by (vm_compute; reflexivity).
  exact (conj H1 (conj H2
           (proj1 (populate_idempotent all_ok 4 keys_1_10 xor8_10_a
                     xor8_10_a_populated [] H1) H2))).
Defined.

(** ** Reported failure *)

(** X18: [xor8_populate] and [xor16_populate] return false only when
    one of the three scratch requests has failed: a key set that cannot
    be peeled is never reported, the retry loop goes on instead. *)
Theorem populate_false_means_no_memory ok fuel keys filter f' live :
  xor8_populate ok fuel keys filter = Ok (false, f', live) \/
  xor16_populate ok fuel keys filter = Ok (false, f', live) ->
  ok S_sets && ok S_Q && ok S_stack = false.
Proof.
  intros H.
  destruct (ok S_sets) eqn:O1, (ok S_Q) eqn:O2, (ok S_stack) eqn:O3;
    try reflexivity.
  destruct H as [H | H];
    apply populate_all_ok in H; auto; discriminate H.
Qed.

(** The hypothesis of [populate_false_means_no_memory] holds when the
    request for [stack] fails. *)
Lemma populate_false_means_no_memory_witness :
  xor8_populate no_stack 4 keys_1_10 xor8_10_a
    = Ok (false, populated (xor8_populate no_stack 4 keys_1_10 xor8_10_a),
          []) /\
  no_stack S_sets && no_stack S_Q && no_stack S_stack = false.
Proof.
  assert (xor8_populate no_stack 4 keys_1_10 xor8_10_a
          = Ok (false,
                populated (xor8_populate no_stack 4 keys_1_10 xor8_10_a),
                [])) as H by (vm_compute; reflexivity).
  exact (conj H (populate_false_means_no_memory no_stack 4 keys_1_10
                   xor8_10_a _ [] (or_introl H))).
Defined.

(** ** One cell per key *)

Lemma assign_index_lt W get_just f : forall stack cells p,
  assign W get_just f stack (Some cells) = Ok p ->
  forall ki, In ki stack ->
    (Z.to_nat (xor_keyindex_s.index ki) < length cells)%nat.
Proof.
  induction stack as [|k st IH]; intros cells p A ki Hj; [destruct Hj|].
  cbn [assign] in A.
  bind_ok A as S1. apply store_inv in S1 as (c1 & [= <-] & Hlt & ->).
  bind_ok A as L0. bind_ok A as L1. bind_ok A as L2.
  bind_ok A as S2. apply store_inv in S2 as (c2 & [= <-] & Hlt2 & ->).
  destruct Hj as [<- | Hj]; [exact Hlt|].
  specialize (IH _ _ A ki Hj). rewrite !length_insert in IH. exact IH.
Qed.

Lemma ordered_occ slots stack : forall later,
  ordered slots later stack ->
  forall ki, In ki stack ->
    occ slots (Z.to_nat (xor_keyindex_s.index ki)) (xor_keyindex_s.hash ki)
    = 1.
Proof.
  induction stack as [|k st IH]; intros later Hord ki Hki; [destruct Hki|].
  cbn [ordered] in Hord. destruct Hord as (H1 & _ & H3).
  destruct Hki as [<- | Hki]; [exact H1|].
  exact (IH _ H3 ki Hki).
Qed.

Lemma occ_1_slot slots s hash :
  occ slots s hash = 1 ->
  s = Z.to_nat (xor_h0h1h2_s.h0 (slots hash)) \/
  s = Z.to_nat (xor_h0h1h2_s.h1 (slots hash)) \/
  s = Z.to_nat (xor_h0h1h2_s.h2 (slots hash)).
Proof.
  unfold occ, occ1.
  destruct (Nat.eqb_spec (Z.to_nat (xor_h0h1h2_s.h0 (slots hash))) s);
    [auto|].
  destruct (Nat.eqb_spec (Z.to_nat (xor_h0h1h2_s.h1 (slots hash))) s);
    [auto|].
  destruct (Nat.eqb_spec (Z.to_nat (xor_h0h1h2_s.h2 (slots hash))) s);
    [auto|].
  lia.
Qed.

Lemma NoDup_map_eq {A B} (f : A -> B) (l : list A) x y :
  List.NoDup (map f l) -> In x l -> In y l -> f x = f y -> x = y.
Proof.
  induction l as [|a l IH]; intros Hnd Hx Hy E; [destruct Hx|].
  cbn [map] in Hnd. apply List.NoDup_cons_iff in Hnd as [Ha Hnd].
  destruct Hx as [<- | Hx], Hy as [<- | Hy]; auto.
  - exfalso. apply Ha. rewrite E. apply in_map. exact Hy.
  - exfalso. apply Ha. rewrite <- E. apply in_map. exact Hx.
Qed.

(** The index at which [stack] records the hash [h]. *)
Lemma find_entry (stack : list xor_keyindex_t) h :
  In h (map xor_keyindex_s.hash stack) ->
  exists ki,
    find (fun ki => xor_keyindex_s.hash ki =? h) stack = Some ki /\
    In ki stack /\ xor_keyindex_s.hash ki = h.
Proof.
  intros Hin.
  destruct (find (fun ki => xor_keyindex_s.hash ki =? h) stack) as [ki|]
    eqn:F.
  - apply find_some in F as [Hki E]. apply Z.eqb_eq in E. eauto.
  - apply in_map_iff in Hin as (kj & E & Hkj).
    pose proof (find_none _ _ F kj Hkj) as N. cbv beta in N.
    apply Z.eqb_neq in N. contradiction.
Qed.

Section PopulatePlaces.
Variable W : Z.
Variable get : Z -> xor_t -> xor_hashes_t.
Variable get_just : Z -> xor_t -> xor_h0h1h2_t.
Hypothesis HW : 0 <= W.

Hypothesis get_consistent : forall k f,
  xor_hashes_s.h0 (get k f)
    = xor_h0h1h2_s.h0 (get_just (xor_hashes_s.h (get k f)) f) /\
  xor_hashes_s.h1 (get k f)
    = xor_h0h1h2_s.h1 (get_just (xor_hashes_s.h (get k f)) f) /\
  xor_hashes_s.h2 (get k f)
    = xor_h0h1h2_s.h2 (get_just (xor_hashes_s.h (get k f)) f).
Hypothesis get_frame : forall k f p,
  get k (set_fingerprints f p) = get k f.
Hypothesis get_just_frame : forall hash f p,
  get_just hash (set_fingerprints f p) = get_just hash f.

Lemma populate_places ok fuel keys filter f' live cells :
  3 * Z.of_nat (length keys) < 2 ^ 64 ->
  populate W get get_just ok fuel keys filter = Ok (true, f', live) ->
  fingerprints filter = Some cells ->
  live = [] /\ blockLength f' = blockLength filter /\
  exists cells' (place : Z -> nat),
    fingerprints f' = Some cells' /\ length cells' = length cells /\
    List.NoDup (map place keys) /\
    (forall k, In k keys ->
       (place k = Z.to_nat (xor_hashes_s.h0 (get k f')) \/
        place k = Z.to_nat (xor_hashes_s.h1 (get k f')) \/
        place k = Z.to_nat (xor_hashes_s.h2 (get k f'))) /\
       (exists c, cells' !! place k = Some c /\ 0 <= c < 2 ^ W) /\
       solved (slots_of get_just f') W (Some cells')
              (xor_hashes_s.h (get k f'))) /\
    (forall i, ~ In i (map place keys) -> cells' !! i = cells !! i).
Proof.
  intros Hb H Hp.
  pose proof (populate_solved W get get_just get_consistent get_frame
                get_just_frame ok fuel keys filter f' live HW Hb H)
    as Hsolved.
  apply populate_true in H as (f1 & stack & p & R & A & -> & ->).
  apply retry_inv in R as (T & Hlen & Hbl & Hfp).
  cbn [blockLength fingerprints set_seed set_fingerprints] in *.
  destruct (attempt_complete get get_just get_consistent f1 keys _ _
              T Hb Hlen) as [Hord _].
  pose proof (attempt_perm get get_just get_consistent f1 keys _ _
                T Hb Hlen) as HP.
  destruct (ordered_NoDup get_just f1 stack [] Hord) as [[N1 _] [N2 _]].
  rewrite Hfp, Hp in A.
  pose proof (assign_index_lt _ _ _ _ _ _ A) as Hlt.
  destruct (assign_footprint W get_just f1 HW _ _ _ A)
    as (cells' & -> & L & Hout & Hran).
  rewrite <- L in Hlt.
  split; [reflexivity|]. split; [exact Hbl|].
  set (idx := fun ki => Z.to_nat (xor_keyindex_s.index ki)) in *.
  set (idx_of := fun h =>
         match find (fun ki => xor_keyindex_s.hash ki =? h) stack with
         | Some ki => idx ki
         | None => 0%nat
         end).
  assert (forall ki, In ki stack -> idx_of (xor_keyindex_s.hash ki) = idx ki)
    as Hidx.
  { intros ki Hki. unfold idx_of.
    destruct (find_entry stack (xor_keyindex_s.hash ki)
                (in_map _ _ _ Hki)) as (kj & -> & Hkj & E).
    f_equal. exact (NoDup_map_eq _ _ _ _ N1 Hkj Hki E). }
  assert (Permutation (map idx_of (map (hash_under get f1) keys))
                      (map idx stack)) as HPi.
  { rewrite <- HP. rewrite map_map.
    erewrite map_ext_in; [reflexivity|]. exact Hidx. }
  exists cells', (fun k => idx_of (hash_under get f1 k)).
  split; [reflexivity|]. split; [exact L|]. split.
  { rewrite <- (map_map (hash_under get f1) idx_of).
    eapply Permutation_NoDup; [symmetry; exact HPi|exact N2]. }
  split.
  - intros k Hk.
    assert (In (hash_under get f1 k) (map xor_keyindex_s.hash stack)) as Hh.
    { eapply Permutation_in; [symmetry; exact HP|].
      apply in_map. exact Hk. }
    destruct (find_entry stack _ Hh) as (ki & F & Hki & E).
    assert (idx_of (hash_under get f1 k) = idx ki) as -> by
        (unfold idx_of; rewrite F; reflexivity).
    rewrite get_frame. split; [|split].
    + pose proof (ordered_occ _ _ _ Hord ki Hki) as Ho.
      apply occ_1_slot in Ho. rewrite E in Ho.
      unfold slots_of, hash_under in Ho.
      destruct (get_consistent k f1) as (-> & -> & ->). exact Ho.
    + destruct (lookup_lt_is_Some_2 cells' (idx ki) (Hlt ki Hki))
        as [c Hc].
      exists c. split; [exact Hc|].
      apply (Hran (idx ki) c); [|exact Hc].
      apply (in_map idx). exact Hki.
    + specialize (Hsolved k Hk). unfold hash_under in Hsolved.
      rewrite get_frame in Hsolved. exact Hsolved.
  - intros i Hi. apply Hout. intros Hin. apply Hi.
    rewrite <- (map_map (hash_under get f1) idx_of).
    eapply Permutation_in; [symmetry; exact HPi|exact Hin].
Qed.
End PopulatePlaces.

(** X8: a call of [xor8_populate] or [xor16_populate] that returns true
    has released its three scratch blocks, has left the block length
    and the extent of the fingerprint array as they were, and has given
    every key a cell of its own: the keys are placed one-to-one on
    cells of the array, each key on one of its own three indices; the
    cell of a key holds a value of the cell width and makes the cells at
    the key's three indices XOR to the key's fingerprint; every cell
    that is not the place of a key holds what it held before the call
    (the array is not cleared). *)
Theorem populate_writes_one_cell_per_key ok fuel keys filter f' live cells :
  Z.of_nat (length keys) < 2 ^ 61 ->
  fingerprints filter = Some cells ->
  (xor8_populate ok fuel keys filter = Ok (true, f', live) ->
   live = [] /\ blockLength f' = blockLength filter /\
   exists cells' (place : Z -> nat),
     fingerprints f' = Some cells' /\ length cells' = length cells /\
     List.NoDup (map place keys) /\
     (forall k, In k keys ->
        (place k = Z.to_nat (xor_hashes_s.h0 (xor8_get_h0_h1_h2 k f')) \/
         place k = Z.to_nat (xor_hashes_s.h1 (xor8_get_h0_h1_h2 k f')) \/
         place k = Z.to_nat (xor_hashes_s.h2 (xor8_get_h0_h1_h2 k f'))) /\
        (exists c, cells' !! place k = Some c /\ 0 <= c < 2 ^ 8) /\
        solved (slots_of xor8_get_just_h0_h1_h2 f') 8 (Some cells')
               (xor_hashes_s.h (xor8_get_h0_h1_h2 k f'))) /\
     (forall i, ~ In i (map place keys) -> cells' !! i = cells !! i)) /\
  (xor16_populate ok fuel keys filter = Ok (true, f', live) ->
   live = [] /\ blockLength f' = blockLength filter /\
   exists cells' (place : Z -> nat),
     fingerprints f' = Some cells' /\ length cells' = length cells /\
     List.NoDup (map place keys) /\
     (forall k, In k keys ->
        (place k = Z.to_nat (xor_hashes_s.h0 (xor16_get_h0_h1_h2 k f')) \/
         place k = Z.to_nat (xor_hashes_s.h1 (xor16_get_h0_h1_h2 k f')) \/
         place k = Z.to_nat (xor_hashes_s.h2 (xor16_get_h0_h1_h2 k f'))) /\
        (exists c, cells' !! place k = Some c /\ 0 <= c < 2 ^ 16) /\
        solved (slots_of xor16_get_just_h0_h1_h2 f') 16 (Some cells')
               (xor_hashes_s.h (xor16_get_h0_h1_h2 k f'))) /\
     (forall i, ~ In i (map place keys) -> cells' !! i = cells !! i)).
Proof.
  intros HN Hp. split; intros H.
  - apply (populate_places 8 xor8_get_h0_h1_h2 xor8_get_just_h0_h1_h2
             ltac:(lia) (fun k f => proj2 (xor8_get_h0_h1_h2_just k f))
             xor8_get_frame xor8_get_just_frame
             ok fuel keys filter f' live cells); [lia|exact H|exact Hp].
  - apply (populate_places 16 xor16_get_h0_h1_h2 xor16_get_just_h0_h1_h2
             ltac:(lia) (fun k f => proj2 (xor16_get_h0_h1_h2_just k f))
             xor16_get_frame xor16_get_just_frame
             ok fuel keys filter f' live cells); [lia|exact H|exact Hp].
Qed.

(** The hypotheses of [populate_writes_one_cell_per_key] hold for the
    keys 1..10 and the 8-bit filter allocated for ten elements: ten
    different cells are the places of the keys. *)
Lemma populate_writes_one_cell_per_key_witness :
  Z.of_nat (length keys_1_10) < 2 ^ 61 /\
  xor8_populate all_ok 4 keys_1_10 xor8_10_a
    = Ok (true, xor8_10_a_populated, []) /\
  exists place : Z -> nat,
    List.NoDup (map place keys_1_10) /\
    forall i, ~ In i (map place keys_1_10) ->
      xor8_10_a_cells_populated !! i = xor8_10_a_cells !! i.
Proof.
  assert (Z.of_nat (length keys_1_10) < 2 ^ 61) as H1
    by (vm_compute; reflexivity).
  assert (xor8_populate all_ok 4 keys_1_10 xor8_10_a
          = Ok (true, xor8_10_a_populated, [])) as H
    by (vm_compute; reflexivity).
  split; [exact H1|]. split; [exact H|].
  destruct (proj1 (populate_writes_one_cell_per_key all_ok 4 keys_1_10
                     xor8_10_a xor8_10_a_populated [] xor8_10_a_cells
                     H1 eq_refl) H)
    as (_ & _ & cells' & place & E & _ & Hnd & _ & Hout).
  injection E as <-.
  exists place. split; [exact Hnd|exact Hout].
Defined.

(** * Further properties of allocation and release *)

(** ** The filter that [allocate] returns *)

Lemma spec_blockLength_fits n :
  0 <= n -> (3 * spec_blockLength n <= 2 ^ 32 <-> n <= 3491843305).
Proof.
  intros Hn. unfold spec_blockLength.
  change (2 ^ 32) with 4294967296. split; intros H.
  - destruct (Z_le_gt_dec n 3491843305) as [Hle | Hgt]; [exact Hle|].
    exfalso.
    assert (1431655766 <= (3200 + 123 * n) / 300)
      by (apply Z.div_le_lower_bound; lia).
    lia.
  - assert ((3200 + 123 * n) / 300 <= 1431655765)
      by (apply Z.lt_succ_r; apply Z.div_lt_upper_bound; lia).
    lia.
Qed.

Lemma malloc_cells_wf W garbage bytes cells :
  0 <= W -> malloc_cells W (Some garbage) bytes = Some cells ->
  cells_wf W cells.
Proof.
  intros HW [= <-]. unfold cells_wf. apply List.Forall_forall.
  intros c Hc. apply in_map_iff in Hc as (i & <- & _).
  apply cell_range. exact HW.
Qed.

Lemma xor8_allocate_wf garbage n filter :
  0 <= n < 2 ^ 32 ->
  exists cells,
    xor8_allocate (Some garbage) n filter
      = Ok (true, Build_xor_t (seed filter) (spec_blockLength n)
                              (Some cells)) /\
    Z.of_nat (length cells) = 3 * spec_blockLength n /\
    cells_wf 8 cells.
Proof.
  intros Hn. assert (0 <= n < 2 ^ 44) as Hn' by lia.
  pose proof (spec_blockLength_range n Hn') as Hb.
  rewrite xor8_allocate_eq by exact Hn'.
  destruct (malloc_cells 8 (Some garbage) (3 * spec_blockLength n))
    as [cells|] eqn:M; [|discriminate M].
  exists cells. split; [reflexivity|]. split.
  - injection M as <-. change (8 / 8) with 1.
    rewrite Z.div_1_r, malloc_cells_length. lia.
  - eapply malloc_cells_wf; [|exact M]. lia.
Qed.

Lemma xor16_allocate_wf garbage n filter :
  0 <= n < 2 ^ 44 ->
  exists cells,
    xor16_allocate (Some garbage) n filter
      = Ok (true, Build_xor_t (seed filter) (spec_blockLength n)
                              (Some cells)) /\
    Z.of_nat (length cells) = 3 * spec_blockLength n /\
    cells_wf 16 cells.
Proof.
  intros Hn.
  pose proof (spec_blockLength_range n Hn) as Hb.
  rewrite xor16_allocate_eq by exact Hn.
  destruct (malloc_cells 16 (Some garbage) (3 * spec_blockLength n * 2))
    as [cells|] eqn:M; [|discriminate M].
  exists cells. split; [reflexivity|]. split.
  - injection M as <-. change (16 / 8) with 2.
    rewrite Z.div_mul by lia. rewrite malloc_cells_length. lia.
  - eapply malloc_cells_wf; [|exact M]. lia.
Qed.

(** X12: for every 32-bit element count [n], the filter that a
    successful [xor8_allocate] or [xor16_allocate] returns keeps the
    seed it had, has a block length of at least 10 and at least [n + 30]
    cells, and holds one value of the cell width in each of its
    [3 * blockLength] cells; its three blocks fit the 32-bit indices of
    the hash derivation ([3 * blockLength <= 2^32]) exactly when the
    count is at most 3491843305. *)
Theorem allocate_well_formed m n filter f :
  0 <= n < 2 ^ 32 ->
  xor8_allocate m n filter = Ok (true, f) \/
  xor16_allocate m n filter = Ok (true, f) ->
  seed f = seed filter /\
  10 <= blockLength f /\
  n + 30 <= 3 * blockLength f /\
  (3 * blockLength f <= 2 ^ 32 <-> n <= 3491843305) /\
  exists cells,
    fingerprints f = Some cells /\
    Z.of_nat (length cells) = 3 * blockLength f /\
    (xor8_allocate m n filter = Ok (true, f) -> cells_wf 8 cells) /\
    (xor16_allocate m n filter = Ok (true, f) -> cells_wf 16 cells).
Proof.
  intros Hn H. assert (0 <= n < 2 ^ 44) as Hn' by lia.
  pose proof (spec_blockLength_range n Hn') as Hb.
  pose proof (spec_blockLength_fits n ltac:(lia)) as Hfit.
  assert (n + 30 <= 3 * spec_blockLength n) as Hroom.
  { rewrite <- spec_blockLength_capacity.
    pose proof (Z.mul_succ_div_gt (32 + 123 * n / 100) 3 ltac:(lia)).
    assert (n <= 123 * n / 100) by (apply Z.div_le_lower_bound; lia).
    lia. }
  destruct m as [garbage|].
  - destruct (xor8_allocate_wf garbage n filter Hn)
      as (c8 & E8 & L8 & W8).
    destruct (xor16_allocate_wf garbage n filter Hn')
      as (c16 & E16 & L16 & W16).
    rewrite E8, E16 in *.
    destruct H as [[= <-] | [= <-]];
      cbn [seed blockLength fingerprints];
      (split; [reflexivity|]); (split; [lia|]); (split; [exact Hroom|]);
      (split; [exact Hfit|]);
      eexists; (split; [reflexivity|]); (split; [assumption|]);
      split; intros E; first [assumption | congruence].
  - rewrite xor8_allocate_eq, xor16_allocate_eq in H by exact Hn'.
    cbn [malloc_cells] in H. destruct H; discriminate.
Qed.

(** The hypotheses of [allocate_well_formed] hold for ten elements. *)
Lemma allocate_well_formed_witness :
  0 <= 10 < 2 ^ 32 /\
  xor8_allocate (Some garbage_a) 10 unallocated = Ok (true, xor8_10_a) /\
  10 <= blockLength xor8_10_a.
Proof.
  assert (0 <= 10 < 2 ^ 32) as H1 by lia.
  assert (xor8_allocate (Some garbage_a) 10 unallocated
          = Ok (true, xor8_10_a)) as H2 by (vm_compute; reflexivity).
  exact (conj H1 (conj H2
           (proj1 (proj2 (allocate_well_formed (Some garbage_a) 10
                            unallocated xor8_10_a H1 (or_introl H2)))))).
Defined.

(** ** From allocation to queries *)

Lemma populated_contain W ok fuel keys f f' live cells :
  0 <= W -> 1 <= blockLength f ->
  fingerprints f = Some cells ->
  Z.of_nat (length cells) = 3 * blockLength f ->
  3 * Z.of_nat (length keys) < 2 ^ 64 ->
  populate W xor8_get_h0_h1_h2 xor8_get_just_h0_h1_h2 ok fuel keys f
    = Ok (true, f', live) ->
  forall k,
    (In k keys -> contain W k f' = Ok (true, f')) /\
    exists b, contain W k f' = Ok (b, f').
Proof.
  intros HW Hb Hp Hlen HN H k. split.
  - intros Hk. apply solved_contain; [exact HW|].
    exact (populate_solved W xor8_get_h0_h1_h2 xor8_get_just_h0_h1_h2
             (fun k f => proj2 (xor8_get_h0_h1_h2_just k f))
             xor8_get_frame xor8_get_just_frame
             ok fuel keys f f' live HW HN H k Hk).
  - destruct (populate_footprint W _ _ ok fuel keys f f' live cells HW H Hp)
      as (_ & Hbl & cells' & written & Hp' & Hlen' & _).
    apply (contain_ok W k f' cells'); [exact Hp'| |lia].
    rewrite Hlen', Hbl. exact Hlen.
Qed.

(** X13: allocation, construction and query compose.  For an element
    count [n <= 3491843305] and fewer than [2^60] keys, on the filter
    that a successful [xor8_allocate(n)] (resp. [xor16_allocate(n)])
    returns, no run of [xor8_populate] (resp. [xor16_populate]) leaves
    defined behaviour; and if it returns true, then on the populated
    filter [xor8_contain] (resp. [xor16_contain]) returns for every
    key, and returns true for every key of the input, whatever [malloc]
    left in the cells and however the number of keys compares with
    [n]. *)
Theorem allocate_populate_contain m n filter f ok fuel keys f' live :
  0 <= n <= 3491843305 ->
  Z.of_nat (length keys) < 2 ^ 60 ->
  (xor8_allocate m n filter = Ok (true, f) ->
   (forall u, xor8_populate ok fuel keys f <> Fault u) /\
   (xor8_populate ok fuel keys f = Ok (true, f', live) ->
    forall k,
      (In k keys -> xor8_contain k f' = Ok (true, f')) /\
      exists b, xor8_contain k f' = Ok (b, f'))) /\
  (xor16_allocate m n filter = Ok (true, f) ->
   (forall u, xor16_populate ok fuel keys f <> Fault u) /\
   (xor16_populate ok fuel keys f = Ok (true, f', live) ->
    forall k,
      (In k keys -> xor16_contain k f' = Ok (true, f')) /\
      exists b, xor16_contain k f' = Ok (b, f'))).
Proof.
  intros Hn HN.
  assert (0 <= n < 2 ^ 32) as Hn32 by lia.
  assert (0 <= n < 2 ^ 44) as Hn44 by lia.
  pose proof (spec_blockLength_range n Hn44) as Hb.
  pose proof (proj2 (spec_blockLength_fits n ltac:(lia)) ltac:(lia)) as Hfit.
  assert (u64 (spec_blockLength n * 3) = 3 * spec_blockLength n) as HB
    by (rewrite u64_small by lia; lia).
  assert (1 <= spec_blockLength n) as Hb1 by lia.
  split; intros A.
  - destruct m as [garbage|];
      [|rewrite xor8_allocate_eq in A by exact Hn44; discriminate A].
    destruct (xor8_allocate_wf garbage n filter Hn32) as (cells & E & L & _).
    rewrite E in A. injection A as <-. split.
    + intros u.
      apply (populate_safe 8 xor8_get_h0_h1_h2 xor8_get_just_h0_h1_h2
               (fun k f => proj2 (xor8_get_h0_h1_h2_just k f))
               (spec_blockLength n) (3 * spec_blockLength n)
               (fun f => xor8_slots_ok _ f Hb1 Hfit))
        with (cells := cells); auto; lia.
    + intros P k. rewrite !xor8_contain_generic.
      apply (populated_contain 8 ok fuel keys
               (Build_xor_t (seed filter) (spec_blockLength n) (Some cells))
               f' live cells);
        try exact P; cbn [blockLength fingerprints]; auto; lia.
  - destruct m as [garbage|];
      [|rewrite xor16_allocate_eq in A by exact Hn44; discriminate A].
    destruct (xor16_allocate_wf garbage n filter Hn44)
      as (cells & E & L & _).
    rewrite E in A. injection A as <-. split.
    + intros u.
      apply (populate_safe 16 xor16_get_h0_h1_h2 xor16_get_just_h0_h1_h2
               (fun k f => proj2 (xor16_get_h0_h1_h2_just k f))
               (spec_blockLength n) (3 * spec_blockLength n)
               (fun f => xor8_slots_ok _ f Hb1 Hfit))
        with (cells := cells); auto; lia.
    + intros P k. rewrite !xor16_contain_generic.
      apply (populated_contain 16 ok fuel keys
               (Build_xor_t (seed filter) (spec_blockLength n) (Some cells))
               f' live cells);
        try exact P; cbn [blockLength fingerprints]; auto; lia.
Qed.

(** The hypotheses of [allocate_populate_contain] hold for ten elements
    and the keys 1..10. *)
Lemma allocate_populate_contain_witness :
  0 <= 10 <= 3491843305 /\
  Z.of_nat (length keys_1_10) < 2 ^ 60 /\
  xor8_allocate (Some garbage_a) 10 unallocated = Ok (true, xor8_10_a) /\
  xor8_populate all_ok 4 keys_1_10 xor8_10_a
    = Ok (true, xor8_10_a_populated, []) /\
  xor8_contain 3 xor8_10_a_populated = Ok (true, xor8_10_a_populated).
Proof.
  assert (0 <= 10 <= 3491843305) as H1 by lia.
  assert (Z.of_nat (length keys_1_10) < 2 ^ 60) as H2
    by (vm_compute; reflexivity).
  assert (xor8_allocate (Some garbage_a) 10 unallocated
          = Ok (true, xor8_10_a)) as H3 by (vm_compute; reflexivity).
  assert (xor8_populate all_ok 4 keys_1_10 xor8_10_a
          = Ok (true, xor8_10_a_populated, [])) as H4
    by (vm_compute; reflexivity).
  assert (In 3 keys_1_10) as H5 by (cbn; tauto).
  exact (conj H1 (conj H2 (conj H3 (conj H4
           (proj1 (proj2 (proj1 (allocate_populate_contain
                                   (Some garbage_a) 10 unallocated xor8_10_a
                                   all_ok 4 keys_1_10 xor8_10_a_populated []
                                   H1 H2) H3) H4 3) H5))))).
Defined.

(** ** Memory usage *)

(** X14: for every 32-bit element count [n], the size that
    [xor8_size_in_bytes] (resp. [xor16_size_in_bytes]) reports for a
    freshly allocated filter is the number of bytes requested from
    [malloc] plus the 24 bytes of the header, and lies between
    [floor(1.23 n) + 54] and [floor(1.23 n) + 56] bytes (resp. between
    [2 floor(1.23 n) + 84] and [2 floor(1.23 n) + 88]). *)
Theorem allocate_size_in_bytes m n filter f :
  0 <= n < 2 ^ 32 ->
  (xor8_allocate m n filter = Ok (true, f) ->
   xor8_size_in_bytes f = 3 * blockLength f * 1 + 24 /\
   123 * n / 100 + 54 <= xor8_size_in_bytes f <= 123 * n / 100 + 56) /\
  (xor16_allocate m n filter = Ok (true, f) ->
   xor16_size_in_bytes f = 3 * blockLength f * 2 + 24 /\
   2 * (123 * n / 100) + 84 <= xor16_size_in_bytes f
     <= 2 * (123 * n / 100) + 88).
Proof.
  intros Hn. assert (0 <= n < 2 ^ 44) as Hn' by lia.
  pose proof (spec_blockLength_range n Hn') as Hb.
  assert (123 * n / 100 + 30 <= 3 * spec_blockLength n
          <= 123 * n / 100 + 32) as Hc.
  { rewrite <- spec_blockLength_capacity.
    pose proof (Z.mul_div_le (32 + 123 * n / 100) 3 ltac:(lia)).
    pose proof (Z.mul_succ_div_gt (32 + 123 * n / 100) 3 ltac:(lia)).
    lia. }
  assert (0 <= 123 * n / 100 < 2 ^ 40) as Hq.
  { split; [apply Z.div_pos; lia|apply Z.div_lt_upper_bound; lia]. }
  rewrite xor8_allocate_eq, xor16_allocate_eq by exact Hn'.
  unfold xor8_size_in_bytes, xor16_size_in_bytes, sizeof_uint8_t,
    sizeof_uint16_t, sizeof_xor8_t, sizeof_xor16_t.
  split; intros A.
  - destruct (malloc_cells 8 m _); [|discriminate A].
    injection A as <-. cbn [blockLength].
    rewrite (u64_small (3 * spec_blockLength n)) by lia.
    rewrite (u64_small (3 * spec_blockLength n * 1)) by lia.
    rewrite u64_small by lia. lia.
  - destruct (malloc_cells 16 m _); [|discriminate A].
    injection A as <-. cbn [blockLength].
    rewrite (u64_small (3 * spec_blockLength n)) by lia.
    rewrite (u64_small (3 * spec_blockLength n * 2)) by lia.
    rewrite u64_small by lia. lia.
Qed.

(** The hypotheses of [allocate_size_in_bytes] hold for ten elements:
    42 cells and a 24-byte header. *)
Lemma allocate_size_in_bytes_witness :
  0 <= 10 < 2 ^ 32 /\
  xor8_allocate (Some garbage_a) 10 unallocated = Ok (true, xor8_10_a) /\
  xor8_size_in_bytes xor8_10_a = 3 * blockLength xor8_10_a * 1 + 24.
Proof.
  assert (0 <= 10 < 2 ^ 32) as H1 by lia.
  assert (xor8_allocate (Some garbage_a) 10 unallocated
          = Ok (true, xor8_10_a)) as H2 by (vm_compute; reflexivity).
  exact (conj H1 (conj H2
           (proj1 (proj1 (allocate_size_in_bytes (Some garbage_a) 10
                            unallocated xor8_10_a H1) H2)))).
Defined.

(** ** Release *)

Lemma populate_no_cells W get get_just ok fuel k keys filter :
  ok S_sets = true -> ok S_Q = true -> ok S_stack = true ->
  blockLength filter = 0 ->
  populate W get get_just ok (S fuel) (k :: keys) filter
  = Fault (Out_of_bounds A_sets).
Proof.
  intros O1 O2 O3 Hb. unfold populate.
  destruct (xor_rng_splitmix64 1) as [r rng]. unfold malloc.
  rewrite O1, O2, O3. cbn [set_seed blockLength]. rewrite Hb.
  change (u64 (0 * 3)) with 0.
  cbn [retry]. unfold attempt.
  change (extent 0 sizeof_xor_xorset_t) with 0.
  cbn [Z.to_nat replicate add_keys]. unfold xorset_add at 1, read.
  change (Z.to_nat 0) with 0%nat. cbn [replicate].
  rewrite lookup_nil. reflexivity.
Qed.

(** X15: [xor8_free] and [xor16_free] keep the seed and leave a filter
    of block length 0 with a null cell pointer, which reports 24 bytes;
    releasing it again changes nothing.  Such a filter must be allocated
    anew before it is used: a query dereferences the null pointer for
    every key, and a construction from a non-empty key array, if its
    zero-byte scratch requests are granted, writes outside [sets]. *)
Theorem use_after_free filter :
  let f := xor8_free filter in
  xor16_free filter = f /\
  f = Build_xor_t (seed filter) 0 None /\
  xor8_free f = f /\
  xor8_size_in_bytes f = 24 /\ xor16_size_in_bytes f = 24 /\
  (forall k,
     xor8_contain k f = Fault (Out_of_bounds A_fingerprints) /\
     xor16_contain k f = Fault (Out_of_bounds A_fingerprints)) /\
  (forall ok fuel k keys,
     ok S_sets = true -> ok S_Q = true -> ok S_stack = true ->
     xor8_populate ok (S fuel) (k :: keys) f
       = Fault (Out_of_bounds A_sets) /\
     xor16_populate ok (S fuel) (k :: keys) f
       = Fault (Out_of_bounds A_sets)).
Proof.
  intros f. split; [reflexivity|]. split; [reflexivity|].
  split; [reflexivity|]. split; [reflexivity|]. split; [reflexivity|].
  split.
  - intros k. rewrite xor8_contain_generic, xor16_contain_generic.
    split; reflexivity.
  - intros ok fuel k keys O1 O2 O3.
    split; apply populate_no_cells; auto.
Qed.

(** The hypotheses of [use_after_free] hold when the filter built from
    the keys 1..10 is released and built again. *)
Lemma use_after_free_witness :
  xor8_populate all_ok 1 keys_1_10 (xor8_free xor8_10_a_populated)
    = Fault (Out_of_bounds A_sets).
Proof.
  exact (proj1 (proj2 (proj2 (proj2 (proj2 (proj2 (proj2
           (use_after_free xor8_10_a_populated))))))
           all_ok 0%nat 1 [2; 3; 4; 5; 6; 7; 8; 9; 10]
           eq_refl eq_refl eq_refl)).
Defined.
